(** * Catch Zone: the game engine of tm-pose-catchzone

    A shallow embedding of [GameEngine] (gameEngine.js, the version with
    the level-ending and level-up-pause states) and of the part of main.js
    that drives it.  The engine is a single mutable object whose
    methods are run to completion by the browser's timer facility, so the
    model is a state record, one function per method, and a [step] function
    that dispatches one event (a command, an interval firing, a one-shot
    timeout firing) at a time.

    Modelling conventions.
    - JavaScript numbers are IEEE 754 binary64 values.  The counters
      ([score], [level], [missCount], the two countdowns) hold integers far
      below 2^53, on which that arithmetic is exact: they are [Z].
      [progress], [dropTime] and the spawn interval are fractions: such a
      number is represented by the rational it denotes, in lowest terms, and
      [fadd], [fsub], [fmul] and [fdiv] compute the exact result and round it
      to the nearest binary64 value, ties to even ([round64]).  A decimal
      literal of the source is the rounding of its decimal value, so [0.2]
      is [round64 0.2].
    - Item objects live in a store ([heap]) and are referred to by their
      index, which stands for JavaScript object identity: [this.items] is a
      list of references, [indexOf] compares references, and the removal
      closure created by the updater captures a reference.
    - [setInterval]/[setTimeout] allocate handles from one counter; the set
      of live intervals and of pending timeouts is part of the state, so a
      handle that is overwritten without being cleared stays live.
    - The callbacks registered on the engine are observers: a registered
      callback is a flag, and calling it appends a notification to [out].
      [alert] and [showFeedback] append to [out] as well.  Pure DOM work
      ([updateUI], [renderItems], the overlays, the basket animation) has no
      effect on the engine and is left out.
    - [Math.random] is supplied by the event that makes the spawner fire. *)

From Stdlib Require Import ZArith QArith Qminmax Qround Qpower String Lia Lqa.
From Stdlib Require Import Floats.SpecFloat.
From stdpp Require Import base option list gmap strings pretty.

Local Open Scope Z_scope.

(** ** Numbers

    Rounding to binary64.  A positive rational [x] with 2^e <= x < 2^(e+1)
    lies between two neighbouring multiples of 2^(e-52) (of 2^(-1074) below
    the normal range); [round64] takes the nearer one, and of two equally
    near ones the one with an even multiplier.  Infinities and NaN are not
    represented: the engine divides by 60, by 1000 and by drop times, which
    are at least 0.6, and its products and sums stay below 2^1024 for every
    level below 2^1023. *)

Definition pow2 (e : Z) : Q := (2 ^ e)%Q.

(** The exponent [e] with 2^e <= x < 2^(e+1), for a positive [x]. *)
Definition binade (x : Q) : Z :=
  let e := Z.log2 (Qnum x) - Z.log2 (Z.pos (Qden x)) in
  if Qle_bool (pow2 e) x then e else e - 1.

Definition roundHalfEven (m : Q) : Z :=
  let f := Qfloor m in
  match (m - inject_Z f ?= 1 # 2)%Q with
  | Lt => f
  | Gt => f + 1
  | Eq => if Z.even f then f else f + 1
  end.

(** The distance between neighbouring binary64 values around [x]. *)
Definition ulp (x : Q) : Q := pow2 (Z.max (binade x) (-1022) - 52).

Definition roundPos (x : Q) : Q :=
  (inject_Z (roundHalfEven (x / ulp x)) * ulp x)%Q.

Definition round64 (x : Q) : Q :=
  match (x ?= 0)%Q with
  | Eq => 0%Q
  | Gt => Qred (roundPos x)
  | Lt => Qred (- roundPos (- x))
  end.

(** [+], [-], [*] and [/] of the source, and an integer used as a number. *)
Definition fadd (x y : Q) : Q := round64 (x + y).
Definition fsub (x y : Q) : Q := round64 (x - y).
Definition fmul (x y : Q) : Q := round64 (x * y).
Definition fdiv (x y : Q) : Q := round64 (x / y).
Definition ofInt (z : Z) : Q := round64 (inject_Z z).

Arguments round64 : simpl never.
Arguments fadd : simpl never.
Arguments fsub : simpl never.
Arguments fmul : simpl never.
Arguments fdiv : simpl never.
Arguments ofInt : simpl never.

#[global] Instance Q_eq_dec : EqDecision Q.
Proof. solve_decision. Defined.

(** ** Data *)

(** A zone name.  [basketPosition] can also come to hold a property that
    the lookup object of [moveBasket] inherits from [Object.prototype] (a
    function, or the prototype itself); such a value is identified by its
    key, is truthy, and is equal to no zone name. *)
Inductive Zone := LEFT | CENTER | RIGHT | inherited (key : string).

#[global] Instance Zone_eq_dec : EqDecision Zone.
Proof. solve_decision. Defined.

Inductive ItemKind := bomb | apple | pear | orange.

#[global] Instance ItemKind_eq_dec : EqDecision ItemKind.
Proof. solve_decision. Defined.

(** An entry of [this.itemTypes] (the [icon] is only rendered). *)
Module ItemType.
Record t := mk { type : ItemKind; points : Z; isBomb : bool }.
End ItemType.

(** A falling item, as built by [spawnItem].  The [id] and [icon] fields
    are read by [renderItems] only. *)
Record Item := mkItem {
  zone : Zone;
  type : ItemKind;
  points : Z;
  isBomb : bool;
  progress : Q;
  dropTime : Q;
  caught : bool
}.

Definition set_progress (p : Q) (it : Item) : Item :=
  mkItem (zone it) (type it) (points it) (isBomb it) p (dropTime it) (caught it).

Definition set_caught (c : bool) (it : Item) : Item :=
  mkItem (zone it) (type it) (points it) (isBomb it) (progress it) (dropTime it) c.

(** The four [setInterval] callbacks of the engine. *)
Inductive Interval :=
| LevelTimerTick        (* startLevelTimer *)
| ItemSpawnTick         (* startItemSpawner *)
| ItemUpdateTick        (* startItemUpdater *)
| LevelUpCountdownTick. (* startLevelUpCountdown *)

Inductive FeedbackType := success | warning.

(** What the engine sends out: the five callbacks, [alert] and
    [showFeedback]. *)
Inductive Notification :=
| ScoreChange (newScore : Z)
| MissChange (newMissCount : Z)
| LevelChange (newLevel : Z)
| GameEnd (finalScore finalLevel : Z)
| BasketMove (position : Zone)
| Alert (reason : string) (finalScore finalLevel : Z)
| Feedback (message : string) (z : option Zone) (ty : FeedbackType).

Record State := mkState {
  isGameActive : bool;
  score : Z;
  level : Z;
  missCount : Z;
  basketPosition : Zone;
  items : list nat;
  levelTimer : option nat;
  levelTimeRemaining : Z;
  isLevelUpPause : bool;
  levelUpCountdown : Z;
  levelUpCountdownTimer : option nat;
  isLevelEnding : bool;
  itemSpawnTimer : option nat;
  itemUpdateTimer : option nat;
  onScoreChange : bool;
  onMissChange : bool;
  onLevelChange : bool;
  onGameEnd : bool;
  onBasketMove : bool;
  heap : list Item;
  intervals : gmap nat Interval;
  timeouts : gmap nat nat;
  nextTimer : nat;
  out : list Notification
}.

Definition set_isGameActive (v : bool) (s : State) : State :=
  mkState v (score s) (level s) (missCount s) (basketPosition s) (items s)
    (levelTimer s) (levelTimeRemaining s) (isLevelUpPause s)
    (levelUpCountdown s) (levelUpCountdownTimer s) (isLevelEnding s)
    (itemSpawnTimer s) (itemUpdateTimer s) (onScoreChange s)
    (onMissChange s) (onLevelChange s) (onGameEnd s) (onBasketMove s)
    (heap s) (intervals s) (timeouts s) (nextTimer s) (out s).

Definition set_score (v : Z) (s : State) : State :=
  mkState (isGameActive s) v (level s) (missCount s) (basketPosition s)
    (items s) (levelTimer s) (levelTimeRemaining s) (isLevelUpPause s)
    (levelUpCountdown s) (levelUpCountdownTimer s) (isLevelEnding s)
    (itemSpawnTimer s) (itemUpdateTimer s) (onScoreChange s)
    (onMissChange s) (onLevelChange s) (onGameEnd s) (onBasketMove s)
    (heap s) (intervals s) (timeouts s) (nextTimer s) (out s).

Definition set_level (v : Z) (s : State) : State :=
  mkState (isGameActive s) (score s) v (missCount s) (basketPosition s)
    (items s) (levelTimer s) (levelTimeRemaining s) (isLevelUpPause s)
    (levelUpCountdown s) (levelUpCountdownTimer s) (isLevelEnding s)
    (itemSpawnTimer s) (itemUpdateTimer s) (onScoreChange s)
    (onMissChange s) (onLevelChange s) (onGameEnd s) (onBasketMove s)
    (heap s) (intervals s) (timeouts s) (nextTimer s) (out s).

Definition set_missCount (v : Z) (s : State) : State :=
  mkState (isGameActive s) (score s) (level s) v (basketPosition s)
    (items s) (levelTimer s) (levelTimeRemaining s) (isLevelUpPause s)
    (levelUpCountdown s) (levelUpCountdownTimer s) (isLevelEnding s)
    (itemSpawnTimer s) (itemUpdateTimer s) (onScoreChange s)
    (onMissChange s) (onLevelChange s) (onGameEnd s) (onBasketMove s)
    (heap s) (intervals s) (timeouts s) (nextTimer s) (out s).

Definition set_basketPosition (v : Zone) (s : State) : State :=
  mkState (isGameActive s) (score s) (level s) (missCount s) v (items s)
    (levelTimer s) (levelTimeRemaining s) (isLevelUpPause s)
    (levelUpCountdown s) (levelUpCountdownTimer s) (isLevelEnding s)
    (itemSpawnTimer s) (itemUpdateTimer s) (onScoreChange s)
    (onMissChange s) (onLevelChange s) (onGameEnd s) (onBasketMove s)
    (heap s) (intervals s) (timeouts s) (nextTimer s) (out s).

Definition set_items (v : list nat) (s : State) : State :=
  mkState (isGameActive s) (score s) (level s) (missCount s)
    (basketPosition s) v (levelTimer s) (levelTimeRemaining s)
    (isLevelUpPause s) (levelUpCountdown s) (levelUpCountdownTimer s)
    (isLevelEnding s) (itemSpawnTimer s) (itemUpdateTimer s)
    (onScoreChange s) (onMissChange s) (onLevelChange s) (onGameEnd s)
    (onBasketMove s) (heap s) (intervals s) (timeouts s) (nextTimer s)
    (out s).

Definition set_levelTimer (v : option nat) (s : State) : State :=
  mkState (isGameActive s) (score s) (level s) (missCount s)
    (basketPosition s) (items s) v (levelTimeRemaining s) (isLevelUpPause s)
    (levelUpCountdown s) (levelUpCountdownTimer s) (isLevelEnding s)
    (itemSpawnTimer s) (itemUpdateTimer s) (onScoreChange s)
    (onMissChange s) (onLevelChange s) (onGameEnd s) (onBasketMove s)
    (heap s) (intervals s) (timeouts s) (nextTimer s) (out s).

Definition set_levelTimeRemaining (v : Z) (s : State) : State :=
  mkState (isGameActive s) (score s) (level s) (missCount s)
    (basketPosition s) (items s) (levelTimer s) v (isLevelUpPause s)
    (levelUpCountdown s) (levelUpCountdownTimer s) (isLevelEnding s)
    (itemSpawnTimer s) (itemUpdateTimer s) (onScoreChange s)
    (onMissChange s) (onLevelChange s) (onGameEnd s) (onBasketMove s)
    (heap s) (intervals s) (timeouts s) (nextTimer s) (out s).

Definition set_isLevelUpPause (v : bool) (s : State) : State :=
  mkState (isGameActive s) (score s) (level s) (missCount s)
    (basketPosition s) (items s) (levelTimer s) (levelTimeRemaining s) v
    (levelUpCountdown s) (levelUpCountdownTimer s) (isLevelEnding s)
    (itemSpawnTimer s) (itemUpdateTimer s) (onScoreChange s)
    (onMissChange s) (onLevelChange s) (onGameEnd s) (onBasketMove s)
    (heap s) (intervals s) (timeouts s) (nextTimer s) (out s).

Definition set_levelUpCountdown (v : Z) (s : State) : State :=
  mkState (isGameActive s) (score s) (level s) (missCount s)
    (basketPosition s) (items s) (levelTimer s) (levelTimeRemaining s)
    (isLevelUpPause s) v (levelUpCountdownTimer s) (isLevelEnding s)
    (itemSpawnTimer s) (itemUpdateTimer s) (onScoreChange s)
    (onMissChange s) (onLevelChange s) (onGameEnd s) (onBasketMove s)
    (heap s) (intervals s) (timeouts s) (nextTimer s) (out s).

Definition set_levelUpCountdownTimer (v : option nat) (s : State) : State :=
  mkState (isGameActive s) (score s) (level s) (missCount s)
    (basketPosition s) (items s) (levelTimer s) (levelTimeRemaining s)
    (isLevelUpPause s) (levelUpCountdown s) v (isLevelEnding s)
    (itemSpawnTimer s) (itemUpdateTimer s) (onScoreChange s)
    (onMissChange s) (onLevelChange s) (onGameEnd s) (onBasketMove s)
    (heap s) (intervals s) (timeouts s) (nextTimer s) (out s).

Definition set_isLevelEnding (v : bool) (s : State) : State :=
  mkState (isGameActive s) (score s) (level s) (missCount s)
    (basketPosition s) (items s) (levelTimer s) (levelTimeRemaining s)
    (isLevelUpPause s) (levelUpCountdown s) (levelUpCountdownTimer s) v
    (itemSpawnTimer s) (itemUpdateTimer s) (onScoreChange s)
    (onMissChange s) (onLevelChange s) (onGameEnd s) (onBasketMove s)
    (heap s) (intervals s) (timeouts s) (nextTimer s) (out s).

Definition set_itemSpawnTimer (v : option nat) (s : State) : State :=
  mkState (isGameActive s) (score s) (level s) (missCount s)
    (basketPosition s) (items s) (levelTimer s) (levelTimeRemaining s)
    (isLevelUpPause s) (levelUpCountdown s) (levelUpCountdownTimer s)
    (isLevelEnding s) v (itemUpdateTimer s) (onScoreChange s)
    (onMissChange s) (onLevelChange s) (onGameEnd s) (onBasketMove s)
    (heap s) (intervals s) (timeouts s) (nextTimer s) (out s).

Definition set_itemUpdateTimer (v : option nat) (s : State) : State :=
  mkState (isGameActive s) (score s) (level s) (missCount s)
    (basketPosition s) (items s) (levelTimer s) (levelTimeRemaining s)
    (isLevelUpPause s) (levelUpCountdown s) (levelUpCountdownTimer s)
    (isLevelEnding s) (itemSpawnTimer s) v (onScoreChange s)
    (onMissChange s) (onLevelChange s) (onGameEnd s) (onBasketMove s)
    (heap s) (intervals s) (timeouts s) (nextTimer s) (out s).

Definition set_onScoreChange (v : bool) (s : State) : State :=
  mkState (isGameActive s) (score s) (level s) (missCount s)
    (basketPosition s) (items s) (levelTimer s) (levelTimeRemaining s)
    (isLevelUpPause s) (levelUpCountdown s) (levelUpCountdownTimer s)
    (isLevelEnding s) (itemSpawnTimer s) (itemUpdateTimer s) v
    (onMissChange s) (onLevelChange s) (onGameEnd s) (onBasketMove s)
    (heap s) (intervals s) (timeouts s) (nextTimer s) (out s).

Definition set_onMissChange (v : bool) (s : State) : State :=
  mkState (isGameActive s) (score s) (level s) (missCount s)
    (basketPosition s) (items s) (levelTimer s) (levelTimeRemaining s)
    (isLevelUpPause s) (levelUpCountdown s) (levelUpCountdownTimer s)
    (isLevelEnding s) (itemSpawnTimer s) (itemUpdateTimer s)
    (onScoreChange s) v (onLevelChange s) (onGameEnd s) (onBasketMove s)
    (heap s) (intervals s) (timeouts s) (nextTimer s) (out s).

Definition set_onLevelChange (v : bool) (s : State) : State :=
  mkState (isGameActive s) (score s) (level s) (missCount s)
    (basketPosition s) (items s) (levelTimer s) (levelTimeRemaining s)
    (isLevelUpPause s) (levelUpCountdown s) (levelUpCountdownTimer s)
    (isLevelEnding s) (itemSpawnTimer s) (itemUpdateTimer s)
    (onScoreChange s) (onMissChange s) v (onGameEnd s) (onBasketMove s)
    (heap s) (intervals s) (timeouts s) (nextTimer s) (out s).

Definition set_onGameEnd (v : bool) (s : State) : State :=
  mkState (isGameActive s) (score s) (level s) (missCount s)
    (basketPosition s) (items s) (levelTimer s) (levelTimeRemaining s)
    (isLevelUpPause s) (levelUpCountdown s) (levelUpCountdownTimer s)
    (isLevelEnding s) (itemSpawnTimer s) (itemUpdateTimer s)
    (onScoreChange s) (onMissChange s) (onLevelChange s) v (onBasketMove s)
    (heap s) (intervals s) (timeouts s) (nextTimer s) (out s).

Definition set_onBasketMove (v : bool) (s : State) : State :=
  mkState (isGameActive s) (score s) (level s) (missCount s)
    (basketPosition s) (items s) (levelTimer s) (levelTimeRemaining s)
    (isLevelUpPause s) (levelUpCountdown s) (levelUpCountdownTimer s)
    (isLevelEnding s) (itemSpawnTimer s) (itemUpdateTimer s)
    (onScoreChange s) (onMissChange s) (onLevelChange s) (onGameEnd s) v
    (heap s) (intervals s) (timeouts s) (nextTimer s) (out s).

Definition set_heap (v : list Item) (s : State) : State :=
  mkState (isGameActive s) (score s) (level s) (missCount s)
    (basketPosition s) (items s) (levelTimer s) (levelTimeRemaining s)
    (isLevelUpPause s) (levelUpCountdown s) (levelUpCountdownTimer s)
    (isLevelEnding s) (itemSpawnTimer s) (itemUpdateTimer s)
    (onScoreChange s) (onMissChange s) (onLevelChange s) (onGameEnd s)
    (onBasketMove s) v (intervals s) (timeouts s) (nextTimer s) (out s).

Definition set_intervals (v : gmap nat Interval) (s : State) : State :=
  mkState (isGameActive s) (score s) (level s) (missCount s)
    (basketPosition s) (items s) (levelTimer s) (levelTimeRemaining s)
    (isLevelUpPause s) (levelUpCountdown s) (levelUpCountdownTimer s)
    (isLevelEnding s) (itemSpawnTimer s) (itemUpdateTimer s)
    (onScoreChange s) (onMissChange s) (onLevelChange s) (onGameEnd s)
    (onBasketMove s) (heap s) v (timeouts s) (nextTimer s) (out s).

Definition set_timeouts (v : gmap nat nat) (s : State) : State :=
  mkState (isGameActive s) (score s) (level s) (missCount s)
    (basketPosition s) (items s) (levelTimer s) (levelTimeRemaining s)
    (isLevelUpPause s) (levelUpCountdown s) (levelUpCountdownTimer s)
    (isLevelEnding s) (itemSpawnTimer s) (itemUpdateTimer s)
    (onScoreChange s) (onMissChange s) (onLevelChange s) (onGameEnd s)
    (onBasketMove s) (heap s) (intervals s) v (nextTimer s) (out s).

Definition set_nextTimer (v : nat) (s : State) : State :=
  mkState (isGameActive s) (score s) (level s) (missCount s)
    (basketPosition s) (items s) (levelTimer s) (levelTimeRemaining s)
    (isLevelUpPause s) (levelUpCountdown s) (levelUpCountdownTimer s)
    (isLevelEnding s) (itemSpawnTimer s) (itemUpdateTimer s)
    (onScoreChange s) (onMissChange s) (onLevelChange s) (onGameEnd s)
    (onBasketMove s) (heap s) (intervals s) (timeouts s) v (out s).

Definition set_out (v : list Notification) (s : State) : State :=
  mkState (isGameActive s) (score s) (level s) (missCount s)
    (basketPosition s) (items s) (levelTimer s) (levelTimeRemaining s)
    (isLevelUpPause s) (levelUpCountdown s) (levelUpCountdownTimer s)
    (isLevelEnding s) (itemSpawnTimer s) (itemUpdateTimer s)
    (onScoreChange s) (onMissChange s) (onLevelChange s) (onGameEnd s)
    (onBasketMove s) (heap s) (intervals s) (timeouts s) (nextTimer s) v.

(** ** Constants set by the constructor and never reassigned *)

Definition maxMisses : Z := 2.
Definition levelTimeLimit : Z := 20.
Definition zones : list Zone := [LEFT; CENTER; RIGHT].

Definition itemTypes : list ItemType.t :=
  [ ItemType.mk bomb 0 true;
    ItemType.mk apple 100 false;
    ItemType.mk pear 150 false;
    ItemType.mk orange 200 false ].

(** [new GameEngine()].  [itemUpdateTimer] is not assigned by the
    constructor; [undefined] and [null] are both [None]. *)
Definition init : State :=
  mkState false 0 1 0 CENTER [] None levelTimeLimit false 3 None false None None
          false false false false false [] ∅ ∅ 1%nat [].

(** ** Timers *)

Definition setInterval (cb : Interval) (s : State) : nat * State :=
  let h := nextTimer s in
  (h, set_nextTimer (S h) (set_intervals (<[h := cb]> (intervals s)) s)).

Definition clearInterval (h : option nat) (s : State) : State :=
  match h with
  | Some h => set_intervals (delete h (intervals s)) s
  | None => s
  end.

(** [setTimeout(() => ..., 300)] of the updater; the closure captures the
    item [r]. *)
Definition setTimeout (r : nat) (s : State) : State :=
  let h := nextTimer s in
  set_nextTimer (S h) (set_timeouts (<[h := r]> (timeouts s)) s).

Definition emit (n : Notification) (s : State) : State :=
  set_out (out s ++ [n]) s.

(** [clearTimers]: each handle is cleared and nulled when it is set. *)
Definition clearTimers (s : State) : State :=
  let s := match levelTimer s with
           | Some h => set_levelTimer None (clearInterval (Some h) s)
           | None => s end in
  let s := match itemSpawnTimer s with
           | Some h => set_itemSpawnTimer None (clearInterval (Some h) s)
           | None => s end in
  let s := match itemUpdateTimer s with
           | Some h => set_itemUpdateTimer None (clearInterval (Some h) s)
           | None => s end in
  match levelUpCountdownTimer s with
  | Some h => set_levelUpCountdownTimer None (clearInterval (Some h) s)
  | None => s
  end.

(** ** Lifecycle *)

Definition stop (s : State) : State :=
  let s := set_isGameActive false s in
  let s := clearTimers s in
  if onGameEnd s then emit (GameEnd (score s) (level s)) s else s.

Definition gameOver (reason : string) (s : State) : State :=
  let s := stop s in
  emit (Alert reason (score s) (level s)) s.

Definition startLevelTimer (s : State) : State :=
  let '(h, s) := setInterval LevelTimerTick s in
  set_levelTimer (Some h) s.

(** [getItemSpawnInterval] only fixes the period of the interval. *)
Definition startItemSpawner (s : State) : State :=
  let '(h, s) := setInterval ItemSpawnTick s in
  set_itemSpawnTimer (Some h) s.

Definition restartItemSpawner (s : State) : State :=
  startItemSpawner (clearInterval (itemSpawnTimer s) s).

Definition startItemUpdater (s : State) : State :=
  let '(h, s) := setInterval ItemUpdateTick s in
  set_itemUpdateTimer (Some h) s.

Definition start (s : State) : State :=
  let s := set_isGameActive true s in
  let s := set_score 0 s in
  let s := set_level 1 s in
  let s := set_missCount 0 s in
  let s := set_basketPosition CENTER s in
  let s := set_items [] s in
  let s := set_levelTimeRemaining levelTimeLimit s in
  let s := startLevelTimer s in
  let s := startItemSpawner s in
  startItemUpdater s.

(** ** Levels *)

Definition startLevelUpCountdown (s : State) : State :=
  let '(h, s) := setInterval LevelUpCountdownTick s in
  set_levelUpCountdownTimer (Some h) s.

Definition pauseForLevelUp (s : State) : State :=
  let s := set_isLevelUpPause true s in
  let s := set_levelUpCountdown 3 s in
  let s := clearInterval (levelTimer s) s in
  let s := clearInterval (itemSpawnTimer s) s in
  startLevelUpCountdown s.

Definition nextLevel (s : State) : State :=
  let s := set_level (level s + 1) s in
  let s := set_levelTimeRemaining levelTimeLimit s in
  let s := set_isLevelEnding false s in
  pauseForLevelUp s.

Definition startLevelEnding (s : State) : State :=
  let s := set_isLevelEnding true s in
  let s := clearInterval (levelTimer s) s in
  let s := clearInterval (itemSpawnTimer s) s in
  if decide (length (items s) = 0%nat) then nextLevel s else s.

Definition levelTimerTick (s : State) : State :=
  let s := set_levelTimeRemaining (levelTimeRemaining s - 1) s in
  if decide (levelTimeRemaining s <= 0) then startLevelEnding s else s.

Definition resumeAfterLevelUp (s : State) : State :=
  let s := set_isLevelUpPause false s in
  let s := startLevelTimer s in
  let s := restartItemSpawner s in
  if onLevelChange s then emit (LevelChange (level s)) s else s.

Definition levelUpCountdownTick (s : State) : State :=
  let s := set_levelUpCountdown (levelUpCountdown s - 1) s in
  if decide (levelUpCountdown s <= 0)
  then resumeAfterLevelUp (clearInterval (levelUpCountdownTimer s) s)
  else s.

(** ** Difficulty *)

Definition baseDropTime : Q := round64 2.0.
Definition decreasePerLevel : Q := round64 0.2.
Definition minDropTime : Q := round64 0.6.

Arguments baseDropTime : simpl never.
Arguments decreasePerLevel : simpl never.
Arguments minDropTime : simpl never.

(** [getDropTime]; the earlier copy of the engine kept under js/ has the
    same function, word for word. *)
Definition getDropTime (s : State) : Q :=
  Qmax (fsub baseDropTime (fmul (ofInt (level s - 1)) decreasePerLevel))
       minDropTime.

(** ** Spawner *)

(** The value of [Math.floor(Math.random() * 3)]. *)
Inductive Pick3 := pick0 | pick1 | pick2.

Definition pickIndex (p : Pick3) : nat :=
  match p with pick0 => 0 | pick1 => 1 | pick2 => 2 end%nat.

(** The random draws of one [spawnItem]: the zone index, the outcome of
    [Math.random() < 0.2], and the fruit index. *)
Record Draws := mkDraws { zoneDraw : Pick3; bombDraw : bool; fruitDraw : Pick3 }.

Definition spawnItem (d : Draws) (s : State) : State :=
  let zone := nth (pickIndex (zoneDraw d)) zones CENTER in
  let bombType := nth 0 itemTypes (ItemType.mk bomb 0 true) in
  let itemType :=
    if bombDraw d then bombType
    else nth (pickIndex (fruitDraw d)) (drop 1 itemTypes) bombType in
  let item := mkItem zone (ItemType.type itemType) (ItemType.points itemType)
                     (ItemType.isBomb itemType) 0 (getDropTime s) false in
  let r := length (heap s) in
  set_items (items s ++ [r]) (set_heap (heap s ++ [item]) s).

Definition itemSpawnTick (d : Draws) (s : State) : State :=
  if isGameActive s && negb (isLevelEnding s) then spawnItem d s else s.

(** ** Catch and miss outcomes *)

Definition bombReason : string := "폭탄을 받았습니다!".

Definition missReason : string :=
  "과일을 " +:+ pretty maxMisses +:+ "번 놓쳤습니다!".

Definition showFeedback (message : string) (z : option Zone)
    (ty : FeedbackType) (s : State) : State :=
  emit (Feedback message z ty) s.

Definition catchItem (item : Item) (s : State) : State :=
  if isBomb item then gameOver bombReason s
  else
    let s := set_score (score s + points item) s in
    let s := if onScoreChange s then emit (ScoreChange (score s)) s else s in
    showFeedback ("+" +:+ pretty (points item) +:+ "점!") (Some (zone item))
                 success s.

Definition missItem (s : State) : State :=
  let s := set_missCount (missCount s + 1) s in
  let s := if onMissChange s then emit (MissChange (missCount s)) s else s in
  if decide (missCount s = 1) then showFeedback "경고!" None warning s
  else if decide (missCount s >= maxMisses) then gameOver missReason s
  else s.

Definition handleItemReachedBasket (item : Item) (s : State) : State :=
  if decide (zone item = basketPosition s) then catchItem item s
  else if negb (isBomb item) then missItem s
  else s.

(** ** Physics and collision updater *)

Definition updateInterval : Q := fdiv 1000 60.
Definition deltaTime : Q := fdiv updateInterval 1000.
Definition catchLine : Q := round64 0.85.

Arguments updateInterval : simpl never.
Arguments deltaTime : simpl never.
Arguments catchLine : simpl never.

(** The body of the [forEach] for the item object [r]. *)
Definition updateItem (s : State) (r : nat) : State :=
  match heap s !! r with
  | None => s
  | Some item =>
    if caught item then s
    else
      let item :=
        set_progress (fadd (progress item) (fdiv deltaTime (dropTime item)))
                     item in
      if Qle_bool catchLine (progress item) then
        let item := set_progress catchLine (set_caught true item) in
        let s := set_heap (<[r := item]> (heap s)) s in
        let s := handleItemReachedBasket item s in
        setTimeout r s
      else set_heap (<[r := item]> (heap s)) s
  end.

Definition itemUpdateTick (s : State) : State :=
  if negb (isGameActive s) || isLevelUpPause s then s
  else foldl updateItem s (items s).

(** The closure passed to [setTimeout] by the updater, for the item [r]. *)
Definition indexOf (r : nat) (l : list nat) : option nat :=
  fst <$> list_find (λ x, x = r) l.

Definition removeItem (r : nat) (s : State) : State :=
  match indexOf r (items s) with
  | Some itemIndex =>
    let s := set_items (delete itemIndex (items s)) s in
    if isLevelEnding s && bool_decide (length (items s) = 0%nat)
    then nextLevel s else s
  | None => s
  end.

(** ** Basket *)

(** The properties of [Object.prototype], which every object literal
    inherits. *)
Definition objectPrototypeKeys : list string :=
  [ "constructor"; "__defineGetter__"; "__defineSetter__"; "hasOwnProperty";
    "__lookupGetter__"; "__lookupSetter__"; "isPrototypeOf";
    "propertyIsEnumerable"; "toString"; "valueOf"; "__proto__";
    "toLocaleString" ].

(** [poseToZone[pose]] for the object literal of [moveBasket]: its own keys
    are the class names of the pose model, an inherited key gives the
    inherited property, and any other class name is [undefined]. *)
Definition poseToZone (pose : string) : option Zone :=
  if decide (pose = "왼쪽") then Some LEFT
  else if decide (pose = "정면") then Some CENTER
  else if decide (pose = "오른쪽") then Some RIGHT
  else if decide (pose ∈ objectPrototypeKeys) then Some (inherited pose)
  else None.

Definition moveBasket (pose : string) (s : State) : State :=
  if negb (isGameActive s) then s
  else match poseToZone pose with
       | Some newPosition =>
         if decide (newPosition ≠ basketPosition s) then
           let s := set_basketPosition newPosition s in
           if onBasketMove s then emit (BasketMove (basketPosition s)) s else s
         else s
       | None => s
       end.

(** ** Events *)

Inductive Callback :=
| ScoreChangeCallback | MissChangeCallback | LevelChangeCallback
| GameEndCallback | BasketMoveCallback.

Definition setCallback (c : Callback) (registered : bool) (s : State) : State :=
  match c with
  | ScoreChangeCallback => set_onScoreChange registered s
  | MissChangeCallback => set_onMissChange registered s
  | LevelChangeCallback => set_onLevelChange registered s
  | GameEndCallback => set_onGameEnd registered s
  | BasketMoveCallback => set_onBasketMove registered s
  end.

(** One turn of the browser's event loop as seen by the engine: a method
    called by the page, a live interval firing (with the random draws a
    spawn would consume), or a pending one-shot timeout firing. *)
Inductive Event :=
| CallStart
| CallStop
| CallMoveBasket (pose : string)
| CallSetCallback (c : Callback) (registered : bool)
| IntervalFires (h : nat) (d : Draws)
| TimeoutFires (h : nat).

Definition intervalFires (h : nat) (d : Draws) (s : State) : State :=
  match intervals s !! h with
  | Some LevelTimerTick => levelTimerTick s
  | Some ItemSpawnTick => itemSpawnTick d s
  | Some ItemUpdateTick => itemUpdateTick s
  | Some LevelUpCountdownTick => levelUpCountdownTick s
  | None => s
  end.

Definition timeoutFires (h : nat) (s : State) : State :=
  match timeouts s !! h with
  | Some r => removeItem r (set_timeouts (delete h (timeouts s)) s)
  | None => s
  end.

Definition step (s : State) (e : Event) : State :=
  match e with
  | CallStart => start s
  | CallStop => stop s
  | CallMoveBasket pose => moveBasket pose s
  | CallSetCallback c registered => setCallback c registered s
  | IntervalFires h d => intervalFires h d s
  | TimeoutFires h => timeoutFires h s
  end.

Definition run (es : list Event) : State := foldl step init es.

(** [main.js]: [setupGameCallbacks] registers all five callbacks, and the
    page's [stop] only calls the engine when it is active. *)
Definition setupGameCallbacks : list Event :=
  [ CallSetCallback ScoreChangeCallback true;
    CallSetCallback MissChangeCallback true;
    CallSetCallback LevelChangeCallback true;
    CallSetCallback GameEndCallback true;
    CallSetCallback BasketMoveCallback true ].

Definition page_stop (s : State) : State :=
  if isGameActive s then stop s else s.

(** ** Remaining methods of the engine and of the page *)

(** [getItemSpawnInterval], in milliseconds; [u] is the value of
    [Math.random()]. *)
Definition getItemSpawnInterval (u : Q) (s : State) : Q :=
  let dropTime := getDropTime s in
  let minInterval := fmul dropTime (round64 0.6) in
  let maxInterval := fmul dropTime (round64 0.8) in
  fmul (fadd minInterval (fmul u (fsub maxInterval minInterval))) 1000.

(** The snapshot returned by [getGameState]. *)
Record Snapshot := mkSnapshot {
  isActive : bool;
  snapScore : Z;
  snapLevel : Z;
  snapMissCount : Z;
  snapBasketPosition : Zone;
  itemCount : nat
}.

Definition getGameState (s : State) : Snapshot :=
  mkSnapshot (isGameActive s) (score s) (level s) (missCount s)
             (basketPosition s) (length (items s)).

(** [handlePrediction] of main.js, from the stabilised class name on: the
    name is [None] when it is [null] or [undefined], and the empty string
    is falsy as well. *)
Definition page_handlePrediction (className : option string) (s : State)
    : State :=
  match className with
  | Some c =>
    if isGameActive s && negb (bool_decide (c = "")) then moveBasket c s else s
  | None => s
  end.

(** ** The earlier engine (js/gameEngine.js)

    The copy kept under js/ has no [caught] flag, no level ending and no
    level-up pause: the level timer calls [nextLevel] directly, and the
    updater removes an item inside its [forEach], when the progress reaches
    1.0.  [start], the catch and miss outcomes, [spawnItem] (but for the
    [caught] field) and [moveBasket] have the text of the later engine; the
    fields that only the later engine has are never read or written here. *)
Module Legacy.

Definition clearTimers (s : State) : State :=
  let s := match levelTimer s with
           | Some h => set_levelTimer None (clearInterval (Some h) s)
           | None => s end in
  let s := match itemSpawnTimer s with
           | Some h => set_itemSpawnTimer None (clearInterval (Some h) s)
           | None => s end in
  match itemUpdateTimer s with
  | Some h => set_itemUpdateTimer None (clearInterval (Some h) s)
  | None => s
  end.

Definition stop (s : State) : State :=
  let s := set_isGameActive false s in
  let s := clearTimers s in
  if onGameEnd s then emit (GameEnd (score s) (level s)) s else s.

Definition gameOver (reason : string) (s : State) : State :=
  let s := stop s in
  emit (Alert reason (score s) (level s)) s.

Definition nextLevel (s : State) : State :=
  let s := set_level (level s + 1) s in
  let s := set_levelTimeRemaining levelTimeLimit s in
  let s := if onLevelChange s then emit (LevelChange (level s)) s else s in
  restartItemSpawner s.

Definition levelTimerTick (s : State) : State :=
  let s := set_levelTimeRemaining (levelTimeRemaining s - 1) s in
  if decide (levelTimeRemaining s <= 0) then nextLevel s else s.

Definition itemSpawnTick (d : Draws) (s : State) : State :=
  if isGameActive s then spawnItem d s else s.

Definition catchItem (item : Item) (s : State) : State :=
  if isBomb item then gameOver bombReason s
  else
    let s := set_score (score s + points item) s in
    let s := if onScoreChange s then emit (ScoreChange (score s)) s else s in
    showFeedback ("+" +:+ pretty (points item) +:+ "점!") (Some (zone item))
                 success s.

Definition missItem (s : State) : State :=
  let s := set_missCount (missCount s + 1) s in
  let s := if onMissChange s then emit (MissChange (missCount s)) s else s in
  if decide (missCount s = 1) then showFeedback "경고!" None warning s
  else if decide (missCount s >= maxMisses) then gameOver missReason s
  else s.

Definition handleItemReachedBottom (item : Item) (s : State) : State :=
  if decide (zone item = basketPosition s) then catchItem item s
  else if negb (isBomb item) then missItem s
  else s.

(** The callback of the [forEach], called with the item object [r] found
    at [index]. *)
Definition updateItem (index r : nat) (s : State) : State :=
  match heap s !! r with
  | None => s
  | Some item =>
    let item :=
      set_progress (fadd (progress item) (fdiv deltaTime (dropTime item)))
                   item in
    let s := set_heap (<[r := item]> (heap s)) s in
    if Qle_bool 1.0 (progress item) then
      let s := handleItemReachedBottom item s in
      set_items (delete index (items s)) s
    else s
  end.

(** [Array.prototype.forEach]: the length is read once, the indices are
    visited in order, and an index that is no longer in the array when its
    turn comes is passed over. *)
Fixpoint forEachFrom (len index : nat) (s : State) : State :=
  match len with
  | O => s
  | S len =>
    match items s !! index with
    | Some r => forEachFrom len (S index) (updateItem index r s)
    | None => forEachFrom len (S index) s
    end
  end.

Definition itemUpdateTick (s : State) : State :=
  if negb (isGameActive s) then s
  else forEachFrom (length (items s)) 0 s.

Definition intervalFires (h : nat) (d : Draws) (s : State) : State :=
  match intervals s !! h with
  | Some LevelTimerTick => levelTimerTick s
  | Some ItemSpawnTick => itemSpawnTick d s
  | Some ItemUpdateTick => itemUpdateTick s
  | Some LevelUpCountdownTick => s
  | None => s
  end.

Definition step (s : State) (e : Event) : State :=
  match e with
  | CallStart => start s
  | CallStop => stop s
  | CallMoveBasket pose => moveBasket pose s
  | CallSetCallback c registered => setCallback c registered s
  | IntervalFires h d => intervalFires h d s
  | TimeoutFires h => s
  end.

Definition run (es : list Event) : State := foldl step init es.

End Legacy.

(** * Vocabulary of the properties *)

(** ** Items *)

(** The item records that [spawnItem] can build: kind, points and hazard
    flag are copied from one entry of [itemTypes]. *)
Definition fromItemTypes (item : Item) : Prop :=
  ItemType.mk (type item) (points item) (isBomb item) ∈ itemTypes.

Definition pointsOf (k : ItemKind) : Z :=
  match k with bomb => 0 | apple => 100 | pear => 150 | orange => 200 end.

(** What one pass of the updater's [forEach] body does to an item object
    that is not yet caught, and to any item object. *)
Definition fall (item : Item) : Item :=
  let item :=
    set_progress (fadd (progress item) (fdiv deltaTime (dropTime item)))
                 item in
  if Qle_bool catchLine (progress item)
  then set_progress catchLine (set_caught true item)
  else item.

Definition tickItem (item : Item) : Item :=
  if caught item then item else fall item.

(** ** The curve in the words of the specification

    dropTime(L) = max(2.0 − 0.2×(L−1), 0.6), over the rationals. *)
Definition dropTime_spec (L : Z) : Q :=
  Qmax (2.0 - 0.2 * inject_Z (L - 1)) 0.6.

(** ** The numbers an item holds

    The drop times of the levels 1 to 8 (from level 8 on the drop time is the
    floor), and for a drop time the progress values of an item that is not
    yet caught: 0, and one addition per updater tick up to the catch line. *)
Definition dropTimes : list Q :=
  (λ L, getDropTime (set_level L init)) <$> [1; 2; 3; 4; 5; 6; 7; 8].

Fixpoint progressFrom (ticks : nat) (d p : Q) : list Q :=
  match ticks with
  | O => []
  | S ticks =>
    if Qle_bool catchLine p then []
    else p :: progressFrom ticks d (fadd p (fdiv deltaTime d))
  end.

Definition progressValues (d : Q) : list Q := progressFrom 128 d 0.

(** [n] passes of the updater over an item object, and the number of
    passes that take a new item of level [L] to the catch line. *)
Fixpoint ticks (n : nat) (item : Item) : Item :=
  match n with
  | O => item
  | S n => ticks n (tickItem item)
  end.

Definition ticksToCatchLine (L : Z) : nat :=
  if decide (L <= 1) then 103
  else if decide (L = 2) then 92
  else if decide (L = 3) then 82
  else if decide (L = 4) then 72
  else if decide (L = 5) then 62
  else if decide (L = 6) then 51
  else if decide (L = 7) then 41
  else 31.

Definition onCurve (item : Item) : Prop :=
  dropTime item ∈ dropTimes ∧
  (caught item = false → progress item ∈ progressValues (dropTime item)).

(** What is checked, by evaluation, of every progress value [p] of a drop
    time [d]: it is in [0, 0.85), the addition of one tick is above it, and
    the sum is at or past the catch line or the next progress value. *)
Definition stepOK (d : Q) (values : list Q) (p : Q) : bool :=
  let p' := fadd p (fdiv deltaTime d) in
  Qle_bool 0 p && negb (Qle_bool catchLine p) && negb (Qle_bool p' p)
  && (Qle_bool catchLine p' || bool_decide (p' ∈ values)).

Definition dropTimeOK (d : Q) : bool :=
  let values := progressValues d in
  Qle_bool minDropTime d && Qle_bool d baseDropTime
  && bool_decide (0%Q ∈ values) && forallb (stepOK d values) values.

(** ** The arithmetic of the engine in the Standard Library's IEEE 754

    [SpecFloat] is the specification that Rocq's primitive binary64 numbers
    are held to.  The computations of the engine are repeated in it, to
    compare [round64] with it on the numbers that occur. *)
Module IEEE.

Definition prec : Z := 53.
Definition emax : Z := 1024.

Definition ofZ (z : Z) : spec_float := binary_normalize prec emax z 0 false.

(** The literal [num / 10^k]: numerator and denominator are binary64
    values, and the quotient is rounded once. *)
Definition literal (num den : Z) : spec_float :=
  SFdiv prec emax (ofZ num) (ofZ den).

Definition toQ (x : spec_float) : Q :=
  match x with
  | S754_finite sign m e =>
    Qred ((if sign then -1 else 1) * inject_Z (Z.pos m) * pow2 e)
  | _ => 0%Q
  end.

Definition max (x y : spec_float) : spec_float :=
  if SFltb x y then y else x.

Definition getDropTime (L : Z) : spec_float :=
  max (SFsub prec emax (literal 20 10)
         (SFmul prec emax (ofZ (L - 1)) (literal 2 10)))
      (literal 6 10).

Definition deltaTime : spec_float :=
  SFdiv prec emax (SFdiv prec emax (ofZ 1000) (ofZ 60)) (ofZ 1000).

(** The progress of an item after [ticks] additions, without the catch,
    and the progress values below the catch line. *)
Fixpoint progressAfter (ticks : nat) (d p : spec_float) : spec_float :=
  match ticks with
  | O => p
  | S ticks =>
    progressAfter ticks d (SFadd prec emax p (SFdiv prec emax deltaTime d))
  end.

Fixpoint progressFrom (ticks : nat) (d p : spec_float) : list spec_float :=
  match ticks with
  | O => []
  | S ticks =>
    if SFleb (literal 85 100) p then []
    else p :: progressFrom ticks d
                (SFadd prec emax p (SFdiv prec emax deltaTime d))
  end.

Definition getItemSpawnInterval (u : spec_float) (L : Z) : spec_float :=
  let dropTime := getDropTime L in
  let minInterval := SFmul prec emax dropTime (literal 6 10) in
  let maxInterval := SFmul prec emax dropTime (literal 8 10) in
  SFmul prec emax
    (SFadd prec emax minInterval
       (SFmul prec emax u (SFsub prec emax maxInterval minInterval)))
    (ofZ 1000).

End IEEE.

(** The same, with the operations of the engine. *)
Fixpoint progressAfter (ticks : nat) (d p : Q) : Q :=
  match ticks with
  | O => p
  | S ticks => progressAfter ticks d (fadd p (fdiv deltaTime d))
  end.

(** The largest binary64 value below 1. *)
Definition belowOne : Q := (1 - pow2 (-53))%Q.

(** ** Views of the state

    [world] collects the fields that neither [stop] nor the catch and miss
    outcomes write: the level state, the item collection, the item store
    and the pending removals.  [rules] is the level state as the updater
    sees it, [act] the activity flag with the miss count. *)
Definition world (s : State) :=
  (level s, levelTimeRemaining s, items s, heap s, timeouts s, nextTimer s,
   isLevelEnding s, isLevelUpPause s).

Definition rules (s : State) :=
  (level s, levelTimeRemaining s, items s, isLevelEnding s, isLevelUpPause s).

Definition act (s : State) := (isGameActive s, missCount s).

(** A step either keeps the level, or raises it by one with a fresh level
    time and an empty collection. *)
Definition levelStep (s s' : State) : Prop :=
  level s' = level s ∨
  (level s' = level s + 1 ∧ levelTimeRemaining s' = levelTimeLimit ∧
   items s' = []).

(** ** Invariants *)

Definition itemOK (item : Item) : Prop :=
  fromItemTypes item ∧
  (0 < dropTime item)%Q ∧
  (0 <= progress item)%Q ∧
  (caught item = false → (progress item < catchLine)%Q) ∧
  (caught item = true → progress item = catchLine).

(** The collection holds distinct references to allocated item objects,
    and every item object is one that [spawnItem] built and the updater
    advanced. *)
Definition Inv (s : State) : Prop :=
  NoDup (items s) ∧
  (∀ r, r ∈ items s → (r < length (heap s))%nat) ∧
  (∀ r item, heap s !! r = Some item → itemOK item).

(** As long as the engine is active fewer than [maxMisses] misses have been
    counted. *)
Definition activeBound (s : State) : Prop :=
  isGameActive s = true → 0 <= missCount s < maxMisses.

(** ** Notifications *)

Definition isGameEnd (n : Notification) : bool :=
  match n with GameEnd _ _ => true | _ => false end.

Definition isAlert (n : Notification) : bool :=
  match n with Alert _ _ _ => true | _ => false end.

(** ** Runs

    After [start] on a fresh engine the level timer is interval 1, the
    spawner interval 2 and the updater interval 3.  At level 1 an item
    reaches the catch line on its 103rd updater tick: 102 additions of
    1/120 give 0.8499999999999994. *)
Definition noDraw : Draws := mkDraws pick0 false pick0.
Definition levelTick : Event := IntervalFires 1 noDraw.
Definition updaterTick : Event := IntervalFires 3 noDraw.
Definition spawn (z : Pick3) (isBombDraw : bool) (fruit : Pick3) : Event :=
  IntervalFires 2 (mkDraws z isBombDraw fruit).

(** An apple is spawned in the basket's lane one second before the level
    time runs out. *)
Definition appleBeforeLevelEnd : list Event :=
  [CallStart] ++ replicate 19 levelTick ++ [spawn pick1 false pick0].

(** A bomb lands in the basket's lane. *)
Definition hazardRun : list Event :=
  setupGameCallbacks ++ [CallStart; spawn pick1 true pick0]
  ++ replicate 103 updaterTick.

(** Two apples, 80 updater ticks apart, land in the left lane while the
    basket stays in the centre. *)
Definition missLimitRun : list Event :=
  setupGameCallbacks ++ [CallStart; spawn pick0 false pick0]
  ++ replicate 80 updaterTick ++ [spawn pick0 false pick0]
  ++ replicate 103 updaterTick.

(** Three apples spawned between the same two updater ticks, all in the
    left lane, the basket in the centre. *)
Definition threeMissesRun : list Event :=
  setupGameCallbacks
  ++ [CallStart; spawn pick0 false pick0; spawn pick0 false pick0;
      spawn pick0 false pick0]
  ++ replicate 103 updaterTick.

(** [start] called twice: the first level timer, spawner and updater
    (intervals 1, 2, 3) stay live next to the second ones (4, 5, 6), and the
    two updaters tick in turn.  One apple is missed early; later each
    spawner drops a fruit in the left lane between the same two updater
    ticks. *)
Definition twoSpawnersRun : list Event :=
  setupGameCallbacks
  ++ [CallStart; CallStart; IntervalFires 2 (mkDraws pick0 false pick0)]
  ++ concat (replicate 51 [IntervalFires 3 noDraw; IntervalFires 6 noDraw])
  ++ [IntervalFires 3 noDraw; TimeoutFires 7;
      IntervalFires 2 (mkDraws pick0 false pick0);
      IntervalFires 5 (mkDraws pick0 false pick1)]
  ++ concat (replicate 51 [IntervalFires 6 noDraw; IntervalFires 3 noDraw])
  ++ [IntervalFires 6 noDraw].

(** A bomb is spawned in the basket's lane one second before the level time
    runs out, and is caught during the level ending. *)
Definition bombInLevelEnding : list Event :=
  setupGameCallbacks ++ [CallStart] ++ replicate 19 levelTick
  ++ [spawn pick1 true pick0; levelTick] ++ replicate 103 updaterTick.

(** With two spawners (a repeated [start]), a bomb and an apple fall side by
    side into the basket's lane. *)
Definition bombThenApple : list Event :=
  setupGameCallbacks
  ++ [CallStart; CallStart;
      IntervalFires 2 (mkDraws pick1 true pick0);
      IntervalFires 5 (mkDraws pick1 false pick0)]
  ++ concat (replicate 51 [IntervalFires 3 noDraw; IntervalFires 6 noDraw])
  ++ [IntervalFires 3 noDraw].

(** An apple is caught during the level ending and [stop] is called within
    the grace delay. *)
Definition stopDuringGrace : list Event :=
  setupGameCallbacks ++ [CallStart] ++ replicate 19 levelTick
  ++ [spawn pick1 false pick0; levelTick] ++ replicate 103 updaterTick
  ++ [CallStop].

(** ** Timer handles and pending removals *)

(** The handles the engine holds in its four timer fields. *)
Definition held (s : State) (h : nat) : Prop :=
  levelTimer s = Some h ∨ itemSpawnTimer s = Some h ∨
  itemUpdateTimer s = Some h ∨ levelUpCountdownTimer s = Some h.

(** Every live interval, every pending removal and every handle the engine
    holds was handed out already: the next handle is new. *)
Definition handlesFresh (s : State) : Prop :=
  (∀ h k, intervals s !! h = Some k → (h < nextTimer s)%nat) ∧
  (∀ h r, timeouts s !! h = Some r → (h < nextTimer s)%nat) ∧
  (∀ h, held s h → (h < nextTimer s)%nat).

(** [s'] has the timers of [s], fewer of them, or new ones under handles
    handed out in between. *)
Definition timersGrow (s s' : State) : Prop :=
  (nextTimer s ≤ nextTimer s')%nat ∧
  (∀ h k, intervals s' !! h = Some k →
     intervals s !! h = Some k ∨ (nextTimer s ≤ h < nextTimer s')%nat) ∧
  (∀ h r, timeouts s' !! h = Some r →
     timeouts s !! h = Some r ∨ (nextTimer s ≤ h < nextTimer s')%nat) ∧
  (∀ h, held s' h → held s h ∨ (nextTimer s ≤ h < nextTimer s')%nat).

Definition timerView (s : State) :=
  (nextTimer s, intervals s, timeouts s,
   (levelTimer s, itemSpawnTimer s, itemUpdateTimer s, levelUpCountdownTimer s)).

(** A caught item of the collection has a removal pending, and a pending
    removal is for a caught item object. *)
Definition removalsPending (s : State) : Prop :=
  (∀ r item, r ∈ items s → heap s !! r = Some item → caught item = true →
     ∃ h, timeouts s !! h = Some r) ∧
  (∀ h r, timeouts s !! h = Some r →
     ∃ item, heap s !! r = Some item ∧ caught item = true).

(** The counters of a run. *)
Definition countersOK (s : State) : Prop :=
  0 <= score s ∧ 1 <= level s ∧ 0 <= missCount s ∧
  levelTimeRemaining s <= levelTimeLimit ∧ levelUpCountdown s <= 3.

(** Between two states of one run the score, the miss count and the level
    do not decrease, and the two countdowns stay under their start values if
    they were. *)
Definition countersStep (s s' : State) : Prop :=
  score s <= score s' ∧ missCount s <= missCount s' ∧ level s <= level s' ∧
  (levelTimeRemaining s <= levelTimeLimit →
   levelTimeRemaining s' <= levelTimeLimit) ∧
  (levelUpCountdown s <= 3 → levelUpCountdown s' <= 3).

Definition counters (s : State) :=
  (score s, missCount s, level s, levelTimeRemaining s, levelUpCountdown s).

Definition store (s : State) := (items s, heap s, timeouts s).

Definition heapOK (s : State) : Prop :=
  ∀ r item, heap s !! r = Some item → itemOK item.

(** ** The earlier updater *)

(** What the earlier updater's callback does to an item object, whether
    the object then meets the bottom, and a run of the earlier engine in
    which a second apple is spawned 80 ticks after a first one, both in the
    basket's lane. *)
Definition legacyAdvance (item : Item) : Item :=
  set_progress (fadd (progress item) (fdiv deltaTime (dropTime item))) item.

Definition reachesBottom (s : State) (r : nat) : bool :=
  match heap s !! r with
  | Some item => Qle_bool 1.0 (progress (legacyAdvance item))
  | None => false
  end.

Definition legacyTwoApples (ticksAfterSecond : nat) : list Event :=
  setupGameCallbacks ++ [CallStart; spawn pick1 false pick0]
  ++ replicate 80 updaterTick ++ [spawn pick1 false pick0]
  ++ replicate ticksAfterSecond updaterTick.

(** * Properties *)

(** ** Rounding

    [binade] is the exponent of its argument ([binade_le], [binade_lt]), so
    [ulp] is the spacing of the binary64 values around it; [round64] keeps
    the sign, and takes a positive number to a multiple of that spacing, of
    at most 53 bits, at most half a spacing away ([round64_on_grid]), which
    is at most 2^(-53) of the number in the normal range. *)

Lemma pow2_pos e : (0 < pow2 e)%Q.
Proof. apply Qpower_0_lt. reflexivity. Qed.

Lemma pow2_add a b : (pow2 (a + b) == pow2 a * pow2 b)%Q.
Proof. apply Qpower_plus. discriminate. Qed.

Lemma pow2_Z e : 0 <= e → (pow2 e == inject_Z (2 ^ e))%Q.
Proof. intros He. unfold pow2. rewrite Zpower_Qpower by exact He. reflexivity. Qed.

Lemma binade_le x : (0 < x)%Q → (pow2 (binade x) <= x)%Q.
Proof.
  intros Hx. unfold binade.
  set (n := Qnum x). set (d := Z.pos (Qden x)).
  destruct (Qle_bool (pow2 (Z.log2 n - Z.log2 d)) x) eqn:E.
  - apply Qle_bool_iff. exact E.
  - assert (Hn : 0 < n) by (destruct x as [xn xd]; unfold Qlt in Hx; cbn in *; lia).
    assert (Hd : 0 < d) by (unfold d; lia).
    pose proof (Z.log2_nonneg n) as Hln. pose proof (Z.log2_nonneg d) as Hld.
    destruct (Z.log2_spec n Hn) as [Hn1 _].
    destruct (Z.log2_spec d Hd) as [_ Hd2].
    assert (Hx' : (x == inject_Z n / inject_Z d)%Q).
    { destruct x as [xn xd]. unfold n, d. cbn [Qnum Qden]. apply Qmake_Qdiv. }
    rewrite Hx'.
    assert (Hdq : (0 < inject_Z d)%Q)
      by (change 0%Q with (inject_Z 0); rewrite <- Zlt_Qlt; exact Hd).
    apply Qle_shift_div_l; [exact Hdq|].
    replace (Z.log2 n - Z.log2 d - 1) with (Z.log2 n + - (Z.log2 d + 1)) by lia.
    rewrite pow2_add.
    assert (H1 : (pow2 (Z.log2 n) <= inject_Z n)%Q).
    { rewrite pow2_Z by exact Hln. rewrite <- Zle_Qle. exact Hn1. }
    assert (H2 : (inject_Z d <= pow2 (Z.log2 d + 1))%Q).
    { rewrite pow2_Z by lia. rewrite <- Zle_Qle.
      replace (Z.log2 d + 1) with (Z.succ (Z.log2 d)) by lia. lia. }
    assert (H3 : (pow2 (- (Z.log2 d + 1)) * pow2 (Z.log2 d + 1) == 1)%Q).
    { rewrite <- pow2_add. replace (- (Z.log2 d + 1) + (Z.log2 d + 1)) with 0 by lia.
      reflexivity. }
    pose proof (pow2_pos (Z.log2 n)) as P1.
    pose proof (pow2_pos (- (Z.log2 d + 1))) as P2.
    pose proof (pow2_pos (Z.log2 d + 1)) as P3.
    set (a := pow2 (Z.log2 n)) in *. set (b := pow2 (- (Z.log2 d + 1))) in *.
    set (c := pow2 (Z.log2 d + 1)) in *.
    apply Qle_trans with (a * b * c)%Q.
    + apply Qmult_le_l; [|exact H2]. 
      rewrite <- (Qmult_0_l b). apply Qmult_lt_compat_r; assumption.
    + rewrite <- Qmult_assoc, H3, Qmult_1_r. exact H1.
Qed.

Lemma roundHalfEven_bounds m :
  (m - (1 # 2) <= inject_Z (roundHalfEven m) <= m + (1 # 2))%Q.
Proof.
  unfold roundHalfEven.
  pose proof (Qfloor_le m) as Hl. pose proof (Qlt_floor m) as Hu.
  rewrite inject_Z_plus in Hu. change (inject_Z 1) with 1%Q in Hu.
  set (f := Qfloor m) in *.
  destruct (m - inject_Z f ?= 1 # 2)%Q eqn:E.
  - apply Qeq_alt in E.
    destruct (Z.even f); rewrite ?inject_Z_plus; change (inject_Z 1) with 1%Q; lra.
  - apply Qlt_alt in E. lra.
  - apply Qgt_alt in E. rewrite inject_Z_plus. change (inject_Z 1) with 1%Q. lra.
Qed.

Lemma roundHalfEven_nonneg m : (0 <= m)%Q → 0 <= roundHalfEven m.
Proof.
  intros Hm. unfold roundHalfEven.
  assert (0 <= Qfloor m).
  { change 0 with (Qfloor 0). apply Qfloor_resp_le. exact Hm. }
  destruct (m - inject_Z (Qfloor m) ?= 1 # 2)%Q; [destruct (Z.even _)|..]; lia.
Qed.

Lemma ulp_pos x : (0 < ulp x)%Q.
Proof. apply pow2_pos. Qed.

Lemma roundPos_error x :
  (x - ulp x * (1 # 2) <= roundPos x <= x + ulp x * (1 # 2))%Q.
Proof.
  unfold roundPos. pose proof (ulp_pos x) as Hu.
  pose proof (roundHalfEven_bounds (x / ulp x)) as [H1 H2].
  set (k := inject_Z (roundHalfEven (x / ulp x))) in *.
  set (u := ulp x) in *.
  assert (E1 : ((x / u - (1 # 2)) * u == x - u * (1 # 2))%Q) by (field; lra).
  assert (E2 : ((x / u + (1 # 2)) * u == x + u * (1 # 2))%Q) by (field; lra).
  rewrite <- E1, <- E2.
  split; (apply Qmult_le_compat_r; [assumption|lra]).
Qed.

Lemma ulp_le x : (0 < x)%Q → (ulp x <= x * pow2 (-52) + pow2 (-1074))%Q.
Proof.
  intros Hx. unfold ulp.
  pose proof (binade_le x Hx) as Hb.
  pose proof (pow2_pos (-52)) as P1. pose proof (pow2_pos (-1074)) as P2.
  destruct (Z.max_spec (binade x) (-1022)) as [[_ ->]|[_ ->]].
  - change (-1022 - 52) with (-1074).
    assert (0 <= x * pow2 (-52))%Q by (apply Qmult_le_0_compat; lra). lra.
  - replace (binade x - 52) with (binade x + -52) by lia. rewrite pow2_add.
    assert (pow2 (binade x) * pow2 (-52) <= x * pow2 (-52))%Q
      by (apply Qmult_le_compat_r; lra).
    lra.
Qed.

Lemma round64_nonneg x : (0 <= x)%Q → (0 <= round64 x)%Q.
Proof.
  intros Hx. unfold round64.
  destruct (x ?= 0)%Q eqn:E.
  - lra.
  - apply Qlt_alt in E. lra.
  - rewrite Qred_correct. unfold roundPos.
    apply Qmult_le_0_compat.
    + change 0%Q with (inject_Z 0). rewrite <- Zle_Qle. apply roundHalfEven_nonneg.
      apply Qle_shift_div_l. { apply ulp_pos. } lra.
    + pose proof (ulp_pos x). lra.
Qed.

Lemma round64_nonpos x : (x <= 0)%Q → (round64 x <= 0)%Q.
Proof.
  intros Hx. unfold round64.
  destruct (x ?= 0)%Q eqn:E.
  - lra.
  - rewrite Qred_correct.
    apply Qlt_alt in E.
    assert (0 <= roundPos (- x))%Q; [|lra].
    unfold roundPos. apply Qmult_le_0_compat.
    + change 0%Q with (inject_Z 0). rewrite <- Zle_Qle. apply roundHalfEven_nonneg.
      apply Qle_shift_div_l. { apply ulp_pos. } lra.
    + pose proof (ulp_pos (- x)). lra.
  - apply Qgt_alt in E. lra.
Qed.

Lemma round64_error x :
  (0 < x)%Q →
  (x - (x * pow2 (-52) + pow2 (-1074)) * (1 # 2) <= round64 x
   <= x + (x * pow2 (-52) + pow2 (-1074)) * (1 # 2))%Q.
Proof.
  intros Hx. unfold round64.
  destruct (x ?= 0)%Q eqn:E.
  - apply Qeq_alt in E. lra.
  - apply Qlt_alt in E. lra.
  - rewrite Qred_correct.
    pose proof (roundPos_error x) as [H1 H2]. pose proof (ulp_le x Hx) as H3.
    set (p := (x * pow2 (-52) + pow2 (-1074))%Q) in *. lra.
Qed.

Lemma pow2_mono a b : a <= b → (pow2 a <= pow2 b)%Q.
Proof.
  intros Hab. replace b with (a + (b - a)) by lia. rewrite pow2_add.
  pose proof (pow2_pos a) as Pa.
  assert (1 <= pow2 (b - a))%Q as H1.
  { rewrite pow2_Z by lia. change 1%Q with (inject_Z 1). rewrite <- Zle_Qle.
    assert (0 < 2 ^ (b - a)) by (apply Z.pow_pos_nonneg; lia). lia. }
  rewrite <- (Qmult_1_r (pow2 a)) at 1. apply Qmult_le_l; assumption.
Qed.

Lemma binade_lt x : (0 < x)%Q → (x < pow2 (binade x + 1))%Q.
Proof.
  intros Hx. unfold binade.
  set (n := Qnum x). set (d := Z.pos (Qden x)).
  destruct (Qle_bool (pow2 (Z.log2 n - Z.log2 d)) x) eqn:E.
  - assert (Hn : 0 < n) by (destruct x as [xn xd]; unfold Qlt in Hx; cbn in *; lia).
    assert (Hd : 0 < d) by (unfold d; lia).
    pose proof (Z.log2_nonneg n) as Hln. pose proof (Z.log2_nonneg d) as Hld.
    destruct (Z.log2_spec n Hn) as [_ Hn2].
    destruct (Z.log2_spec d Hd) as [Hd1 _].
    assert (Hx' : (x == inject_Z n / inject_Z d)%Q).
    { destruct x as [xn xd]. unfold n, d. cbn [Qnum Qden]. apply Qmake_Qdiv. }
    rewrite Hx'.
    assert (Hdq : (0 < inject_Z d)%Q)
      by (change 0%Q with (inject_Z 0); rewrite <- Zlt_Qlt; exact Hd).
    apply Qlt_shift_div_r; [exact Hdq|].
    replace (Z.log2 n - Z.log2 d + 1) with ((Z.log2 n + 1) + - Z.log2 d) by lia.
    rewrite pow2_add.
    assert (H1 : (inject_Z n < pow2 (Z.log2 n + 1))%Q).
    { rewrite pow2_Z by lia. rewrite <- Zlt_Qlt.
      replace (Z.log2 n + 1) with (Z.succ (Z.log2 n)) by lia. exact Hn2. }
    assert (H2 : (pow2 (Z.log2 d) <= inject_Z d)%Q).
    { rewrite pow2_Z by lia. rewrite <- Zle_Qle. exact Hd1. }
    assert (H3 : (pow2 (- Z.log2 d) * pow2 (Z.log2 d) == 1)%Q).
    { rewrite <- pow2_add. replace (- Z.log2 d + Z.log2 d) with 0 by lia.
      reflexivity. }
    pose proof (pow2_pos (Z.log2 n + 1)) as P1.
    pose proof (pow2_pos (- Z.log2 d)) as P2.
    set (a := pow2 (Z.log2 n + 1)) in *. set (b := pow2 (- Z.log2 d)) in *.
    set (c := pow2 (Z.log2 d)) in *.
    apply Qlt_le_trans with (a * b * c)%Q.
    + rewrite <- Qmult_assoc, H3, Qmult_1_r. exact H1.
    + apply Qmult_le_l; [|exact H2].
      rewrite <- (Qmult_0_l b). apply Qmult_lt_compat_r; assumption.
  - replace (Z.log2 n - Z.log2 d - 1 + 1) with (Z.log2 n - Z.log2 d) by lia.
    apply Qnot_le_lt. intros Hle. apply Qle_bool_iff in Hle.
    rewrite Hle in E. discriminate.
Qed.

(** The result is a multiple of the spacing of the binary64 values around
    [x], with a multiplier of at most 53 bits, and no multiple is nearer. *)
Lemma round64_on_grid x :
  (0 < x)%Q →
  ∃ k : Z, 0 <= k <= 2 ^ 53 ∧ (round64 x == inject_Z k * ulp x)%Q ∧
           (x - ulp x * (1 # 2) <= round64 x)%Q ∧
           (round64 x <= x + ulp x * (1 # 2))%Q.
Proof.
  intros Hx. exists (roundHalfEven (x / ulp x)).
  pose proof (ulp_pos x) as Hu.
  assert (Hr : (round64 x == roundPos x)%Q).
  { unfold round64. destruct (x ?= 0)%Q eqn:E.
    - apply Qeq_alt in E. lra.
    - apply Qlt_alt in E. lra.
    - apply Qred_correct. }
  split; [|split; [exact Hr|]].
  - split.
    + apply roundHalfEven_nonneg. apply Qle_shift_div_l; [exact Hu|lra].
    + assert (Hm : (x / ulp x < inject_Z (2 ^ 53))%Q).
      { apply Qlt_shift_div_r; [exact Hu|].
        eapply Qlt_le_trans; [apply binade_lt; exact Hx|].
        unfold ulp.
        assert (He : (inject_Z (2 ^ 53) * pow2 (Z.max (binade x) (-1022) - 52)
                      == pow2 (53 + (Z.max (binade x) (-1022) - 52)))%Q).
        { rewrite pow2_add, (pow2_Z 53) by lia. reflexivity. }
        rewrite He. apply pow2_mono. lia. }
      unfold roundHalfEven.
      assert (Hf : Qfloor (x / ulp x) < 2 ^ 53).
      { rewrite Zlt_Qlt. eapply Qle_lt_trans; [apply Qfloor_le | exact Hm]. }
      destruct (x / ulp x - inject_Z (Qfloor (x / ulp x)) ?= 1 # 2)%Q;
        [destruct (Z.even _)|..]; lia.
  - rewrite Hr. apply roundPos_error.
Qed.

Lemma round64_lower x : (1 <= x)%Q → ((999 # 1000) * x <= round64 x)%Q.
Proof.
  intros Hx. destruct (round64_error x) as [H _]; [lra|].
  assert (H1 : (pow2 (-1074) <= 1 # 2000)%Q) by (vm_compute; discriminate).
  assert (H2 : (pow2 (-52) <= 1 # 2000)%Q) by (vm_compute; discriminate).
  assert (H3 : (x * pow2 (-52) <= x * (1 # 2000))%Q) by (apply Qmult_le_l; lra).
  generalize dependent (pow2 (-1074)). generalize dependent (pow2 (-52)).
  intros. lra.
Qed.

Lemma round64_upper x :
  (0 < x)%Q → (round64 x <= (1001 # 1000) * x + (1 # 1000))%Q.
Proof.
  intros Hx. destruct (round64_error x) as [_ H]; [lra|].
  assert (H1 : (pow2 (-1074) <= 1 # 2000)%Q) by (vm_compute; discriminate).
  assert (H2 : (pow2 (-52) <= 1 # 2000)%Q) by (vm_compute; discriminate).
  assert (H3 : (x * pow2 (-52) <= x * (1 # 2000))%Q) by (apply Qmult_le_l; lra).
  generalize dependent (pow2 (-1074)). generalize dependent (pow2 (-52)).
  intros. lra.
Qed.

Lemma Qmax_r_eq (a m : Q) : (a < m)%Q → Qmax a m = m.
Proof.
  intros H. unfold Qmax, GenericMinMax.gmax.
  rewrite (proj1 (Qlt_alt a m) H). reflexivity.
Qed.

(** [round64] and the Standard Library's IEEE 754 agree on the arithmetic
    of the engine: on the drop times of the levels 1 to 12, on the time
    step and the catch line, on every progress value below the catch line
    at every level and on the sum that crosses it, on the progress of the
    earlier engine around its 121st tick, and on the spawn intervals of the
    levels 1 and 2 for the largest random number. *)
Example round64_agrees_with_IEEE :
  (λ L, getDropTime (set_level L init)) <$> [1; 2; 3; 4; 5; 6; 7; 8; 9; 10; 11; 12]
    = (λ L, IEEE.toQ (IEEE.getDropTime L)) <$> [1; 2; 3; 4; 5; 6; 7; 8; 9; 10; 11; 12] ∧
  deltaTime = IEEE.toQ IEEE.deltaTime ∧
  catchLine = IEEE.toQ (IEEE.literal 85 100) ∧
  (λ L, progressValues (getDropTime (set_level L init))) <$> [1; 2; 3; 4; 5; 6; 7; 8]
    = (λ L, IEEE.toQ <$> IEEE.progressFrom 128 (IEEE.getDropTime L) (IEEE.ofZ 0))
        <$> [1; 2; 3; 4; 5; 6; 7; 8] ∧
  (λ L, progressAfter (ticksToCatchLine L) (getDropTime (set_level L init)) 0)
      <$> [1; 2; 3; 4; 5; 6; 7; 8]
    = (λ L, IEEE.toQ (IEEE.progressAfter (ticksToCatchLine L)
                        (IEEE.getDropTime L) (IEEE.ofZ 0)))
        <$> [1; 2; 3; 4; 5; 6; 7; 8] ∧
  (λ n, progressAfter n (getDropTime (set_level 1 init)) 0) <$> [120; 121]%nat
    = (λ n, IEEE.toQ (IEEE.progressAfter n (IEEE.getDropTime 1) (IEEE.ofZ 0)))
        <$> [120; 121]%nat ∧
  (λ L, getItemSpawnInterval belowOne (set_level L init)) <$> [1; 2]
    = (λ L, IEEE.toQ (IEEE.getItemSpawnInterval
                        (S754_finite false 9007199254740991 (-53)) L))
        <$> [1; 2].
Proof. vm_compute. repeat split; reflexivity. Qed.

(** ** Frame facts

    Which fields each method leaves alone.  [stop] (and so [gameOver])
    touches the activity flag, the four handles, the live intervals and the
    output only. *)

Lemma stop_fields s :
  let s' := stop s in
  isGameActive s' = false ∧ score s' = score s ∧ level s' = level s ∧
  missCount s' = missCount s ∧ basketPosition s' = basketPosition s ∧
  items s' = items s ∧ heap s' = heap s ∧ timeouts s' = timeouts s ∧
  levelTimeRemaining s' = levelTimeRemaining s ∧
  isLevelEnding s' = isLevelEnding s ∧ isLevelUpPause s' = isLevelUpPause s ∧
  nextTimer s' = nextTimer s ∧
  levelTimer s' = None ∧ itemSpawnTimer s' = None ∧
  itemUpdateTimer s' = None ∧ levelUpCountdownTimer s' = None ∧
  out s' = out s ++ (if onGameEnd s then [GameEnd (score s) (level s)] else []).
Proof.
  destruct s as [? ? ? ? ? ? [?|] ? ? ? [?|] ? [?|] [?|] ? ? ? [|] ? ? ? ? ? ?];
    cbn; rewrite ?app_nil_r; repeat split; done.
Qed.

Lemma gameOver_fields reason s :
  let s' := gameOver reason s in
  isGameActive s' = false ∧ score s' = score s ∧ level s' = level s ∧
  missCount s' = missCount s ∧ basketPosition s' = basketPosition s ∧
  items s' = items s ∧ heap s' = heap s ∧ timeouts s' = timeouts s ∧
  levelTimeRemaining s' = levelTimeRemaining s ∧
  isLevelEnding s' = isLevelEnding s ∧ isLevelUpPause s' = isLevelUpPause s ∧
  nextTimer s' = nextTimer s ∧
  levelTimer s' = None ∧ itemSpawnTimer s' = None ∧
  itemUpdateTimer s' = None ∧ levelUpCountdownTimer s' = None ∧
  out s' = out s ++ (if onGameEnd s then [GameEnd (score s) (level s)] else [])
                 ++ [Alert reason (score s) (level s)].
Proof.
  pose proof (stop_fields s) as H. cbn zeta in *. destruct_and!.
  unfold gameOver, emit; cbn.
  repeat split; try done.
  rewrite app_assoc. congruence.
Qed.

(** The intervals that survive [stop] are those whose handle the engine no
    longer holds. *)
Lemma stop_clears_held_intervals s h :
  (levelTimer s = Some h ∨ itemSpawnTimer s = Some h ∨
   itemUpdateTimer s = Some h ∨ levelUpCountdownTimer s = Some h) →
  intervals (stop s) !! h = None.
Proof.
  destruct s as [? ? ? ? ? ? [?|] ? ? ? [?|] ? [?|] [?|] ? ? ? [|] ? ? ? ? ? ?];
    cbn; intros H; destruct_or!; simplify_eq;
    rewrite ?lookup_delete; repeat case_decide; congruence.
Qed.

(** ** [stop] is not idempotent on the output

    C10.  [stop] does not look at [isGameActive]: with a game-end callback
    registered it clears the activity flag and calls the callback with the
    current score and level, whether or not the engine was running; a second
    [stop] reports a second time. *)
Theorem stop_always_notifies (s : State) :
  onGameEnd s = true →
  isGameActive (stop s) = false ∧
  out (stop s) = out s ++ [GameEnd (score s) (level s)] ∧
  out (stop (stop s)) =
    out s ++ [GameEnd (score s) (level s); GameEnd (score s) (level s)].
Proof.
  intros Hcb.
  pose proof (stop_fields s) as H. pose proof (stop_fields (stop s)) as H'.
  cbn zeta in *. destruct_and!.
  assert (onGameEnd (stop s) = true) as Hcb'.
  { destruct s as [? ? ? ? ? ? [?|] ? ? ? [?|] ? [?|] [?|] ? ? ? [|] ? ? ? ? ? ?];
      cbn in *; done. }
  rewrite Hcb in *. rewrite Hcb' in *.
  repeat split; try done.
  replace (out (stop (stop s))) with (out (stop s) ++ [GameEnd (score (stop s)) (level (stop s))]) by done.
  replace (out (stop s)) with (out s ++ [GameEnd (score s) (level s)]) by done.
  rewrite <- app_assoc. cbn. congruence.
Qed.

(** [stop] before any [start], twice, on an engine that only has the
    game-end callback registered. *)
Lemma stop_always_notifies_witness :
  onGameEnd (run [CallSetCallback GameEndCallback true]) = true ∧
  isGameActive (run [CallSetCallback GameEndCallback true; CallStop]) = false ∧
  out (run [CallSetCallback GameEndCallback true; CallStop; CallStop]) =
    [GameEnd 0 1; GameEnd 0 1].
Proof.
  split; [reflexivity|].
  destruct (stop_always_notifies (run [CallSetCallback GameEndCallback true]))
    as (Ha & _ & Hd); [reflexivity|].
  split; [exact Ha | exact Hd].
Defined.

(** The page's own [stop] (main.js) guards the call, so the page never
    produces the duplicate. *)
Lemma page_stop_inactive s : isGameActive s = false → page_stop s = s.
Proof. unfold page_stop. by intros ->. Qed.

(** ** Outcomes at the catch line *)

Lemma fromItemTypes_inv item :
  fromItemTypes item →
  points item = pointsOf (type item) ∧
  isBomb item = bool_decide (type item = bomb).
Proof.
  unfold fromItemTypes, itemTypes. rewrite !elem_of_cons, elem_of_nil.
  intros H; destruct_or!; try done; injection H as -> -> ->; done.
Qed.

Lemma catchItem_fruit item s :
  isBomb item = false →
  let s' := catchItem item s in
  score s' = score s + points item ∧ missCount s' = missCount s ∧
  isGameActive s' = isGameActive s ∧ level s' = level s ∧
  items s' = items s ∧ heap s' = heap s ∧
  out s' = out s ++ (if onScoreChange s
                     then [ScoreChange (score s + points item)] else [])
                 ++ [Feedback ("+" +:+ pretty (points item) +:+ "점!")
                              (Some (zone item)) success].
Proof.
  intros Hb. unfold catchItem, showFeedback, emit. rewrite Hb.
  destruct (onScoreChange s) eqn:E; cbn; rewrite ?E; cbn;
    rewrite <- ?app_assoc; done.
Qed.

Lemma missItem_fields s :
  let s' := missItem s in
  missCount s' = missCount s + 1 ∧ score s' = score s ∧ level s' = level s ∧
  items s' = items s ∧ heap s' = heap s ∧
  isGameActive s' =
    (if decide (missCount s + 1 = 1) then isGameActive s
     else if decide (missCount s + 1 >= maxMisses) then false
     else isGameActive s).
Proof.
  unfold missItem, showFeedback.
  set (s1 := set_missCount _ s).
  set (s2 := if onMissChange s1 then _ else _).
  assert (missCount s2 = missCount s + 1 ∧ score s2 = score s ∧
          level s2 = level s ∧ items s2 = items s ∧ heap s2 = heap s ∧
          isGameActive s2 = isGameActive s) as (Hm & Hs & Hl & Hi & Hh & Ha).
  { subst s2 s1. destruct (onMissChange _); cbn; done. }
  rewrite Hm.
  destruct (decide (missCount s + 1 = 1)); [cbn; done|].
  destruct (decide (missCount s + 1 >= maxMisses)); [|done].
  pose proof (gameOver_fields missReason s2) as G. cbn zeta in G.
  destruct_and!. repeat split; congruence.
Qed.

(** C6.  A bomb evaluated at the catch line: in the basket's zone the game
    is over at once, whatever the miss count, with score and miss count as
    they were, all four interval handles cleared and the hazard reason
    alerted; in any other zone the evaluation changes nothing at all. *)
Theorem bomb_at_catch_line (item : Item) (s : State) :
  isBomb item = true →
  let s' := handleItemReachedBasket item s in
  (zone item = basketPosition s →
     isGameActive s' = false ∧ score s' = score s ∧
     missCount s' = missCount s ∧
     levelTimer s' = None ∧ itemSpawnTimer s' = None ∧
     itemUpdateTimer s' = None ∧ levelUpCountdownTimer s' = None ∧
     out s' = out s
              ++ (if onGameEnd s then [GameEnd (score s) (level s)] else [])
              ++ [Alert bombReason (score s) (level s)]) ∧
  (zone item ≠ basketPosition s → s' = s).
Proof.
  intros Hb. unfold handleItemReachedBasket, catchItem. rewrite Hb. cbn.
  split; intros Hz.
  - rewrite decide_True by done.
    pose proof (gameOver_fields bombReason s) as G. cbn zeta in G.
    destruct_and!. repeat split; done.
  - by rewrite decide_False.
Qed.

Lemma bomb_at_catch_line_witness :
  let item := mkItem CENTER bomb 0 true catchLine 2.0 true in
  let s := set_missCount 1 (start init) in
  isBomb item = true ∧ zone item = basketPosition s ∧
  isGameActive s = true ∧
  isGameActive (handleItemReachedBasket item s) = false ∧
  score (handleItemReachedBasket item s) = 0 ∧
  missCount (handleItemReachedBasket item s) = 1 ∧
  handleItemReachedBasket (set_progress catchLine
    (mkItem LEFT bomb 0 true catchLine 2.0 true)) s = s.
Proof.
  cbn zeta.
  destruct (bomb_at_catch_line (mkItem CENTER bomb 0 true catchLine 2.0 true)
              (set_missCount 1 (start init)) eq_refl) as [Hin _].
  destruct (bomb_at_catch_line (mkItem LEFT bomb 0 true catchLine 2.0 true)
              (set_missCount 1 (start init)) eq_refl) as [_ Hout].
  destruct (Hin eq_refl) as (Ha & Hs & Hm & _).
  split; [reflexivity|]. split; [reflexivity|]. split; [reflexivity|].
  split; [exact Ha|]. split; [exact Hs|]. split; [exact Hm|].
  apply Hout; discriminate.
Defined.

(** C7.  A fruit evaluated at the catch line: in the basket's zone the score
    grows by the fruit's points, which are 100 for an apple, 150 for a pear
    and 200 for an orange, and the miss count stays; in any other zone the
    miss count grows by one and the score stays. *)
Theorem fruit_at_catch_line (item : Item) (s : State) :
  fromItemTypes item →
  isBomb item = false →
  let s' := handleItemReachedBasket item s in
  points item = pointsOf (type item) ∧ type item ≠ bomb ∧
  (zone item = basketPosition s →
     score s' = score s + points item ∧ missCount s' = missCount s) ∧
  (zone item ≠ basketPosition s →
     missCount s' = missCount s + 1 ∧ score s' = score s).
Proof.
  intros Hty Hb. destruct (fromItemTypes_inv item Hty) as [Hp Hk].
  cbn zeta. unfold handleItemReachedBasket.
  split; [done|]. split.
  { intros E. rewrite E, bool_decide_eq_true_2 in Hk by done. congruence. }
  split; intros Hz.
  - rewrite decide_True by done.
    pose proof (catchItem_fruit item s Hb) as C. cbn zeta in C.
    destruct_and!. done.
  - rewrite decide_False by done. rewrite Hb. cbn.
    pose proof (missItem_fields s) as M. cbn zeta in M.
    destruct_and!. done.
Qed.

Lemma fruit_at_catch_line_witness :
  let pearC := mkItem CENTER pear 150 false catchLine 2.0 true in
  let pearL := mkItem LEFT pear 150 false catchLine 2.0 true in
  let s := set_score 300 (start init) in
  fromItemTypes pearC ∧ isBomb pearC = false ∧
  score (handleItemReachedBasket pearC s) = 450 ∧
  missCount (handleItemReachedBasket pearC s) = 0 ∧
  missCount (handleItemReachedBasket pearL s) = 1 ∧
  score (handleItemReachedBasket pearL s) = 300.
Proof.
  cbn zeta.
  assert (fromItemTypes (mkItem CENTER pear 150 false catchLine 2.0 true)) as HC.
  { unfold fromItemTypes, itemTypes. cbn. set_solver. }
  assert (fromItemTypes (mkItem LEFT pear 150 false catchLine 2.0 true)) as HL.
  { unfold fromItemTypes, itemTypes. cbn. set_solver. }
  destruct (fruit_at_catch_line _ (set_score 300 (start init)) HC eq_refl)
    as (_ & _ & Hin & _).
  destruct (fruit_at_catch_line _ (set_score 300 (start init)) HL eq_refl)
    as (_ & _ & _ & Hout).
  destruct (Hin eq_refl) as [Hs Hm].
  destruct Hout as [Hm' Hs']; [discriminate|].
  split; [exact HC|]. split; [reflexivity|].
  split; [exact Hs|]. split; [exact Hm|]. split; [exact Hm' | exact Hs'].
Defined.

(** ** The difficulty curve *)

Lemma getDropTime_floor s : 9 <= level s → getDropTime s = minDropTime.
Proof.
  intros HL. unfold getDropTime. apply Qmax_r_eq.
  assert (H8 : (8 <= inject_Z (level s - 1))%Q).
  { change 8%Q with (inject_Z 8). rewrite <- Zle_Qle. lia. }
  assert (Ha : ((799 # 100) <= ofInt (level s - 1))%Q).
  { unfold ofInt. pose proof (round64_lower (inject_Z (level s - 1))).
    generalize dependent (inject_Z (level s - 1)). intros x.
    generalize (round64 x). intros. lra. }
  generalize dependent (ofInt (level s - 1)). intros a Ha.
  assert (Hd : ((199 # 1000) <= decreasePerLevel)%Q) by (vm_compute; discriminate).
  assert (Hb : (baseDropTime == 2)%Q) by (vm_compute; reflexivity).
  assert (Hmin : ((59 # 100) <= minDropTime)%Q) by (vm_compute; discriminate).
  generalize dependent decreasePerLevel. intros d Hd.
  generalize dependent baseDropTime. intros b Hb.
  generalize dependent minDropTime. intros m Hm.
  assert (Hy : ((159 # 100) <= a * d)%Q).
  { apply Qle_trans with ((799 # 100) * d)%Q; [lra|].
    apply Qmult_le_compat_r; lra. }
  assert (Hy' : ((158 # 100) <= fmul a d)%Q).
  { unfold fmul. pose proof (round64_lower (a * d)%Q).
    generalize dependent (a * d)%Q. intros y. generalize (round64 y).
    intros. lra. }
  generalize dependent (fmul a d). intros c Hc.
  unfold fsub.
  destruct (Qlt_le_dec 0 (b - c)) as [Hpos|Hneg].
  - pose proof (round64_upper (b - c) Hpos).
    generalize dependent (round64 (b - c)). intros. lra.
  - pose proof (round64_nonpos _ Hneg).
    generalize dependent (round64 (b - c)). intros. lra.
Qed.

Lemma getDropTime_level s : getDropTime s = getDropTime (set_level (level s) init).
Proof. reflexivity. Qed.

Lemma getDropTime_table s : 1 <= level s → getDropTime s ∈ dropTimes.
Proof.
  intros Hl. unfold dropTimes. apply list_elem_of_fmap.
  destruct (Z_le_gt_dec (level s) 8) as [H8|H8].
  - exists (level s). split; [apply getDropTime_level|].
    assert (level s = 1 ∨ level s = 2 ∨ level s = 3 ∨ level s = 4 ∨
            level s = 5 ∨ level s = 6 ∨ level s = 7 ∨ level s = 8) as H by lia.
    rewrite !elem_of_cons. tauto.
  - exists 8. split.
    + rewrite getDropTime_floor by lia. vm_compute. reflexivity.
    + rewrite !elem_of_cons. tauto.
Qed.

(** The progress values and the drop times, checked by evaluation. *)
Lemma tables_ok : forallb dropTimeOK dropTimes = true.
Proof. vm_compute. reflexivity. Qed.

Lemma dropTimes_ok d :
  d ∈ dropTimes →
  (minDropTime <= d)%Q ∧ (d <= baseDropTime)%Q ∧ 0%Q ∈ progressValues d ∧
  ∀ p, p ∈ progressValues d →
    let p' := fadd p (fdiv deltaTime d) in
    (0 <= p)%Q ∧ (p < catchLine)%Q ∧ (p < p')%Q ∧
    ((p' < catchLine)%Q → p' ∈ progressValues d).
Proof.
  intros Hd. pose proof tables_ok as H.
  rewrite forallb_forall in H. specialize (H d).
  rewrite <- list_elem_of_In in H. specialize (H Hd).
  unfold dropTimeOK in H. cbn zeta in H.
  apply andb_prop in H as [H Hall]. apply andb_prop in H as [H H0].
  apply andb_prop in H as [Hmin Hmax].
  apply Qle_bool_iff in Hmin. apply Qle_bool_iff in Hmax.
  apply bool_decide_eq_true in H0.
  split; [exact Hmin|]. split; [exact Hmax|]. split; [exact H0|].
  intros p Hp. cbn zeta.
  rewrite forallb_forall in Hall. specialize (Hall p).
  rewrite <- list_elem_of_In in Hall. specialize (Hall Hp).
  unfold stepOK in Hall. cbn zeta in Hall.
  apply andb_prop in Hall as [Hall Hnext]. apply andb_prop in Hall as [Hall Hinc].
  apply andb_prop in Hall as [Hp0 Hlt].
  apply Qle_bool_iff in Hp0.
  assert (∀ a b, negb (Qle_bool a b) = true → (b < a)%Q) as Hneg.
  { intros a b Hn. apply Qnot_le_lt. intros Hle.
    apply Qle_bool_iff in Hle. rewrite Hle in Hn. discriminate. }
  apply Hneg in Hlt. apply Hneg in Hinc.
  split; [exact Hp0|]. split; [exact Hlt|]. split; [exact Hinc|].
  intros Hless. apply orb_prop in Hnext as [Hge|Hin].
  - apply Qle_bool_iff in Hge. exfalso. apply (Qlt_irrefl catchLine).
    eapply Qle_lt_trans; [exact Hge | exact Hless].
  - apply bool_decide_eq_true in Hin. exact Hin.
Qed.

Lemma getDropTime_bounds s :
  (minDropTime <= getDropTime s)%Q ∧
  (1 <= level s → (getDropTime s <= baseDropTime)%Q).
Proof.
  split; [unfold getDropTime; apply Q.le_max_r|].
  intros Hl. by destruct (dropTimes_ok _ (getDropTime_table s Hl)) as (_ & ? & _).
Qed.

Lemma minDropTime_pos : (0 < minDropTime)%Q.
Proof. vm_compute. reflexivity. Qed.

(** C9, as stated, fails: the source computes the curve in binary64, where
    6 * 0.2 is 1.2000000000000002 and 2.0 minus that is 0.7999999999999998,
    which is 2^(-52) below the binary64 number 0.8, and not the rational
    4/5. *)
Lemma getDropTime_at_level_7_is_not_0_8 :
  let d := getDropTime (set_level 7 init) in
  d = (900719925474099 # 1125899906842624)%Q ∧
  (d < 0.8)%Q ∧ d ≠ round64 0.8 ∧ (round64 0.8 - d == pow2 (-52))%Q ∧
  ¬ (d == dropTime_spec 7)%Q.
Proof. vm_compute. repeat split; discriminate. Qed.

(** C9, amended.  [getDropTime] reads nothing but [this.level].  From
    level 1 on, and except at level 7, it is the binary64 number nearest to
    the curve max(2.0 − 0.2×(L−1), 0.6); at every level it is within
    2^(-52) of the curve; from level 8 on it is the floor, the binary64
    number 0.6; it is 2.0 at level 1, 0.7999999999999998 at level 7 and the
    floor at level 20. *)
Theorem getDropTime_curve (s : State) :
  1 <= level s →
  (∀ s', level s' = level s → getDropTime s' = getDropTime s) ∧
  (level s ≠ 7 → getDropTime s = round64 (dropTime_spec (level s))) ∧
  (dropTime_spec (level s) - pow2 (-52) <= getDropTime s)%Q ∧
  (getDropTime s <= dropTime_spec (level s) + pow2 (-52))%Q ∧
  (8 <= level s → getDropTime s = round64 0.6) ∧
  (level s = 1 → getDropTime s = 2%Q) ∧
  (level s = 7 → getDropTime s = (900719925474099 # 1125899906842624)%Q) ∧
  (level s = 20 → getDropTime s = round64 0.6).
Proof.
  intros Hl.
  assert (level s = 1 ∨ level s = 2 ∨ level s = 3 ∨ level s = 4 ∨
          level s = 5 ∨ level s = 6 ∨ level s = 7 ∨ level s = 8 ∨
          9 <= level s) as Hcases by lia.
  split.
  { intros s' E. rewrite (getDropTime_level s'), (getDropTime_level s).
    by rewrite E. }
  assert (9 <= level s → dropTime_spec (level s) = 0.6%Q) as Hspec.
  { intros H9. unfold dropTime_spec. apply Qmax_r_eq.
    assert (8 <= inject_Z (level s - 1))%Q.
    { change 8%Q with (inject_Z 8). rewrite <- Zle_Qle. lia. }
    lra. }
  rewrite (getDropTime_level s).
  split; [|split; [|split]].
  - intros H7.
    destruct Hcases as [E|[E|[E|[E|[E|[E|[E|[E|E]]]]]]]];
      try (rewrite E; vm_compute; reflexivity); [done|].
    rewrite <- getDropTime_level, getDropTime_floor, Hspec by exact E.
    reflexivity.
  - destruct Hcases as [E|[E|[E|[E|[E|[E|[E|[E|E]]]]]]]];
      try (rewrite E; vm_compute; discriminate).
    rewrite <- getDropTime_level, getDropTime_floor, Hspec by exact E.
    vm_compute. discriminate.
  - destruct Hcases as [E|[E|[E|[E|[E|[E|[E|[E|E]]]]]]]];
      try (rewrite E; vm_compute; discriminate).
    rewrite <- getDropTime_level, getDropTime_floor, Hspec by exact E.
    vm_compute. discriminate.
  - split.
    { intros H8. destruct (Z_le_gt_dec (level s) 8) as [H|H].
      - replace (level s) with 8 by lia. vm_compute. reflexivity.
      - rewrite <- getDropTime_level. apply getDropTime_floor. lia. }
    repeat split; intros ->; vm_compute; reflexivity.
Qed.

Lemma getDropTime_curve_witness :
  1 <= level (set_level 7 init) ∧
  getDropTime (set_level 7 init) = (900719925474099 # 1125899906842624)%Q ∧
  (dropTime_spec 7 - pow2 (-52) <= getDropTime (set_level 7 init))%Q ∧
  getDropTime (set_score 500 (set_level 7 init)) = getDropTime (set_level 7 init) ∧
  getDropTime (set_level 3 init) = round64 (dropTime_spec 3).
Proof.
  destruct (getDropTime_curve (set_level 7 init))
    as (H1 & _ & H2 & _ & _ & _ & H7 & _).
  { cbn. lia. }
  destruct (getDropTime_curve (set_level 3 init)) as (_ & H3 & _).
  { cbn. lia. }
  split; [cbn; lia|]. split; [apply H7; reflexivity|].
  split; [exact H2|]. split; [apply H1; reflexivity|].
  apply H3. discriminate.
Defined.

(** ** What the outcome handlers leave alone *)

Lemma world_stop s : world (stop s) = world s.
Proof.
  destruct s as [? ? ? ? ? ? [?|] ? ? ? [?|] ? [?|] [?|] ? ? ? [|] ? ? ? ? ? ?];
    reflexivity.
Qed.

Lemma world_gameOver reason s : world (gameOver reason s) = world s.
Proof. unfold gameOver. rewrite <- (world_stop s). reflexivity. Qed.

Lemma world_catchItem item s : world (catchItem item s) = world s.
Proof.
  unfold catchItem. destruct (isBomb item); [apply world_gameOver|].
  unfold showFeedback. cbn. by destruct (onScoreChange s).
Qed.

Lemma world_missItem s : world (missItem s) = world s.
Proof.
  unfold missItem, showFeedback.
  set (s2 := if onMissChange _ then _ else _).
  assert (world s2 = world s) as <- by (subst s2; by destruct (onMissChange _)).
  repeat case_decide; [done | apply world_gameOver | done].
Qed.

Lemma world_handleItemReachedBasket item s :
  world (handleItemReachedBasket item s) = world s.
Proof.
  unfold handleItemReachedBasket.
  case_decide; [apply world_catchItem|].
  destruct (isBomb item); [done | apply world_missItem].
Qed.

Lemma world_inv s s' :
  world s' = world s →
  level s' = level s ∧ levelTimeRemaining s' = levelTimeRemaining s ∧
  items s' = items s ∧ heap s' = heap s ∧ timeouts s' = timeouts s ∧
  nextTimer s' = nextTimer s ∧ isLevelEnding s' = isLevelEnding s ∧
  isLevelUpPause s' = isLevelUpPause s.
Proof. unfold world. intros [= -> -> -> -> -> -> -> ->]. done. Qed.

Lemma rules_world s s' : world s' = world s → rules s' = rules s.
Proof. unfold world, rules. intros [= -> -> -> _ _ _ -> ->]. done. Qed.

Lemma rules_updateItem s r : rules (updateItem s r) = rules s.
Proof.
  unfold updateItem.
  destruct (heap s !! r) as [item|]; [|done].
  destruct (caught item); [done|].
  destruct (Qle_bool _ _); [|done].
  unfold setTimeout. cbn.
  match goal with
  | |- context [handleItemReachedBasket ?i ?t] =>
      change (rules (handleItemReachedBasket i t) = rules s);
      rewrite (rules_world _ _ (world_handleItemReachedBasket i t))
  end.
  done.
Qed.

Lemma rules_foldl_updateItem l s : rules (foldl updateItem s l) = rules s.
Proof.
  revert s. induction l as [|r l IH]; intros s; [done|].
  cbn. rewrite IH. apply rules_updateItem.
Qed.

Lemma rules_itemUpdateTick s : rules (itemUpdateTick s) = rules s.
Proof.
  unfold itemUpdateTick. destruct (_ || _); [done|].
  apply rules_foldl_updateItem.
Qed.

Lemma rules_inv s s' :
  rules s' = rules s →
  level s' = level s ∧ levelTimeRemaining s' = levelTimeRemaining s ∧
  items s' = items s ∧ isLevelEnding s' = isLevelEnding s ∧
  isLevelUpPause s' = isLevelUpPause s.
Proof. unfold rules. intros [= -> -> -> -> ->]. done. Qed.

(** ** Level transitions *)

Lemma nextLevel_fields s :
  let s' := nextLevel s in
  level s' = level s + 1 ∧ levelTimeRemaining s' = levelTimeLimit ∧
  items s' = items s ∧ heap s' = heap s ∧ timeouts s' = timeouts s ∧
  isLevelEnding s' = false ∧ isLevelUpPause s' = true ∧
  levelUpCountdown s' = 3 ∧
  isGameActive s' = isGameActive s ∧ score s' = score s ∧
  missCount s' = missCount s ∧ out s' = out s ∧
  levelUpCountdownTimer s' = Some (nextTimer s) ∧
  intervals s' !! nextTimer s = Some LevelUpCountdownTick.
Proof.
  destruct s as [? ? ? ? ? ? [?|] ? ? ? ? ? [?|] ? ? ? ? ? ? ? ? ? ? ?];
    cbn; rewrite lookup_insert_eq; repeat split; done.
Qed.

Lemma startLevelEnding_fields s :
  let s' := startLevelEnding s in
  heap s' = heap s ∧ items s' = items s ∧
  (items s ≠ [] →
     isLevelEnding s' = true ∧ level s' = level s ∧
     levelTimeRemaining s' = levelTimeRemaining s ∧
     isLevelUpPause s' = isLevelUpPause s) ∧
  (items s = [] →
     level s' = level s + 1 ∧ levelTimeRemaining s' = levelTimeLimit ∧
     isLevelEnding s' = false ∧ isLevelUpPause s' = true).
Proof.
  unfold startLevelEnding.
  set (s1 := clearInterval _ (clearInterval _ (set_isLevelEnding true s))).
  assert (items s1 = items s ∧ heap s1 = heap s ∧ level s1 = level s ∧
          levelTimeRemaining s1 = levelTimeRemaining s ∧
          isLevelEnding s1 = true ∧ isLevelUpPause s1 = isLevelUpPause s)
    as (Hi & Hh & Hl & Ht & He & Hp).
  { subst s1.
    destruct s as [? ? ? ? ? ? [?|] ? ? ? ? ? [?|] ? ? ? ? ? ? ? ? ? ? ?];
      cbn; done. }
  cbn zeta. rewrite Hi.
  pose proof (nextLevel_fields s1) as N. cbn zeta in N. destruct_and!.
  case_decide as Hlen.
  - apply nil_length_inv in Hlen.
    repeat split; try congruence.
  - assert (items s ≠ []) by (intros E; by rewrite E in Hlen).
    repeat split; try congruence.
Qed.

Lemma removeItem_fields r s :
  let s' := removeItem r s in
  heap s' = heap s ∧
  (r ∉ items s → s' = s) ∧
  (∀ i, indexOf r (items s) = Some i →
     items s' = delete i (items s) ∧
     (isLevelEnding s = true → delete i (items s) = [] →
        level s' = level s + 1 ∧ levelTimeRemaining s' = levelTimeLimit ∧
        isLevelEnding s' = false ∧ isLevelUpPause s' = true) ∧
     (isLevelEnding s = false ∨ delete i (items s) ≠ [] →
        level s' = level s ∧
        levelTimeRemaining s' = levelTimeRemaining s ∧
        isLevelEnding s' = isLevelEnding s ∧
        isLevelUpPause s' = isLevelUpPause s)).
Proof.
  unfold removeItem. cbn zeta.
  destruct (indexOf r (items s)) as [i|] eqn:Hix.
  - set (s1 := set_items (delete i (items s)) s).
    pose proof (nextLevel_fields s1) as N. cbn zeta in N. destruct_and!.
    change (items s1) with (delete i (items s)).
    change (isLevelEnding s1) with (isLevelEnding s).
    split.
    { destruct (_ && _); [|done]. by change (heap s1) with (heap s) in *. }
    split.
    { intros Hnot. exfalso. apply Hnot.
      unfold indexOf in Hix. apply fmap_Some in Hix as ([j x] & Hf & _).
      apply list_find_Some in Hf as (Hl & -> & _).
      by eapply list_elem_of_lookup_2. }
    intros j [= <-]. split.
    { destruct (_ && _); [|done]. by change (items s1) with (delete i (items s)) in *. }
    split.
    + intros He Hd. rewrite He, Hd, bool_decide_eq_true_2 by done.
      cbn [andb]. change (level s1) with (level s) in *.
      repeat split; assumption.
    + intros Hor.
      assert (isLevelEnding s && bool_decide (length (delete i (items s)) = 0%nat) = false) as ->.
      { destruct Hor as [->|Hne]; [done|].
        rewrite bool_decide_eq_false_2; [by rewrite andb_false_r|].
        intros Hlen. by apply nil_length_inv in Hlen. }
      repeat split; reflexivity.
  - split; [done|]. split; [done|]. intros i [=].
Qed.

Lemma rules_moveBasket pose s : rules (moveBasket pose s) = rules s.
Proof.
  unfold moveBasket. destruct (negb _); [done|].
  destruct (poseToZone pose); [|done].
  case_decide; [|done]. cbn. by destruct (onBasketMove s).
Qed.

Lemma rules_setCallback c b s : rules (setCallback c b s) = rules s.
Proof. by destruct c. Qed.

Lemma levelUpCountdownTick_fields s :
  let s' := levelUpCountdownTick s in
  level s' = level s ∧ levelTimeRemaining s' = levelTimeRemaining s ∧
  items s' = items s ∧ heap s' = heap s ∧ timeouts s' = timeouts s ∧
  isGameActive s' = isGameActive s ∧ score s' = score s ∧
  missCount s' = missCount s.
Proof.
  unfold levelUpCountdownTick, resumeAfterLevelUp. cbn zeta.
  case_decide; [|done].
  destruct s as [? ? ? ? ? ? ? ? ? ? [?|] ? [?|] ? ? ? [|] ? ? ? ? ? ? ?];
    cbn; done.
Qed.

Lemma spawnItem_fields d s :
  let s' := spawnItem d s in
  level s' = level s ∧ levelTimeRemaining s' = levelTimeRemaining s ∧
  items s' = items s ++ [length (heap s)] ∧
  (∃ item, heap s' = heap s ++ [item] ∧ fromItemTypes item ∧
           progress item = 0%Q ∧ caught item = false ∧
           dropTime item = getDropTime s ∧
           zone item = nth (pickIndex (zoneDraw d)) zones CENTER).
Proof.
  unfold spawnItem. cbn zeta. cbn [level levelTimeRemaining items heap set_items set_heap].
  repeat split. eexists. split; [reflexivity|].
  repeat split.
  unfold fromItemTypes, itemTypes.
  destruct d as [z [|] [| |]]; cbn; set_solver.
Qed.

Lemma levelStep_levelTimerTick s : levelStep s (levelTimerTick s).
Proof.
  unfold levelTimerTick. cbn zeta.
  set (s1 := set_levelTimeRemaining _ s).
  case_decide; [|by left].
  pose proof (startLevelEnding_fields s1) as (_ & Hi & Hne & Hnil).
  change (items s1) with (items s) in *. change (level s1) with (level s) in *.
  destruct (items s) as [|r l] eqn:E.
  - right. destruct Hnil as (? & ? & _); [done|]. by rewrite Hi.
  - left. by destruct Hne as (_ & ? & _).
Qed.

Lemma levelStep_timeoutFires h s : levelStep s (timeoutFires h s).
Proof.
  unfold timeoutFires. destruct (timeouts s !! h) as [r|]; [|by left].
  set (s1 := set_timeouts _ s).
  pose proof (removeItem_fields r s1) as (_ & Hnot & Hix).
  change (items s1) with (items s) in *. change (level s1) with (level s) in *.
  change (isLevelEnding s1) with (isLevelEnding s) in *.
  destruct (indexOf r (items s)) as [i|] eqn:E.
  - destruct (Hix i eq_refl) as (Hit & Hup & Hkeep).
    destruct (isLevelEnding s) eqn:He, (delete i (items s)) as [|x l] eqn:Hd.
    + right. destruct Hup as (? & ? & _); [done..|]. by rewrite Hit.
    + left. by destruct Hkeep as (? & _); [by right|].
    + left. by destruct Hkeep as (? & _); [by left|].
    + left. by destruct Hkeep as (? & _); [by left|].
  - left. rewrite Hnot; [done|].
    intros Hin. unfold indexOf in E. apply fmap_None in E.
    apply list_find_None in E. rewrite Forall_forall in E. by apply (E r).
Qed.

Lemma levelStep_step s e : e ≠ CallStart → levelStep s (step s e).
Proof.
  intros Hne. destruct e as [| |pose|c b|h d|h]; cbn; [done|..].
  - left. by rewrite (proj1 (world_inv _ _ (world_stop s))).
  - left. by rewrite (proj1 (rules_inv _ _ (rules_moveBasket pose s))).
  - left. by rewrite (proj1 (rules_inv _ _ (rules_setCallback c b s))).
  - unfold intervalFires. destruct (intervals s !! h) as [[| | |]|].
    + apply levelStep_levelTimerTick.
    + left. unfold itemSpawnTick. destruct (_ && _); [|done].
      by destruct (spawnItem_fields d s) as (? & _).
    + left. by rewrite (proj1 (rules_inv _ _ (rules_itemUpdateTick s))).
    + left. by destruct (levelUpCountdownTick_fields s) as (? & _).
    + by left.
  - apply levelStep_timeoutFires.
Qed.

(** C4.  No event other than a new [start] moves the level while an item
    is left in the collection: a step keeps the level, or raises it by
    exactly one, resets the level time to 20 and ends with an empty
    collection.  When the level timer reaches zero with items in the
    collection the engine only enters the level-ending state; the removal
    of the last item in that state performs the level-up; and with an empty
    collection the level timer performs it at once. *)
Theorem level_up_waits_for_items (s : State) (e : Event) :
  e ≠ CallStart →
  let s' := step s e in
  (level s' = level s ∨
   (level s' = level s + 1 ∧ levelTimeRemaining s' = 20 ∧ items s' = [])) ∧
  (items s' ≠ [] → level s' = level s) ∧
  (∀ h d, e = IntervalFires h d → intervals s !! h = Some LevelTimerTick →
     levelTimeRemaining s <= 1 → items s ≠ [] →
     isLevelEnding s' = true ∧ level s' = level s ∧ items s' = items s) ∧
  (∀ h d, e = IntervalFires h d → intervals s !! h = Some LevelTimerTick →
     levelTimeRemaining s <= 1 → items s = [] →
     level s' = level s + 1 ∧ levelTimeRemaining s' = 20 ∧
     isLevelUpPause s' = true) ∧
  (∀ h r, e = TimeoutFires h → timeouts s !! h = Some r →
     isLevelEnding s = true → items s = [r] →
     level s' = level s + 1 ∧ levelTimeRemaining s' = 20 ∧ items s' = [] ∧
     isLevelUpPause s' = true).
Proof.
  intros Hne. cbn zeta.
  pose proof (levelStep_step s e Hne) as Hstep.
  split; [exact Hstep|].
  split.
  { intros Hitems. destruct Hstep as [?|(_ & _ & ?)]; [done|]. by destruct Hitems. }
  split; [|split].
  - intros h d -> Hh Hltr Hitems. cbn. unfold intervalFires, levelTimerTick.
    rewrite Hh. cbn zeta. set (s1 := set_levelTimeRemaining _ s).
    rewrite decide_True by (cbn; lia).
    pose proof (startLevelEnding_fields s1) as (_ & Hi & Hk & _).
    destruct Hk as (? & ? & _); [done|]. done.
  - intros h d -> Hh Hltr Hitems. cbn. unfold intervalFires, levelTimerTick.
    rewrite Hh. cbn zeta. set (s1 := set_levelTimeRemaining _ s).
    rewrite decide_True by (cbn; lia).
    pose proof (startLevelEnding_fields s1) as (_ & _ & _ & Hn).
    destruct Hn as (? & ? & _ & ?); [done|]. done.
  - intros h r -> Hh He Hitems. cbn. unfold timeoutFires. rewrite Hh.
    set (s1 := set_timeouts _ s).
    pose proof (removeItem_fields r s1) as (_ & _ & Hix).
    change (items s1) with (items s) in Hix.
    change (isLevelEnding s1) with (isLevelEnding s) in Hix.
    rewrite Hitems in Hix.
    destruct (Hix 0%nat) as (Hit & Hup & _).
    { unfold indexOf. cbn. by rewrite decide_True. }
    destruct Hup as (? & ? & _ & ?); [done..|].
    repeat split; done.
Qed.

Lemma level_up_waits_for_items_witness :
  let airborne := run appleBeforeLevelEnd in
  let ending := run (appleBeforeLevelEnd ++ [levelTick] ++ replicate 103 updaterTick) in
  let empty := run ([CallStart] ++ replicate 19 levelTick) in
  levelTick ≠ CallStart ∧
  (items airborne = [0%nat] ∧ levelTimeRemaining airborne = 1 ∧
   isLevelEnding (step airborne levelTick) = true ∧
   level (step airborne levelTick) = level airborne) ∧
  (items ending = [0%nat] ∧ isLevelEnding ending = true ∧ level ending = 1 ∧
   timeouts ending !! 4%nat = Some 0%nat ∧
   level (step ending (TimeoutFires 4)) = level ending + 1 ∧
   levelTimeRemaining (step ending (TimeoutFires 4)) = 20 ∧
   items (step ending (TimeoutFires 4)) = []) ∧
  (items empty = [] ∧
   level (step empty levelTick) = level empty + 1 ∧
   levelTimeRemaining (step empty levelTick) = 20).
Proof.
  cbn zeta.
  split; [discriminate|].
  split; [|split].
  - destruct (level_up_waits_for_items (run appleBeforeLevelEnd) levelTick)
      as (_ & _ & Hwait & _); [discriminate|].
    destruct (Hwait 1%nat noDraw) as (He & Hl & _);
      [reflexivity | vm_compute; reflexivity | vm_compute; discriminate
      | vm_compute; discriminate |].
    split; [vm_compute; reflexivity|]. split; [vm_compute; reflexivity|].
    split; [exact He | exact Hl].
  - destruct (level_up_waits_for_items
                (run (appleBeforeLevelEnd ++ [levelTick]
                      ++ replicate 103 updaterTick)) (TimeoutFires 4))
      as (_ & _ & _ & _ & Hlast); [discriminate|].
    destruct (Hlast 4%nat 0%nat) as (Hl & Ht & Hi & _);
      [reflexivity | vm_compute; reflexivity | vm_compute; reflexivity
      | vm_compute; reflexivity |].
    split; [vm_compute; reflexivity|]. split; [vm_compute; reflexivity|].
    split; [vm_compute; reflexivity|]. split; [vm_compute; reflexivity|].
    split; [exact Hl|]. split; [exact Ht | exact Hi].
  - destruct (level_up_waits_for_items
                (run ([CallStart] ++ replicate 19 levelTick)) levelTick)
      as (_ & _ & _ & Hnow & _); [discriminate|].
    destruct (Hnow 1%nat noDraw) as (Hl & Ht & _);
      [reflexivity | vm_compute; reflexivity | vm_compute; discriminate
      | vm_compute; reflexivity |].
    split; [vm_compute; reflexivity|]. split; [exact Hl | exact Ht].
Defined.

(** ** The falling item *)

Lemma heap_updateItem s r0 r :
  heap (updateItem s r0) !! r =
    if decide (r = r0) then tickItem <$> heap s !! r0 else heap s !! r.
Proof.
  unfold updateItem.
  destruct (heap s !! r0) as [item|] eqn:Hr0; cbn [fmap option_fmap option_map].
  2: { case_decide; [by subst | done]. }
  pose proof (lookup_lt_Some _ _ _ Hr0) as Hlt.
  unfold tickItem. destruct (caught item) eqn:Hc.
  { case_decide; [by subst | done]. }
  unfold fall. cbn [progress set_progress].
  destruct (Qle_bool _ _).
  - unfold setTimeout. cbn [heap set_nextTimer set_timeouts].
    match goal with
    | |- context [handleItemReachedBasket ?i ?t] =>
        destruct (world_inv _ _ (world_handleItemReachedBasket i t))
          as (_ & _ & _ & -> & _)
    end.
    cbn [heap set_heap].
    case_decide; [subst; by rewrite list_lookup_insert_eq|].
    by rewrite list_lookup_insert_ne.
  - cbn [heap set_heap].
    case_decide; [subst; by rewrite list_lookup_insert_eq|].
    by rewrite list_lookup_insert_ne.
Qed.

Lemma heap_foldl_updateItem l s r :
  NoDup l →
  heap (foldl updateItem s l) !! r =
    if decide (r ∈ l) then tickItem <$> heap s !! r else heap s !! r.
Proof.
  revert s. induction l as [|r0 l IH]; intros s Hnd.
  - cbn. by rewrite decide_False by apply not_elem_of_nil.
  - apply NoDup_cons in Hnd as [Hr0 Hnd]. cbn [foldl].
    rewrite IH by done. rewrite !heap_updateItem.
    destruct (decide (r = r0)) as [->|Hne].
    + rewrite decide_False by done. rewrite decide_True by apply list_elem_of_here.
      done.
    + destruct (decide (r ∈ l)) as [Hin|Hnin].
      * rewrite decide_True by (by apply list_elem_of_further). done.
      * rewrite decide_False; [done|].
        rewrite elem_of_cons. intros [?|?]; done.
Qed.

(** ** Invariant of the reachable states *)

Lemma deltaTime_pos : (0 < deltaTime)%Q.
Proof. vm_compute. reflexivity. Qed.

Lemma fall_spec item :
  let p := fadd (progress item) (fdiv deltaTime (dropTime item)) in
  ((catchLine <= p)%Q →
     fall item = set_progress catchLine (set_caught true item)) ∧
  ((p < catchLine)%Q → fall item = set_progress p item).
Proof.
  cbn zeta. unfold fall. cbn [progress set_progress]. split; intros Hp.
  - apply Qle_bool_iff in Hp. rewrite Hp. reflexivity.
  - destruct (Qle_bool _ _) eqn:E; [|done].
    apply Qle_bool_iff in E. exfalso. apply (Qlt_irrefl catchLine).
    eapply Qle_lt_trans; [exact E | exact Hp].
Qed.

Lemma fall_nonneg item :
  (0 < dropTime item)%Q → (0 <= progress item)%Q →
  (0 <= fadd (progress item) (fdiv deltaTime (dropTime item)))%Q.
Proof.
  intros Hd Hp. unfold fadd, fdiv. apply round64_nonneg.
  assert (0 <= round64 (deltaTime / dropTime item))%Q; [|lra].
  apply round64_nonneg. apply Qle_shift_div_l; [exact Hd|].
  pose proof deltaTime_pos. lra.
Qed.

Lemma itemOK_tickItem item : itemOK item → itemOK (tickItem item).
Proof.
  intros HOK. pose proof HOK as (Hty & Hd & H0 & Hlt & Heq). unfold tickItem.
  destruct (caught item) eqn:Hc; [exact HOK|].
  destruct (fall_spec item) as (Hge & Hless). cbn zeta in *.
  pose proof (fall_nonneg item Hd H0) as Hnn.
  destruct (Qlt_le_dec (fadd (progress item) (fdiv deltaTime (dropTime item)))
                       catchLine) as [Hl|Hg].
  - rewrite (Hless Hl). repeat split; cbn; try done. congruence.
  - rewrite (Hge Hg). repeat split; cbn; done.
Qed.

Lemma world_moveBasket pose s :
  heap (moveBasket pose s) = heap s ∧ items (moveBasket pose s) = items s.
Proof.
  unfold moveBasket. destruct (negb _); [done|].
  destruct (poseToZone pose); [|done].
  case_decide; [|done]. cbn. by destruct (onBasketMove s).
Qed.

Lemma levelTimerTick_store s :
  heap (levelTimerTick s) = heap s ∧ items (levelTimerTick s) = items s.
Proof.
  unfold levelTimerTick. cbn zeta. set (s1 := set_levelTimeRemaining _ s).
  case_decide; [|done].
  by destruct (startLevelEnding_fields s1) as (? & ? & _).
Qed.

Lemma timeoutFires_store h s :
  heap (timeoutFires h s) = heap s ∧
  items (timeoutFires h s) `sublist_of` items s.
Proof.
  unfold timeoutFires. destruct (timeouts s !! h) as [r|]; [|done].
  set (s1 := set_timeouts _ s).
  destruct (removeItem_fields r s1) as (Hh & Hnot & Hix).
  split; [exact Hh|].
  change (items s1) with (items s) in *.
  destruct (indexOf r (items s)) as [i|] eqn:E.
  - destruct (Hix i eq_refl) as (-> & _). apply sublist_delete.
  - rewrite Hnot; [done|].
    intros Hin. unfold indexOf in E. apply fmap_None in E.
    apply list_find_None in E. rewrite Forall_forall in E. by apply (E r).
Qed.

(** How one event changes the item object [r]: it is left as it is, or it
    makes one fall step; and objects are only created by [spawnItem]. *)
Lemma heap_step s e r :
  NoDup (items s) →
  (∀ item, heap s !! r = Some item →
     heap (step s e) !! r = Some item ∨
     heap (step s e) !! r = Some (tickItem item)) ∧
  (heap s !! r = None →
     ∀ item, heap (step s e) !! r = Some item → itemOK item).
Proof.
  intros Hnd.
  assert (∀ s', heap s' = heap s →
    (∀ item, heap s !! r = Some item →
       heap s' !! r = Some item ∨ heap s' !! r = Some (tickItem item)) ∧
    (heap s !! r = None → ∀ item, heap s' !! r = Some item → itemOK item))
    as Hsame.
  { intros s' ->. split; [by left | congruence]. }
  destruct e as [| |pose|c b|h d|h]; cbn [step].
  - by apply Hsame.
  - apply Hsame. by destruct (world_inv _ _ (world_stop s)) as (_ & _ & _ & ? & _).
  - apply Hsame, world_moveBasket.
  - apply Hsame. by destruct c.
  - unfold intervalFires. destruct (intervals s !! h) as [[| | |]|].
    + apply Hsame, levelTimerTick_store.
    + unfold itemSpawnTick. destruct (_ && _); [|by apply Hsame].
      destruct (spawnItem_fields d s) as (_ & _ & _ & item & -> & Hty & Hp & Hc & Hd & _).
      split.
      * intros it Hit. left. by apply lookup_app_l_Some.
      * intros Hnone it Hit.
        apply lookup_ge_None in Hnone.
        rewrite lookup_app_r in Hit by done.
        apply list_lookup_singleton_Some in Hit as [_ <-].
        split; [done|]. rewrite Hp, Hc, Hd.
        destruct (getDropTime_bounds s) as [Hmin _].
        pose proof minDropTime_pos.
        split; [lra|]. split; [done|].
        split; [intros _; vm_compute; reflexivity | intros [=]].
    + unfold itemUpdateTick. destruct (_ || _); [by apply Hsame|].
      rewrite heap_foldl_updateItem by done.
      case_decide; [|by apply Hsame].
      split; [intros it ->; by right | intros ->; done].
    + apply Hsame. by destruct (levelUpCountdownTick_fields s) as (_ & _ & _ & ? & _).
    + by apply Hsame.
  - apply Hsame, timeoutFires_store.
Qed.

Lemma items_step s e :
  (∀ r, r ∈ items (step s e) →
     r ∈ items s ∨
     (r = length (heap s) ∧ (r < length (heap (step s e)))%nat)) ∧
  (NoDup (items s) → (∀ r, r ∈ items s → (r < length (heap s))%nat) →
   NoDup (items (step s e))).
Proof.
  assert (∀ s', items s' = items s →
    (∀ r, r ∈ items s' →
       r ∈ items s ∨ (r = length (heap s) ∧ (r < length (heap s'))%nat)) ∧
    (NoDup (items s) → (∀ r, r ∈ items s → (r < length (heap s))%nat) →
     NoDup (items s'))) as Hsame.
  { intros s' ->. split; [by left | done]. }
  destruct e as [| |pose|c b|h d|h]; cbn [step].
  - split; [intros r Hr; by apply elem_of_nil in Hr|]. intros _ _. apply NoDup_nil_2.
  - apply Hsame. by destruct (world_inv _ _ (world_stop s)) as (_ & _ & ? & _).
  - apply Hsame, world_moveBasket.
  - apply Hsame. by destruct c.
  - unfold intervalFires. destruct (intervals s !! h) as [[| | |]|].
    + apply Hsame, levelTimerTick_store.
    + unfold itemSpawnTick. destruct (_ && _); [|by apply Hsame].
      destruct (spawnItem_fields d s) as (_ & _ & -> & item & -> & _).
      split.
      * intros r Hr. apply elem_of_app in Hr as [?|Hr]; [by left|].
        right. apply list_elem_of_singleton in Hr. subst.
        rewrite length_app. cbn. lia.
      * intros Hnd Hlt. apply NoDup_app. split; [done|]. split; [|apply NoDup_singleton].
        intros r Hr Hr'. apply list_elem_of_singleton in Hr'. subst.
        specialize (Hlt _ Hr). lia.
    + apply Hsame. by destruct (rules_inv _ _ (rules_itemUpdateTick s)) as (_ & _ & ? & _).
    + apply Hsame. by destruct (levelUpCountdownTick_fields s) as (_ & _ & ? & _).
    + by apply Hsame.
  - destruct (timeoutFires_store h s) as [_ Hsub]. split.
    + intros r Hr. left. by eapply elem_of_sublist.
    + intros Hnd _. by eapply sublist_NoDup.
Qed.

Lemma length_heap_updateItem s r :
  length (heap (updateItem s r)) = length (heap s).
Proof.
  unfold updateItem.
  destruct (heap s !! r) as [item|]; [|done].
  destruct (caught item); [done|].
  destruct (Qle_bool _ _); [|cbn; by rewrite length_insert].
  unfold setTimeout. cbn [heap set_nextTimer set_timeouts].
  match goal with
  | |- context [handleItemReachedBasket ?i ?t] =>
      destruct (world_inv _ _ (world_handleItemReachedBasket i t))
        as (_ & _ & _ & -> & _)
  end.
  cbn. by rewrite length_insert.
Qed.

Lemma dropTime_tickItem item : dropTime (tickItem item) = dropTime item.
Proof.
  unfold tickItem, fall. destruct (caught item); [done|].
  cbn [progress set_progress]. by destruct (Qle_bool _ _).
Qed.

(** An item object that an event creates is the one [spawnItem] builds. *)
Lemma heap_step_new s e r item :
  heap s !! r = None → heap (step s e) !! r = Some item →
  dropTime item = getDropTime s ∧ progress item = 0%Q ∧ caught item = false.
Proof.
  intros Hnone Hsome.
  assert (∀ s', heap s' = heap s → heap s' !! r = Some item → False) as Hsame
    by (intros s' ->; congruence).
  destruct e as [| |pose|c b|h d|h]; cbn [step] in Hsome.
  - exfalso. eapply Hsame; [|done]. by destruct s.
  - exfalso. eapply Hsame; [|done].
    by destruct (world_inv _ _ (world_stop s)) as (_ & _ & _ & ? & _).
  - exfalso. eapply Hsame; [|done]. apply world_moveBasket.
  - exfalso. eapply Hsame; [|done]. by destruct c.
  - unfold intervalFires in Hsome.
    destruct (intervals s !! h) as [[| | |]|].
    + exfalso. eapply Hsame; [|done]. apply levelTimerTick_store.
    + unfold itemSpawnTick in Hsome. destruct (_ && _); [|congruence].
      destruct (spawnItem_fields d s)
        as (_ & _ & _ & it & Hh & _ & Hp & Hc & Hd & _).
      rewrite Hh in Hsome. apply lookup_ge_None in Hnone.
      rewrite lookup_app_r in Hsome by done.
      apply list_lookup_singleton_Some in Hsome as [_ <-]. done.
    + exfalso. unfold itemUpdateTick in Hsome.
      destruct (_ || _); [congruence|].
      apply lookup_lt_Some in Hsome. apply lookup_ge_None in Hnone.
      revert Hsome. generalize (items s). intros l.
      assert (∀ s', length (heap (foldl updateItem s' l)) = length (heap s'))
        as Hlen.
      { induction l as [|x l IH] using rev_ind; intros s'; [done|].
        rewrite foldl_app. cbn [foldl]. by rewrite length_heap_updateItem. }
      rewrite Hlen. lia.
    + exfalso. eapply Hsame; [|done].
      by destruct (levelUpCountdownTick_fields s) as (_ & _ & _ & ? & _).
    + congruence.
  - exfalso. eapply Hsame; [|done]. apply timeoutFires_store.
Qed.

Lemma Inv_init : Inv init.
Proof.
  split; [apply NoDup_nil_2|]. split.
  - intros r Hr. by apply elem_of_nil in Hr.
  - intros r item Hr. change (heap init) with (@nil Item) in Hr.
    by rewrite lookup_nil in Hr.
Qed.

Lemma Inv_step s e : Inv s → Inv (step s e).
Proof.
  intros (Hnd & Hlt & Hok).
  destruct (items_step s e) as [Hin Hnd'].
  split; [by apply Hnd'|]. split.
  - intros r Hr. destruct (Hin _ Hr) as [Hr'|[_ ?]]; [|done].
    specialize (Hlt _ Hr'). apply lookup_lt_is_Some in Hlt as [item E].
    apply lookup_lt_is_Some.
    destruct (heap_step s e r Hnd) as [Hsome _].
    destruct (Hsome _ E) as [->| ->]; done.
  - intros r item' Hr.
    destruct (heap_step s e r Hnd) as [Hsome Hnone].
    destruct (heap s !! r) as [item|] eqn:E.
    + destruct (Hsome _ eq_refl) as [H|H]; rewrite H in Hr;
        injection Hr as <-; [by eapply Hok | eapply itemOK_tickItem, Hok; done].
    + by eapply Hnone.
Qed.

Lemma Inv_run es : Inv (run es).
Proof.
  unfold run. induction es as [|e es IH] using rev_ind; [apply Inv_init|].
  rewrite foldl_app. cbn. by apply Inv_step.
Qed.

Lemma level_run es : 1 <= level (run es).
Proof.
  unfold run. induction es as [|e es IH] using rev_ind; [cbn; lia|].
  rewrite foldl_app. cbn [foldl].
  assert (e = CallStart ∨ e ≠ CallStart) as [->|Hne]
    by (destruct e; (by left) || (by right)).
  - cbn [step]. destruct (foldl step init es). cbn. lia.
  - destruct (levelStep_step (foldl step init es) e Hne) as [->|(-> & _)]; lia.
Qed.

(** Every item object has the drop time of a level, and while it is not
    caught its progress is one of the sums that the updater reaches from 0
    with that drop time. *)
Lemma onCurve_tickItem item : onCurve item → onCurve (tickItem item).
Proof.
  intros [Hd Hp]. unfold tickItem.
  destruct (caught item) eqn:Hc; [split; [exact Hd | congruence]|].
  destruct (dropTimes_ok _ Hd) as (_ & _ & _ & Hstep).
  destruct (Hstep _ (Hp eq_refl)) as (_ & _ & _ & Hnext). cbn zeta in Hnext.
  destruct (fall_spec item) as (Hge & Hless). cbn zeta in *.
  destruct (Qlt_le_dec (fadd (progress item) (fdiv deltaTime (dropTime item)))
                       catchLine) as [Hl|Hg].
  - rewrite (Hless Hl). split; cbn; [done|]. intros _. by apply Hnext.
  - rewrite (Hge Hg). split; cbn; [done|]. intros [=].
Qed.

Lemma onCurve_run es r item : heap (run es) !! r = Some item → onCurve item.
Proof.
  revert r item. unfold run.
  induction es as [|e es IH] using rev_ind; intros r item.
  - cbn [foldl]. change (heap init) with (@nil Item). by rewrite lookup_nil.
  - rewrite foldl_app. cbn [foldl]. intros Hr.
    destruct (Inv_run es) as (Hnd & _ & _).
    pose proof (level_run es) as Hlevel.
    fold (run es) in *.
    destruct (heap (run es) !! r) as [item0|] eqn:E.
    + destruct (heap_step (run es) e r Hnd) as [Hsome _].
      destruct (Hsome _ E) as [H|H]; rewrite H in Hr; injection Hr as <-.
      * by eapply IH.
      * eapply onCurve_tickItem, IH. done.
    + destruct (heap_step_new _ _ _ _ E Hr) as (Hd & Hp & Hc).
      assert (dropTime item ∈ dropTimes) as Hin
        by (rewrite Hd; by apply getDropTime_table).
      split; [done|]. intros _. rewrite Hp.
      by destruct (dropTimes_ok _ Hin) as (_ & _ & ? & _).
Qed.

(** C8.  In every reachable state and for every item object ever created:
    once [caught] is set the object is never written again, by any event
    (so [caught] is set at most once and the progress stays at 0.85);
    before that an event leaves it alone or is one fall step; and on each
    updater tick that runs while the item is in the collection its progress
    strictly increases, and [caught] is set on that tick exactly when the
    advanced progress reaches or crosses 0.85, with the progress clamped to
    exactly 0.85.  The sums and 0.85 are binary64 numbers. *)
Theorem caught_once_then_frozen (es : list Event) (e : Event) (r : nat)
    (item : Item) :
  heap (run es) !! r = Some item →
  ∃ item', heap (step (run es) e) !! r = Some item' ∧
    (caught item = true → item' = item) ∧
    (caught item = false →
       let p := fadd (progress item) (fdiv deltaTime (dropTime item)) in
       item' = item ∨
       ((catchLine <= p)%Q ∧ (progress item < progress item')%Q ∧
        caught item' = true ∧ progress item' = catchLine) ∨
       ((p < catchLine)%Q ∧ (progress item < progress item')%Q ∧
        caught item' = false ∧ progress item' = p)) ∧
    (∀ h d, e = IntervalFires h d →
       intervals (run es) !! h = Some ItemUpdateTick →
       isGameActive (run es) = true → isLevelUpPause (run es) = false →
       r ∈ items (run es) → caught item = false →
       (progress item < progress item')%Q ∧
       (caught item' = true ↔
        (catchLine <= fadd (progress item) (fdiv deltaTime (dropTime item)))%Q) ∧
       (caught item' = true → progress item' = catchLine)).
Proof.
  intros Hr.
  destruct (Inv_run es) as (Hnd & _ & Hok).
  destruct (Hok _ _ Hr) as (_ & _ & _ & Hlt & _).
  destruct (onCurve_run _ _ _ Hr) as [Hd Hp].
  destruct (dropTimes_ok _ Hd) as (_ & _ & _ & Hstep).
  destruct (fall_spec item) as (Hge & Hless). cbn zeta in *.
  assert (caught item = false →
    ((catchLine <= fadd (progress item) (fdiv deltaTime (dropTime item)))%Q ∧
     (progress item < progress (tickItem item))%Q ∧
     caught (tickItem item) = true ∧ progress (tickItem item) = catchLine) ∨
    ((fadd (progress item) (fdiv deltaTime (dropTime item)) < catchLine)%Q ∧
     (progress item < progress (tickItem item))%Q ∧
     caught (tickItem item) = false ∧
     progress (tickItem item) =
       fadd (progress item) (fdiv deltaTime (dropTime item))))
    as Htick.
  { intros Hc. unfold tickItem. rewrite Hc.
    destruct (Hstep _ (Hp Hc)) as (_ & _ & Hinc & _). cbn zeta in Hinc.
    destruct (Qlt_le_dec (fadd (progress item) (fdiv deltaTime (dropTime item)))
                         catchLine) as [Hl|Hg].
    - right. rewrite (Hless Hl). cbn [progress caught set_progress].
      split; [exact Hl|]. split; [exact Hinc|]. split; [exact Hc | reflexivity].
    - left. rewrite (Hge Hg). cbn [progress caught set_progress set_caught].
      split; [exact Hg|]. split; [exact (Hlt Hc)|]. split; reflexivity. }
  destruct (heap_step (run es) e r Hnd) as [Hsome _].
  destruct (Hsome _ Hr) as [H|H].
  - exists item. split; [done|]. split; [done|]. split; [by left|].
    intros h d -> Hh Ha Hpause Hin Hc. exfalso.
    cbn [step] in H. unfold intervalFires, itemUpdateTick in H.
    rewrite Hh, Ha, Hpause in H. cbn [negb orb] in H.
    rewrite heap_foldl_updateItem, decide_True, Hr in H by done.
    injection H as H. destruct (Htick Hc) as [(_ & Hq & _)|(_ & Hq & _)];
      rewrite H in Hq; by apply Qlt_irrefl in Hq.
  - exists (tickItem item). split; [done|]. split.
    { intros Hc. unfold tickItem. by rewrite Hc. }
    split.
    { intros Hc. right. apply (Htick Hc). }
    intros h d -> Hh Ha Hpause Hin Hc.
    destruct (Htick Hc) as [(Hq & Hi & Hc' & Hp')|(Hq & Hi & Hc' & Hp')].
    + split; [done|]. split; [done|]. done.
    + split; [done|]. split; [|congruence].
      split; [congruence|]. intros Hq'. exfalso.
      apply (Qlt_irrefl catchLine). eapply Qle_lt_trans; [exact Hq' | exact Hq].
Qed.

(** An apple at level 1: the first updater tick after the spawn, the tick
    on which it reaches the catch line (the 103rd: 102 additions give
    0.8499999999999994), and a tick after that. *)
Lemma caught_once_then_frozen_witness :
  let fresh := [CallStart; spawn pick1 false pick0] in
  let near := fresh ++ replicate 102 updaterTick in
  let past := fresh ++ replicate 103 updaterTick in
  (∃ item item',
     heap (run fresh) !! 0%nat = Some item ∧
     heap (step (run fresh) updaterTick) !! 0%nat = Some item' ∧
     progress item = 0%Q ∧ (progress item < progress item')%Q ∧
     caught item' = false) ∧
  (∃ item item',
     heap (run near) !! 0%nat = Some item ∧
     heap (step (run near) updaterTick) !! 0%nat = Some item' ∧
     progress item = (3828059683264919 # 4503599627370496)%Q ∧
     caught item = false ∧ (progress item < progress item')%Q ∧
     caught item' = true ∧ progress item' = catchLine) ∧
  (∃ item,
     heap (run past) !! 0%nat = Some item ∧ caught item = true ∧
     progress item = catchLine ∧
     heap (step (run past) updaterTick) !! 0%nat = Some item).
Proof.
  cbn zeta.
  assert (heap (run [CallStart; spawn pick1 false pick0]) !! 0%nat =
          Some (mkItem CENTER apple 100 false 0 2 false)) as Hr1
    by (vm_compute; reflexivity).
  assert (heap (run ([CallStart; spawn pick1 false pick0]
                     ++ replicate 102 updaterTick)) !! 0%nat =
          Some (mkItem CENTER apple 100 false
                       (3828059683264919 # 4503599627370496) 2 false)) as Hr2
    by (vm_compute; reflexivity).
  assert (heap (run ([CallStart; spawn pick1 false pick0]
                     ++ replicate 103 updaterTick)) !! 0%nat =
          Some (mkItem CENTER apple 100 false catchLine 2 true)) as Hr3
    by (vm_compute; reflexivity).
  split; [|split].
  - destruct (caught_once_then_frozen [CallStart; spawn pick1 false pick0]
                updaterTick 0 _ Hr1) as (item' & Hr' & _ & _ & Hrun).
    eexists; exists item'. split; [exact Hr1|]. split; [exact Hr'|].
    split; [reflexivity|].
    destruct (Hrun 3%nat noDraw) as (Hinc & Hiff & _);
      [reflexivity | vm_compute; reflexivity | vm_compute; reflexivity
      | vm_compute; reflexivity
      | vm_compute; apply list_elem_of_here | reflexivity |].
    split; [exact Hinc|].
    destruct (caught item') eqn:Hc; [|reflexivity].
    exfalso. destruct Hiff as [Hiff _]. specialize (Hiff eq_refl).
    vm_compute in Hiff. by apply Hiff.
  - destruct (caught_once_then_frozen
                ([CallStart; spawn pick1 false pick0]
                 ++ replicate 102 updaterTick)
                updaterTick 0 _ Hr2) as (item' & Hr' & _ & _ & Hrun).
    eexists; exists item'. split; [exact Hr2|]. split; [exact Hr'|].
    split; [reflexivity|]. split; [reflexivity|].
    destruct (Hrun 3%nat noDraw) as (Hinc & Hiff & Hclamp);
      [reflexivity | vm_compute; reflexivity | vm_compute; reflexivity
      | vm_compute; reflexivity
      | vm_compute; apply list_elem_of_here | reflexivity |].
    split; [exact Hinc|].
    assert (caught item' = true) as Hc.
    { apply Hiff. vm_compute. discriminate. }
    split; [exact Hc | exact (Hclamp Hc)].
  - destruct (caught_once_then_frozen
                ([CallStart; spawn pick1 false pick0]
                 ++ replicate 103 updaterTick)
                updaterTick 0 _ Hr3) as (item' & Hr' & Hfrozen & _).
    eexists. split; [exact Hr3|]. split; [reflexivity|].
    split; [reflexivity|]. rewrite Hr'. f_equal. apply Hfrozen. reflexivity.
Defined.

Example caught_on_tick_103 :
  let before := run ([CallStart; spawn pick1 false pick0]
                     ++ replicate 102 updaterTick) in
  let after := step before updaterTick in
  caught <$> heap before !! 0%nat = Some false ∧
  heap after !! 0%nat = Some (mkItem CENTER apple 100 false catchLine 2 true) ∧
  heap (foldl step after (replicate 50 updaterTick)) !! 0%nat =
    heap after !! 0%nat.
Proof. vm_compute. repeat split; reflexivity. Qed.

(** ** The game-ended notification *)

(** C5, as stated, fails.  The notification sent by [stop] has the score
    and the level as its only arguments: a hazard game-over and a miss-limit
    game-over with the same score and level send the same notification, and
    only the alerts differ.  Nor is it sent once per run with the final
    numbers: in [threeMissesRun] one tick ends the run twice and sends it
    twice, in [bombThenApple] the run ends with the score 100 after the
    notification said 0, and after [bombInLevelEnding] the pending removal
    raises the level to 2 after the notification said 1.  And nothing is
    sent to an engine that has no game-end callback. *)
Lemma game_end_carries_no_reason :
  (List.filter isGameEnd (out (run hazardRun)) = [GameEnd 0 1] ∧
   List.filter isGameEnd (out (run missLimitRun)) = [GameEnd 0 1] ∧
   List.filter isAlert (out (run hazardRun)) = [Alert bombReason 0 1] ∧
   List.filter isAlert (out (run missLimitRun)) = [Alert missReason 0 1]) ∧
  List.filter isGameEnd (out (run threeMissesRun)) =
    [GameEnd 0 1; GameEnd 0 1] ∧
  (List.filter isGameEnd (out (run bombThenApple)) = [GameEnd 0 1] ∧
   score (run bombThenApple) = 100) ∧
  (List.filter isGameEnd (out (run (bombInLevelEnding ++ [TimeoutFires 4]))) =
     [GameEnd 0 1] ∧
   level (run (bombInLevelEnding ++ [TimeoutFires 4])) = 2) ∧
  out (run [CallStart; CallStop]) = [].
Proof. vm_compute. repeat split; reflexivity. Qed.

Lemma reasons_differ : bombReason ≠ missReason.
Proof. vm_compute. discriminate. Qed.

Lemma out_missItem_gameOver s :
  missCount s + 1 ≠ 1 → missCount s + 1 >= maxMisses →
  out (missItem s) =
    out s ++ (if onMissChange s then [MissChange (missCount s + 1)] else [])
          ++ (if onGameEnd s then [GameEnd (score s) (level s)] else [])
          ++ [Alert missReason (score s) (level s)].
Proof.
  intros H1 H2. unfold missItem, showFeedback.
  set (s2 := if onMissChange _ then _ else _).
  assert (missCount s2 = missCount s + 1 ∧ score s2 = score s ∧
          level s2 = level s ∧ onGameEnd s2 = onGameEnd s ∧
          out s2 = out s ++ (if onMissChange s
                             then [MissChange (missCount s + 1)] else []))
    as (Hm & Hs & Hl & Hg & Ho).
  { subst s2. cbn. destruct (onMissChange s); cbn; rewrite ?app_nil_r; done. }
  rewrite Hm, decide_False, decide_True by done.
  destruct (gameOver_fields missReason s2) as (_ & _ & _ & _ & _ & _ & _ & _ &
    _ & _ & _ & _ & _ & _ & _ & _ & ->).
  rewrite Hs, Hl, Hg, Ho, <- !app_assoc. done.
Qed.

(** C5, amended.  With a game-end callback registered, each call that ends
    a run ([stop], a bomb evaluated in the basket's zone, the miss that
    reaches [maxMisses]) sends the game-ended notification exactly once,
    with the score and the level that the engine has at that call, which
    the call does not change, and with nothing else.  The reason is not
    part of the notification: a game-over follows it with an alert, whose
    text is one fixed string for a caught bomb and another for the miss
    limit, and an explicit [stop] gives no reason at all. *)
Theorem game_end_reports_score_and_level (s : State) :
  onGameEnd s = true →
  (out (stop s) = out s ++ [GameEnd (score s) (level s)] ∧
   score (stop s) = score s ∧ level (stop s) = level s) ∧
  (∀ item, isBomb item = true → zone item = basketPosition s →
     let s' := handleItemReachedBasket item s in
     out s' = out s ++ [GameEnd (score s) (level s);
                        Alert bombReason (score s) (level s)] ∧
     score s' = score s ∧ level s' = level s) ∧
  (∀ item, isBomb item = false → zone item ≠ basketPosition s →
     missCount s + 1 ≠ 1 → missCount s + 1 >= maxMisses →
     let s' := handleItemReachedBasket item s in
     out s' = out s
              ++ (if onMissChange s then [MissChange (missCount s + 1)] else [])
              ++ [GameEnd (score s) (level s);
                  Alert missReason (score s) (level s)] ∧
     score s' = score s ∧ level s' = level s) ∧
  bombReason ≠ missReason.
Proof.
  intros Hcb. split; [|split; [|split]].
  - destruct (stop_fields s) as (_ & Hs & Hl & _ & _ & _ & _ & _ &
      _ & _ & _ & _ & _ & _ & _ & _ & ->). by rewrite Hcb.
  - intros item Hb Hz. cbn zeta. unfold handleItemReachedBasket, catchItem.
    rewrite decide_True, Hb by done.
    destruct (gameOver_fields bombReason s) as (_ & Hs & Hl & _ & _ & _ & _ & _ &
      _ & _ & _ & _ & _ & _ & _ & _ & ->). by rewrite Hcb.
  - intros item Hb Hz H1 H2. cbn zeta. unfold handleItemReachedBasket.
    rewrite decide_False, Hb by done. cbn [negb].
    rewrite out_missItem_gameOver, Hcb by done.
    destruct (missItem_fields s) as (_ & Hs & Hl & _). done.
  - apply reasons_differ.
Qed.

Lemma game_end_reports_score_and_level_witness :
  let s := set_score 250 (set_missCount 1 (run (setupGameCallbacks ++ [CallStart]))) in
  let bombC := mkItem CENTER bomb 0 true catchLine 2.0 true in
  let appleL := mkItem LEFT apple 100 false catchLine 2.0 true in
  onGameEnd s = true ∧
  out (stop s) = [GameEnd 250 1] ∧
  out (handleItemReachedBasket bombC s) =
    [GameEnd 250 1; Alert bombReason 250 1] ∧
  out (handleItemReachedBasket appleL s) =
    [MissChange 2; GameEnd 250 1; Alert missReason 250 1] ∧
  score (handleItemReachedBasket appleL s) = 250 ∧
  level (handleItemReachedBasket appleL s) = 1.
Proof.
  cbn zeta.
  destruct (game_end_reports_score_and_level
    (set_score 250 (set_missCount 1 (run (setupGameCallbacks ++ [CallStart])))))
    as ((Hstop & _) & Hbomb & Hmiss & _); [reflexivity|].
  destruct (Hbomb (mkItem CENTER bomb 0 true catchLine 2.0 true))
    as (Hb & _); [reflexivity | reflexivity |].
  destruct (Hmiss (mkItem LEFT apple 100 false catchLine 2.0 true))
    as (Hm & Hs & Hl);
    [reflexivity | discriminate | discriminate | discriminate |].
  split; [reflexivity|]. split; [exact Hstop|]. split; [exact Hb|].
  split; [exact Hm|]. split; [exact Hs | exact Hl].
Defined.

(** ** Several items at the catch line on one tick

    The updater checks [isGameActive] once, before the [forEach]; a
    game-over raised by one item does not end the loop, and the items after
    it are still evaluated. *)

(** C1 fails on the code.  Both runs end with three counted misses, past
    [maxMisses] = 2, and with the game-over sequence (callback and alert)
    performed twice on the last tick. *)
Theorem missCount_exceeds_maxMisses :
  (missCount (run threeMissesRun) = 3 ∧
   isGameActive (run threeMissesRun) = false ∧
   out (run threeMissesRun) =
     [MissChange 1; Feedback "경고!" None warning;
      MissChange 2; GameEnd 0 1; Alert missReason 0 1;
      MissChange 3; GameEnd 0 1; Alert missReason 0 1]) ∧
  (missCount (run twoSpawnersRun) = 3 ∧
   maxMisses < missCount (run twoSpawnersRun) ∧
   List.filter isGameEnd (out (run twoSpawnersRun)) =
     [GameEnd 0 1; GameEnd 0 1] ∧
   out (run twoSpawnersRun) =
     [MissChange 1; Feedback "경고!" None warning;
      MissChange 2; GameEnd 0 1; Alert missReason 0 1;
      MissChange 3; GameEnd 0 1; Alert missReason 0 1]).
Proof. vm_compute. repeat split; reflexivity. Qed.

(** ** After game-over *)

(** Ticks that begin on a stopped engine do nothing. *)
Lemma inactive_ticks_are_noops s d :
  isGameActive s = false →
  itemSpawnTick d s = s ∧ itemUpdateTick s = s ∧
  ∀ pose, moveBasket pose s = s.
Proof.
  intros Ha. unfold itemSpawnTick, itemUpdateTick, moveBasket. by rewrite Ha.
Qed.

(** C2 fails on the code.  After the bomb game-over of [bombInLevelEnding]
    the removal scheduled by the updater still fires: it empties the
    collection and, the level ending being under way, raises the level of
    the stopped engine and starts a countdown interval on it, which later
    reports the level change.  In [bombThenApple] the apple is evaluated
    after the game-over of the same tick and still scores. *)
Theorem updater_mutates_after_game_over :
  let over := run bombInLevelEnding in
  let later := step over (TimeoutFires 4) in
  (isGameActive over = false ∧
   out over = [GameEnd 0 1; Alert bombReason 0 1] ∧
   items over = [0%nat] ∧ level over = 1 ∧ intervals over = ∅ ∧
   items later = [] ∧ level later = 2 ∧ isGameActive later = false ∧
   intervals later = {[ 5%nat := LevelUpCountdownTick ]} ∧
   out (foldl step later (replicate 3 (IntervalFires 5 noDraw))) =
     [GameEnd 0 1; Alert bombReason 0 1; LevelChange 2]) ∧
  (out (run bombThenApple) =
     [GameEnd 0 1; Alert bombReason 0 1; ScoreChange 100;
      Feedback "+100점!" (Some CENTER) success] ∧
   score (run bombThenApple) = 100 ∧
   isGameActive (run bombThenApple) = false).
Proof. vm_compute. repeat split; reflexivity. Qed.

(** ** Removals pending at [stop] or restart *)

(** C3 fails on the code.  [stop] clears every interval, but the pending
    removal is not cancelled and does not look at [isGameActive]: fired on
    the stopped engine it removes the item, finds the level ending with an
    empty collection and calls [nextLevel].  The stopped engine goes to
    level 2, gets a countdown interval, then a level timer and a spawner,
    reports the level change, and its level timer takes it to level 3. *)
Theorem stale_removal_levels_up_stopped_engine :
  let stopped := run stopDuringGrace in
  let fired := step stopped (TimeoutFires 4) in
  let resumed := foldl step fired (replicate 3 (IntervalFires 5 noDraw)) in
  let zombie := foldl step resumed (replicate 20 (IntervalFires 6 noDraw)) in
  isGameActive stopped = false ∧ intervals stopped = ∅ ∧
  timeouts stopped = {[ 4%nat := 0%nat ]} ∧
  items stopped = [0%nat] ∧ level stopped = 1 ∧
  out stopped = [ScoreChange 100; Feedback "+100점!" (Some CENTER) success;
                 GameEnd 100 1] ∧
  isGameActive fired = false ∧ items fired = [] ∧ level fired = 2 ∧
  isLevelUpPause fired = true ∧
  intervals fired = {[ 5%nat := LevelUpCountdownTick ]} ∧
  isGameActive resumed = false ∧
  intervals resumed = {[ 6%nat := LevelTimerTick; 7%nat := ItemSpawnTick ]} ∧
  out resumed = out stopped ++ [LevelChange 2] ∧
  isGameActive zombie = false ∧ level zombie = 3.
Proof. vm_compute. repeat split; reflexivity. Qed.

(** What does hold for a removal that outlives its run: after a restart
    the collection is a new array, every reference in it is younger than
    the restart, and the stale closure finds nothing to remove. *)
Lemma length_heap_step s e :
  (length (heap s) ≤ length (heap (step s e)))%nat.
Proof.
  assert (∀ s', heap s' = heap s → (length (heap s) ≤ length (heap s'))%nat)
    as Hsame by (by intros s' ->).
  destruct e as [| |pose|c b|h d|h]; cbn [step].
  - by apply Hsame.
  - apply Hsame. by destruct (world_inv _ _ (world_stop s)) as (_ & _ & _ & ? & _).
  - apply Hsame, world_moveBasket.
  - apply Hsame. by destruct c.
  - unfold intervalFires. destruct (intervals s !! h) as [[| | |]|].
    + apply Hsame, levelTimerTick_store.
    + unfold itemSpawnTick. destruct (_ && _); [|done].
      destruct (spawnItem_fields d s) as (_ & _ & _ & item & -> & _).
      rewrite length_app. lia.
    + unfold itemUpdateTick. destruct (_ || _); [done|].
      generalize (items s). intros l. revert s Hsame.
      induction l as [|r l IH] using rev_ind; intros s _; [done|].
      rewrite foldl_app. cbn [foldl]. rewrite length_heap_updateItem.
      apply IH. by intros s' ->.
    + apply Hsame. by destruct (levelUpCountdownTick_fields s) as (_ & _ & _ & ? & _).
    + done.
  - apply Hsame, timeoutFires_store.
Qed.

Lemma items_after_restart s es r :
  r ∈ items (foldl step (start s) es) → (length (heap s) ≤ r)%nat.
Proof.
  revert r.
  assert ((length (heap s) ≤ length (heap (foldl step (start s) es)))%nat ∧
          ∀ r, r ∈ items (foldl step (start s) es) → (length (heap s) ≤ r)%nat)
    as [_ H]; [|exact H].
  induction es as [|e es [IHlen IH]] using rev_ind.
  - split; [done|]. intros r Hr. by apply elem_of_nil in Hr.
  - rewrite foldl_app. cbn [foldl]. split.
    + etrans; [exact IHlen | apply length_heap_step].
    + intros r Hr. destruct (items_step (foldl step (start s) es) e) as [Hin _].
      destruct (Hin _ Hr) as [?|[-> _]]; [by apply IH | done].
Qed.

Lemma stale_removal_after_restart s es h r :
  timeouts s !! h = Some r → (r < length (heap s))%nat →
  let s' := foldl step (start s) es in
  ∀ h', timeouts s' !! h' = Some r →
    step s' (TimeoutFires h') = set_timeouts (delete h' (timeouts s')) s'.
Proof.
  intros _ Hlt s' h' Hh'. cbn [step]. unfold timeoutFires. rewrite Hh'.
  destruct (removeItem_fields r (set_timeouts (delete h' (timeouts s')) s'))
    as (_ & Hnot & _).
  apply Hnot. cbn [items set_timeouts]. intros Hin.
  apply items_after_restart in Hin. lia.
Qed.

(** ** Misses while the engine is active

    What the miss branch does guarantee: as long as the engine is active
    fewer than [maxMisses] misses have been counted.  The bound can only be
    passed by the evaluations that follow a game-over inside one tick. *)

Lemma activeBound_act s s' : act s' = act s → activeBound s → activeBound s'.
Proof. unfold act, activeBound. intros [= -> ->]. done. Qed.

Lemma activeBound_handleItemReachedBasket item s :
  activeBound s → activeBound (handleItemReachedBasket item s).
Proof.
  unfold activeBound, handleItemReachedBasket, maxMisses. intros HA.
  case_decide.
  - unfold catchItem. destruct (isBomb item) eqn:Hb.
    + destruct (gameOver_fields bombReason s) as (-> & _). done.
    + destruct (catchItem_fruit item s Hb) as (_ & Hm & Ha & _).
      unfold catchItem in *. rewrite Hb in *. rewrite Hm, Ha. done.
  - destruct (isBomb item); [done|]. cbn [negb].
    destruct (missItem_fields s) as (-> & _ & _ & _ & _ & ->).
    unfold maxMisses. repeat case_decide; try done; intros Hact; specialize (HA Hact); lia.
Qed.

Lemma activeBound_updateItem s r : activeBound s → activeBound (updateItem s r).
Proof.
  intros HA. unfold updateItem.
  destruct (heap s !! r) as [item|]; [|done].
  destruct (caught item); [done|].
  destruct (Qle_bool _ _); [|done].
  unfold setTimeout.
  eapply activeBound_act; [|eapply activeBound_handleItemReachedBasket].
  - reflexivity.
  - exact HA.
Qed.

Lemma act_nextLevel s : act (nextLevel s) = act s.
Proof.
  destruct (nextLevel_fields s) as (_ & _ & _ & _ & _ & _ & _ & _ & Ha & _ & Hm & _).
  unfold act. by rewrite Ha, Hm.
Qed.

Lemma act_levelTimerTick s : act (levelTimerTick s) = act s.
Proof.
  unfold levelTimerTick. cbn zeta. case_decide; [|done].
  unfold startLevelEnding. cbn zeta.
  set (s1 := clearInterval _ (clearInterval _ _)).
  assert (act s1 = act s) as <-.
  { subst s1.
    destruct s as [? ? ? ? ? ? [?|] ? ? ? ? ? [?|] ? ? ? ? ? ? ? ? ? ? ?];
      reflexivity. }
  case_decide; [apply act_nextLevel | done].
Qed.

Lemma activeBound_step s e : activeBound s → activeBound (step s e).
Proof.
  intros HA. destruct e as [| |pose|c b|h d|h]; cbn [step].
  - unfold activeBound, maxMisses. intros _. cbn. lia.
  - unfold activeBound. destruct (stop_fields s) as (-> & _). done.
  - unfold moveBasket. destruct (negb _); [done|].
    destruct (poseToZone pose); [|done]. case_decide; [|done].
    eapply activeBound_act; [|exact HA]. cbn. by destruct (onBasketMove s).
  - eapply activeBound_act; [|exact HA]. by destruct c.
  - unfold intervalFires. destruct (intervals s !! h) as [[| | |]|]; [| | | |done].
    + eapply activeBound_act; [apply act_levelTimerTick | exact HA].
    + unfold itemSpawnTick. destruct (_ && _); [|done].
      eapply activeBound_act; [|exact HA]. done.
    + unfold itemUpdateTick. destruct (_ || _); [done|].
      generalize (items s). intros l. revert s HA.
      induction l as [|r l IH]; intros s HA; [done|].
      cbn [foldl]. apply IH. by apply activeBound_updateItem.
    + destruct (levelUpCountdownTick_fields s) as (_ & _ & _ & _ & _ & Ha & _ & Hm).
      eapply activeBound_act; [|exact HA]. unfold act. by rewrite Ha, Hm.
  - unfold timeoutFires. destruct (timeouts s !! h) as [r|]; [|done].
    unfold removeItem. destruct (indexOf _ _); [|done].
    cbn zeta. destruct (_ && _).
    + eapply activeBound_act; [apply act_nextLevel|].
      eapply activeBound_act; [|exact HA]. done.
    + eapply activeBound_act; [|exact HA]. done.
Qed.

Lemma active_engine_below_miss_limit es :
  isGameActive (run es) = true → 0 <= missCount (run es) < maxMisses.
Proof.
  change (activeBound (run es)). unfold run.
  induction es as [|e es IH] using rev_ind.
  - unfold activeBound. cbn. done.
  - rewrite foldl_app. cbn [foldl]. by apply activeBound_step.
Qed.

(** * Further properties of the engine *)

(** ** The basket command *)

(** X1.  [moveBasket] changes at most the basket position and the output;
    when the engine is active the basket ends at what the lookup object
    gives for the pose, which is the commanded zone for the three class
    names, the inherited property for a key of [Object.prototype], and
    nothing for any other name, in which case the basket stays where it is,
    as it does on a stopped engine; a change is reported when the callback
    is registered; and repeating the command changes nothing more. *)
Theorem moveBasket_idempotent (pose : string) (s : State) :
  let s' := moveBasket pose s in
  set_out (out s) (set_basketPosition (basketPosition s) s') = s ∧
  basketPosition s' =
    (if isGameActive s then default (basketPosition s) (poseToZone pose)
     else basketPosition s) ∧
  out s' =
    out s ++ (if isGameActive s && onBasketMove s
                 && bool_decide (basketPosition s' ≠ basketPosition s)
              then [BasketMove (basketPosition s')] else []) ∧
  moveBasket pose s' = s'.
Proof.
  cbn zeta. unfold moveBasket.
  destruct s as [[|] ? ? ? bp ? ? ? ? ? ? ? ? ? ? ? ? ? cb ? ? ? ? ?];
    cbn; [|by rewrite app_nil_r].
  destruct (poseToZone pose) as [z|]; cbn.
  2: { rewrite bool_decide_eq_false_2 by (intros H; by apply H).
       by rewrite andb_false_r, app_nil_r. }
  destruct (decide (z ≠ bp)) as [Hne|Heq]; cbn.
  - destruct cb; cbn; rewrite ?bool_decide_eq_true_2 by done; cbn;
      rewrite ?app_nil_r; (repeat split; [done..|]);
      by rewrite decide_False by (intros H; by apply H).
  - apply dec_stable in Heq. subst z.
    rewrite bool_decide_eq_false_2 by (intros H; by apply H).
    rewrite andb_false_r, app_nil_r. repeat split; try done.
    by rewrite decide_False by (intros H; by apply H).
Qed.

Lemma poseToZone_keys :
  poseToZone "왼쪽" = Some LEFT ∧ poseToZone "정면" = Some CENTER ∧
  poseToZone "오른쪽" = Some RIGHT ∧ poseToZone "" = None.
Proof. vm_compute. repeat split; reflexivity. Qed.

(** A class name that is a key of [Object.prototype] moves the basket out
    of every lane, and the page is told so. *)
Example moveBasket_inherited_key :
  let s := run (setupGameCallbacks ++ [CallStart; CallMoveBasket "toString"]) in
  poseToZone "toString" = Some (inherited "toString") ∧
  poseToZone "standing" = None ∧
  basketPosition s = inherited "toString" ∧
  out s = [BasketMove (inherited "toString")] ∧
  moveBasket "toString" s = s.
Proof. vm_compute. repeat split; reflexivity. Qed.

(** ** The page's guards *)

(** X2.  The page's [stop] is idempotent, so the page never sends the
    game-ended notification twice for one run, and the guard of
    [handlePrediction] lets through exactly what [moveBasket] would act on:
    forwarding every class name unguarded would give the same engine
    state. *)
Theorem page_guards (s : State) :
  page_stop (page_stop s) = page_stop s ∧
  (isGameActive s = false → page_stop s = s) ∧
  ∀ className,
    page_handlePrediction className s =
      match className with Some c => moveBasket c s | None => s end.
Proof.
  split; [|split].
  - unfold page_stop. destruct (isGameActive s) eqn:Ha; [|by rewrite Ha].
    destruct (stop_fields s) as (-> & _). done.
  - unfold page_stop. by intros ->.
  - intros [c|]; [|done]. unfold page_handlePrediction.
    destruct (isGameActive s) eqn:Ha; cbn [andb].
    + case_bool_decide as Hc; [|done]. subst c. cbn [negb].
      unfold moveBasket. rewrite Ha. cbn [negb].
      by destruct poseToZone_keys as (_ & _ & _ & ->).
    + unfold moveBasket. by rewrite Ha.
Qed.

Lemma page_guards_witness :
  let s := run (setupGameCallbacks ++ [CallStart; CallStop]) in
  isGameActive s = false ∧ page_stop s = s ∧
  out (page_stop s) = [GameEnd 0 1].
Proof.
  cbn zeta.
  destruct (page_guards (run (setupGameCallbacks ++ [CallStart; CallStop])))
    as (_ & Hin & _).
  split; [reflexivity|]. split; [apply Hin; reflexivity|].
  rewrite Hin by reflexivity. vm_compute. reflexivity.
Defined.

(** ** The spawn cadence *)

Lemma round64_rel x :
  ((1 # 1000) <= x)%Q →
  ((1 - (1 # 1000000000000000)) * x <= round64 x)%Q ∧
  (round64 x <= (1 + (1 # 1000000000000000)) * x)%Q.
Proof.
  intros Hx. destruct (round64_error x) as [Hl Hu]; [lra|].
  assert (H1 : (pow2 (-1074) <= 1 # 1000000000000000000)%Q) by (vm_compute; discriminate).
  assert (H2 : (pow2 (-52) <= 1 # 2000000000000000)%Q) by (vm_compute; discriminate).
  assert (H3 : (x * pow2 (-52) <= x * (1 # 2000000000000000))%Q) by (apply Qmult_le_l; lra).
  generalize dependent (pow2 (-1074)). generalize dependent (pow2 (-52)).
  intros. split; lra.
Qed.

Lemma round64_upper0 x :
  (0 <= x)%Q →
  (0 <= round64 x)%Q ∧
  (round64 x <= (1 + (1 # 1000000000000000)) * x + (1 # 1000000000000000000))%Q.
Proof.
  intros Hx. split; [by apply round64_nonneg|].
  destruct (Qle_lt_or_eq _ _ Hx) as [Hpos|H0].
  - destruct (round64_error x Hpos) as [_ Hu].
    assert (H1 : (pow2 (-1074) <= 1 # 1000000000000000000)%Q) by (vm_compute; discriminate).
    assert (H2 : (pow2 (-52) <= 1 # 2000000000000000)%Q) by (vm_compute; discriminate).
    assert (H3 : (x * pow2 (-52) <= x * (1 # 2000000000000000))%Q) by (apply Qmult_le_l; lra).
    pose proof (pow2_pos (-1074)).
    generalize dependent (pow2 (-1074)). generalize dependent (pow2 (-52)).
    intros. lra.
  - assert (round64 x <= 0)%Q by (apply round64_nonpos; lra). lra.
Qed.

(** X3.  For a random number in [0, 1) the spawn interval lies between 60%
    and 80% of the drop time, in milliseconds, up to the rounding of the
    five operations, which is below a billionth of a millisecond per second
    of drop time; from level 1 on that is between 360 ms and 1600 ms, with
    the same allowance.  The allowance is needed: the interval can exceed
    800 times the drop time. *)
Theorem getItemSpawnInterval_bounds (u : Q) (s : State) :
  (0 <= u)%Q → (u < 1)%Q →
  ((599999999999 # 1000000000) * getDropTime s <= getItemSpawnInterval u s)%Q ∧
  (getItemSpawnInterval u s <= (800000000001 # 1000000000) * getDropTime s)%Q ∧
  (1 <= level s →
     ((359999999999 # 1000000000) <= getItemSpawnInterval u s)%Q ∧
     (getItemSpawnInterval u s <= (1600000000002 # 1000000000))%Q).
Proof.
  intros H0 H1.
  assert (((599999999999 # 1000000000) * getDropTime s
           <= getItemSpawnInterval u s)%Q ∧
          (getItemSpawnInterval u s
           <= (800000000001 # 1000000000) * getDropTime s)%Q) as [Hlo Hhi].
  { unfold getItemSpawnInterval. cbn zeta.
    assert (Hd : ((59 # 100) <= getDropTime s)%Q).
    { destruct (getDropTime_bounds s) as [Hmin _].
      eapply Qle_trans; [|exact Hmin]. vm_compute. discriminate. }
    generalize dependent (getDropTime s). intros d Hd.
    assert (E6 : round64 0.6 = (5404319552844595 # 9007199254740992)%Q)
      by (vm_compute; reflexivity).
    assert (E8 : round64 0.8 = (3602879701896397 # 4503599627370496)%Q)
      by (vm_compute; reflexivity).
    rewrite E6, E8. unfold fmul, fadd, fsub.
    destruct (round64_rel (d * (5404319552844595 # 9007199254740992)))
      as [A1 A2]; [lra|].
    generalize dependent (round64 (d * (5404319552844595 # 9007199254740992))).
    intros A A1 A2.
    destruct (round64_rel (d * (3602879701896397 # 4503599627370496)))
      as [B1 B2]; [lra|].
    generalize dependent (round64 (d * (3602879701896397 # 4503599627370496))).
    intros B B1 B2.
    destruct (round64_rel (B - A)) as [D1 D2]; [lra|].
    generalize dependent (round64 (B - A)). intros D D1 D2.
    assert (HuD : (0 <= u * D)%Q ∧ (u * D <= D)%Q).
    { assert (0 <= D)%Q by lra. split; [by apply Qmult_le_0_compat|].
      rewrite <- (Qmult_1_l D) at 2. apply Qmult_le_compat_r; lra. }
    destruct HuD as [P0 P0'].
    destruct (round64_upper0 (u * D) P0) as [P1 P2].
    generalize dependent (round64 (u * D)). generalize dependent (u * D)%Q.
    intros x Hx0 Hx1 P P1 P2.
    destruct (round64_rel (A + P)) as [S1 S2]; [lra|].
    generalize dependent (round64 (A + P)). intros S S1 S2.
    destruct (round64_rel (S * 1000)) as [I1 I2]; [lra|].
    generalize dependent (round64 (S * 1000)). intros I I1 I2.
    split; lra. }
  split; [exact Hlo|]. split; [exact Hhi|].
  intros Hl. destruct (getDropTime_bounds s) as [Hmin Hmax].
  specialize (Hmax Hl).
  assert (((5999999999999999 # 10000000000000000) <= minDropTime)%Q) as Hm
    by (vm_compute; discriminate).
  assert ((baseDropTime == 2)%Q) as Hb by (vm_compute; reflexivity).
  generalize dependent (getItemSpawnInterval u s).
  generalize dependent (getDropTime s).
  generalize dependent minDropTime. generalize dependent baseDropTime.
  intros. split; lra.
Qed.

(** The largest random number: at level 1 the interval is 1600 ms, and at
    level 2 it is 1440.0000000000002 ms, above 800 times the drop time. *)
Lemma getItemSpawnInterval_bounds_witness :
  let s := set_level 2 (start init) in
  (0 <= belowOne)%Q ∧ (belowOne < 1)%Q ∧
  (getItemSpawnInterval belowOne s <= (800000000001 # 1000000000) * getDropTime s)%Q ∧
  getItemSpawnInterval belowOne s = (6333186975989761 # 4398046511104)%Q ∧
  (800 * getDropTime s < getItemSpawnInterval belowOne s)%Q ∧
  getItemSpawnInterval belowOne (start init) = 1600%Q ∧
  getItemSpawnInterval (round64 0.5) (start init) = 1400%Q.
Proof.
  cbn zeta.
  destruct (getItemSpawnInterval_bounds belowOne (set_level 2 (start init)))
    as (_ & Hhi & _); [vm_compute; discriminate | vm_compute; reflexivity |].
  split; [vm_compute; discriminate|]. split; [vm_compute; reflexivity|].
  split; [exact Hhi|].
  split; [vm_compute; reflexivity|]. split; [vm_compute; reflexivity|].
  split; vm_compute; reflexivity.
Defined.

(** ** Restarting an engine that was stopped during a level ending *)

(** X4.  [start] resets the run (the snapshot is that of a fresh game) but
    not the level-ending flag: on an engine whose flag is set the new
    run's spawner drops nothing and, the collection being empty, its
    updater does nothing either. *)
Theorem start_keeps_level_ending (s : State) :
  isLevelEnding s = true →
  let s' := start s in
  getGameState s' = mkSnapshot true 0 1 0 CENTER 0 ∧
  levelTimeRemaining s' = levelTimeLimit ∧
  isLevelEnding s' = true ∧
  (∀ d, itemSpawnTick d s' = s') ∧
  itemUpdateTick s' = s'.
Proof.
  intros He. cbn zeta.
  assert (isLevelEnding (start s) = true) as He' by (by destruct s).
  assert (isGameActive (start s) = true) as Ha by (by destruct s).
  assert (items (start s) = []) as Hi by (by destruct s).
  split; [by destruct s|]. split; [by destruct s|]. split; [exact He'|].
  split.
  - intros d. unfold itemSpawnTick. by rewrite He', andb_false_r.
  - unfold itemUpdateTick. rewrite Hi. by destruct (_ || _).
Qed.

Lemma start_keeps_level_ending_witness :
  let stopped := run stopDuringGrace in
  isLevelEnding stopped = true ∧
  isLevelEnding (start stopped) = true ∧
  itemSpawnTick (mkDraws pick1 false pick0) (start stopped) = start stopped ∧
  items (run (stopDuringGrace
              ++ [CallStart; IntervalFires 6 (mkDraws pick1 false pick0)]
              ++ replicate 60 (IntervalFires 7 noDraw)
              ++ [IntervalFires 6 (mkDraws pick1 false pick0)])) = [].
Proof.
  cbn zeta.
  destruct (start_keeps_level_ending (run stopDuringGrace))
    as (_ & _ & He & Hs & _); [reflexivity|].
  split; [reflexivity|]. split; [exact He|]. split; [apply Hs|].
  vm_compute. reflexivity.
Defined.

(** ** The level-up pause *)

Lemma levelUpCountdownTick_waits s :
  1 < levelUpCountdown s →
  levelUpCountdownTick s = set_levelUpCountdown (levelUpCountdown s - 1) s.
Proof.
  intros H. unfold levelUpCountdownTick. cbn zeta.
  rewrite decide_False; [done | cbn; lia].
Qed.

(** ** Timer handles *)

Ltac map_hyps :=
  repeat match goal with
  | H : <[_:=_]> _ !! _ = Some _ |- _ =>
      apply lookup_insert_Some in H as [[<- <-]|[? H]]
  | H : delete _ _ !! _ = Some _ |- _ =>
      apply lookup_delete_Some in H as [? H]
  end.

Ltac grow_tac :=
  unfold timersGrow, held; cbn;
  split; [lia|];
  (split; [|split]); intros; map_hyps; destruct_or?; simplify_eq;
  first [ by left | right; lia | left; by eauto 6 ].

Lemma timersGrow_refl s : timersGrow s s.
Proof. unfold timersGrow. repeat split; [lia|by left..]. Qed.

Lemma timersGrow_trans s1 s2 s3 :
  timersGrow s1 s2 → timersGrow s2 s3 → timersGrow s1 s3.
Proof.
  intros (Hn & Hi & Ht & Hh) (Hn' & Hi' & Ht' & Hh').
  split; [lia|]. split; [|split].
  - intros h k H. destruct (Hi' _ _ H) as [H'|?]; [|right; lia].
    destruct (Hi _ _ H') as [?|?]; [by left | right; lia].
  - intros h r H. destruct (Ht' _ _ H) as [H'|?]; [|right; lia].
    destruct (Ht _ _ H') as [?|?]; [by left | right; lia].
  - intros h H. destruct (Hh' _ H) as [H'|?]; [|right; lia].
    destruct (Hh _ H') as [?|?]; [by left | right; lia].
Qed.

Lemma timersGrow_view s s' : timerView s' = timerView s → timersGrow s s'.
Proof.
  unfold timerView, timersGrow, held. intros [= -> -> -> -> -> -> ->].
  repeat split; [lia|by left..].
Qed.

Lemma handlesFresh_grow s s' :
  timersGrow s s' → handlesFresh s → handlesFresh s'.
Proof.
  intros (Hn & Hi & Ht & Hh) (Fi & Ft & Fh). split; [|split].
  - intros h k H. destruct (Hi _ _ H) as [H'|?]; [|lia].
    specialize (Fi _ _ H'). lia.
  - intros h r H. destruct (Ht _ _ H) as [H'|?]; [|lia].
    specialize (Ft _ _ H'). lia.
  - intros h H. destruct (Hh _ H) as [H'|?]; [|lia].
    specialize (Fh _ H'). lia.
Qed.

Lemma timersGrow_start s : timersGrow s (start s).
Proof. destruct s. grow_tac. Qed.

Lemma timersGrow_stop s : timersGrow s (stop s).
Proof.
  destruct s as [? ? ? ? ? ? [?|] ? ? ? [?|] ? [?|] [?|] ? ? ? [|] ? ? ? ? ? ?];
    grow_tac.
Qed.

Lemma timersGrow_nextLevel s : timersGrow s (nextLevel s).
Proof.
  destruct s as [? ? ? ? ? ? [?|] ? ? ? ? ? [?|] ? ? ? ? ? ? ? ? ? ? ?];
    grow_tac.
Qed.

Lemma timersGrow_gameOver reason s : timersGrow s (gameOver reason s).
Proof.
  eapply timersGrow_trans; [apply timersGrow_stop|].
  apply timersGrow_view. reflexivity.
Qed.

Lemma timersGrow_handleItemReachedBasket item s :
  timersGrow s (handleItemReachedBasket item s).
Proof.
  unfold handleItemReachedBasket. case_decide.
  - unfold catchItem. destruct (isBomb item); [apply timersGrow_gameOver|].
    apply timersGrow_view. unfold showFeedback. cbn.
    by destruct (onScoreChange s).
  - destruct (isBomb item); cbn [negb]; [apply timersGrow_refl|].
    unfold missItem, showFeedback.
    set (s2 := if onMissChange _ then _ else _).
    assert (timersGrow s s2) as H2.
    { apply timersGrow_view. subst s2. by destruct (onMissChange _). }
    repeat case_decide.
    + eapply timersGrow_trans; [exact H2|]. by apply timersGrow_view.
    + eapply timersGrow_trans; [exact H2 | apply timersGrow_gameOver].
    + exact H2.
Qed.

Lemma timersGrow_updateItem s r : timersGrow s (updateItem s r).
Proof.
  unfold updateItem.
  destruct (heap s !! r) as [item|]; [|apply timersGrow_refl].
  destruct (caught item); [apply timersGrow_refl|].
  destruct (Qle_bool _ _); [|by apply timersGrow_view].
  match goal with
  | |- context [handleItemReachedBasket ?i ?t] =>
      pose proof (timersGrow_handleItemReachedBasket i t) as Hh;
      set (s2 := handleItemReachedBasket i t) in *
  end.
  eapply timersGrow_trans; [by apply timersGrow_view|].
  eapply timersGrow_trans; [exact Hh|].
  clearbody s2. destruct s2. grow_tac.
Qed.

Lemma timersGrow_itemUpdateTick s : timersGrow s (itemUpdateTick s).
Proof.
  unfold itemUpdateTick. destruct (_ || _); [apply timersGrow_refl|].
  generalize (items s). intros l. revert s.
  induction l as [|r l IH]; intros s; [apply timersGrow_refl|].
  cbn [foldl]. eapply timersGrow_trans; [apply timersGrow_updateItem | apply IH].
Qed.

Lemma timersGrow_levelTimerTick s : timersGrow s (levelTimerTick s).
Proof.
  unfold levelTimerTick. cbn zeta. case_decide; [|by apply timersGrow_view].
  unfold startLevelEnding. cbn zeta.
  set (s1 := clearInterval _ (clearInterval _ _)).
  assert (timersGrow s s1) as H1.
  { subst s1.
    destruct s as [? ? ? ? ? ? [?|] ? ? ? ? ? [?|] ? ? ? ? ? ? ? ? ? ? ?];
      grow_tac. }
  case_decide; [|exact H1].
  eapply timersGrow_trans; [exact H1 | apply timersGrow_nextLevel].
Qed.

Lemma timersGrow_levelUpCountdownTick s :
  timersGrow s (levelUpCountdownTick s).
Proof.
  unfold levelUpCountdownTick, resumeAfterLevelUp. cbn zeta.
  case_decide; [|by apply timersGrow_view].
  destruct s as [? ? ? ? ? ? ? ? ? ? [?|] ? [?|] ? ? ? [|] ? ? ? ? ? ? ?];
    grow_tac.
Qed.

Lemma timersGrow_timeoutFires h s : timersGrow s (timeoutFires h s).
Proof.
  unfold timeoutFires. destruct (timeouts s !! h) as [r|]; [|apply timersGrow_refl].
  set (s1 := set_timeouts _ s).
  assert (timersGrow s s1) as H1 by (subst s1; destruct s; grow_tac).
  unfold removeItem. destruct (indexOf _ _); [|exact H1]. cbn zeta.
  destruct (_ && _).
  - eapply timersGrow_trans; [exact H1|].
    eapply timersGrow_trans; [|apply timersGrow_nextLevel].
    by apply timersGrow_view.
  - eapply timersGrow_trans; [exact H1|]. by apply timersGrow_view.
Qed.

Lemma timersGrow_step s e : timersGrow s (step s e).
Proof.
  destruct e as [| |pose|c b|h d|h]; cbn [step].
  - apply timersGrow_start.
  - apply timersGrow_stop.
  - apply timersGrow_view. unfold moveBasket. destruct (negb _); [done|].
    destruct (poseToZone pose); [|done]. case_decide; [|done].
    cbn. by destruct (onBasketMove s).
  - apply timersGrow_view. by destruct c.
  - unfold intervalFires. destruct (intervals s !! h) as [[| | |]|].
    + apply timersGrow_levelTimerTick.
    + unfold itemSpawnTick. destruct (_ && _); [|apply timersGrow_refl].
      by apply timersGrow_view.
    + apply timersGrow_itemUpdateTick.
    + apply timersGrow_levelUpCountdownTick.
    + apply timersGrow_refl.
  - apply timersGrow_timeoutFires.
Qed.

Lemma handlesFresh_run es : handlesFresh (run es).
Proof.
  unfold run. induction es as [|e' es IH] using rev_ind.
  - cbn [foldl]. split; [|split].
    + intros h k H. change (intervals init) with (∅ : gmap nat Interval) in H.
      by rewrite lookup_empty in H.
    + intros h r H. change (timeouts init) with (∅ : gmap nat nat) in H.
      by rewrite lookup_empty in H.
    + intros h H. unfold held in H. cbn in H. by destruct_or!.
  - rewrite foldl_app. cbn [foldl].
    eapply handlesFresh_grow; [apply timersGrow_step | exact IH].
Qed.

(** X6.  A [start] on a running engine does not stop the timers of the
    run it replaces: in every reachable state [start] keeps each live
    interval and adds three under the next three handles.  Only these three
    (and a countdown handle left from before) are held afterwards, so a
    [stop] that follows leaves the earlier intervals ticking. *)
Theorem start_leaks_timers (es : list Event) :
  let s := run es in
  let n := nextTimer s in
  (∀ h k, intervals s !! h = Some k → intervals (start s) !! h = Some k) ∧
  size (intervals (start s)) = (size (intervals s) + 3)%nat ∧
  intervals (start s) !! n = Some LevelTimerTick ∧
  intervals (start s) !! S n = Some ItemSpawnTick ∧
  intervals (start s) !! S (S n) = Some ItemUpdateTick ∧
  (∀ h, held (start s) h ↔
        h = n ∨ h = S n ∨ h = S (S n) ∨ levelUpCountdownTimer s = Some h) ∧
  (∀ h k, intervals s !! h = Some k → levelUpCountdownTimer s ≠ Some h →
     intervals (stop (start s)) !! h = Some k).
Proof.
  cbn zeta. destruct (handlesFresh_run es) as (Fi & _ & _).
  generalize dependent (run es). intros s Fi.
  assert (∀ h, (nextTimer s ≤ h)%nat → intervals s !! h = None) as Hnone.
  { intros h Hh. destruct (intervals s !! h) eqn:E; [|done].
    specialize (Fi _ _ E). lia. }
  destruct s as [? ? ? ? ? ? ? ? ? ? lc ? ? ? ? ? ? cb ? ? iv ? n ?].
  cbn in *. split; [|split; [|split; [|split; [|split; [|split]]]]].
  - intros h k H. specialize (Fi _ _ H).
    by rewrite !lookup_insert_ne by lia.
  - rewrite !map_size_insert_None; [lia|..];
      rewrite ?lookup_insert_ne by lia; apply Hnone; lia.
  - by rewrite !lookup_insert_ne, lookup_insert_eq by lia.
  - by rewrite lookup_insert_ne, lookup_insert_eq by lia.
  - by rewrite lookup_insert_eq.
  - intros h. unfold held. cbn.
    split; intros H; destruct_or!; simplify_eq; eauto 6.
  - intros h k H Hlc. specialize (Fi _ _ H).
    destruct lc as [c|], cb; cbn;
      rewrite ?lookup_delete_ne by (lia || congruence);
      by rewrite !lookup_insert_ne by lia.
Qed.

Lemma nextLevel_timers s :
  levelTimer (nextLevel s) = levelTimer s ∧
  itemSpawnTimer (nextLevel s) = itemSpawnTimer s ∧
  nextTimer (nextLevel s) = S (nextTimer s) ∧
  onLevelChange (nextLevel s) = onLevelChange s.
Proof.
  destruct s as [? ? ? ? ? ? [?|] ? ? ? ? ? [?|] ? ? ? ? ? ? ? ? ? ? ?];
    repeat split; reflexivity.
Qed.

Lemma levelUpCountdownTick_resumes s :
  levelUpCountdown s <= 1 →
  levelUpCountdownTick s =
    resumeAfterLevelUp
      (clearInterval (levelUpCountdownTimer s)
         (set_levelUpCountdown (levelUpCountdown s - 1) s)).
Proof.
  intros H. unfold levelUpCountdownTick. cbn zeta.
  rewrite decide_True; [done | cbn; lia].
Qed.

Lemma resumeAfterLevelUp_fields p h :
  (h < nextTimer p)%nat →
  (∀ a, levelTimer p = Some a → (a < nextTimer p)%nat) →
  (∀ b, itemSpawnTimer p = Some b → (b < nextTimer p)%nat) →
  let n := nextTimer p in
  let r := resumeAfterLevelUp (clearInterval (Some h) p) in
  isLevelUpPause r = false ∧ level r = level p ∧
  levelTimeRemaining r = levelTimeRemaining p ∧
  items r = items p ∧ heap r = heap p ∧
  intervals r !! h = None ∧
  levelTimer r = Some n ∧ intervals r !! n = Some LevelTimerTick ∧
  itemSpawnTimer r = Some (S n) ∧ intervals r !! S n = Some ItemSpawnTick ∧
  nextTimer r = S (S n) ∧
  out r = out p ++ (if onLevelChange p then [LevelChange (level p)] else []).
Proof.
  intros Hh F1 F2.
  destruct p as [? ? ? ? ? ? a ? ? ? ? ? [b|] ? ? ? [|] ? ? ? ? ? n ?];
    cbn in *;
    try (specialize (F2 _ eq_refl));
    rewrite ?app_nil_r;
    repeat split; try reflexivity;
    repeat (rewrite lookup_insert || rewrite lookup_delete);
    repeat case_decide; first [ reflexivity | lia ].
Qed.

(** X7.  From [nextLevel] on, in any reachable state, the updater is
    suspended and the countdown interval started by the pause is live; its
    first two ticks only count down, and the third ends the pause: the
    countdown interval is cleared, a level timer and a spawner are started
    under the next two handles, and the level change is reported once, with
    the level raised by one. *)
Theorem level_up_pause_resumes (es : list Event) (d : Draws) :
  let s := run es in
  let h := nextTimer s in
  let paused := nextLevel s in
  let waiting := foldl step paused (replicate 2 (IntervalFires h d)) in
  let resumed := step waiting (IntervalFires h d) in
  (isLevelUpPause paused = true ∧ itemUpdateTick paused = paused ∧
   intervals paused !! h = Some LevelUpCountdownTick) ∧
  (waiting = set_levelUpCountdown 1 paused) ∧
  (isLevelUpPause resumed = false ∧ level resumed = level s + 1 ∧
   levelTimeRemaining resumed = levelTimeLimit ∧
   items resumed = items s ∧ heap resumed = heap s ∧
   intervals resumed !! h = None ∧
   levelTimer resumed = Some (S h) ∧
   intervals resumed !! S h = Some LevelTimerTick ∧
   itemSpawnTimer resumed = Some (S (S h)) ∧
   intervals resumed !! S (S h) = Some ItemSpawnTick ∧
   nextTimer resumed = S (S (S h)) ∧
   out resumed =
     out s ++ (if onLevelChange s then [LevelChange (level s + 1)] else [])).
Proof.
  cbn zeta. destruct (handlesFresh_run es) as (_ & _ & Fh).
  generalize dependent (run es). intros s Fh.
  destruct (nextLevel_fields s) as (Hl & Ht & Hi & Hh & _ & _ & Hp & Hc & _ &
    _ & _ & Ho & Htm & Hiv). cbn zeta in *.
  destruct (nextLevel_timers s) as (T1 & T2 & T3 & T4).
  assert (∀ a, levelTimer s = Some a → (a < nextTimer s)%nat) as F1
    by (intros a H; apply Fh; unfold held; eauto).
  assert (∀ b, itemSpawnTimer s = Some b → (b < nextTimer s)%nat) as F2
    by (intros b H; apply Fh; unfold held; eauto).
  clear Fh. generalize dependent (nextLevel s).
  intros p Hl Ht Hi Hh Hp Hc Ho Htm Hiv T1 T2 T3 T4.
  assert (foldl step p (replicate 2 (IntervalFires (nextTimer s) d))
          = set_levelUpCountdown 1 p) as Hw.
  { cbn [replicate foldl step]. unfold intervalFires. rewrite Hiv.
    rewrite levelUpCountdownTick_waits by (rewrite Hc; lia).
    cbn [intervals set_levelUpCountdown]. rewrite Hiv.
    rewrite levelUpCountdownTick_waits
      by (cbn [levelUpCountdown set_levelUpCountdown]; rewrite Hc; lia).
    cbn [levelUpCountdown set_levelUpCountdown]. rewrite Hc. by destruct p. }
  split.
  { split; [exact Hp|]. split; [|exact Hiv]. unfold itemUpdateTick.
    rewrite Hp, orb_true_r. reflexivity. }
  split; [exact Hw|]. rewrite Hw.
  cbn [step]. unfold intervalFires. cbn [intervals set_levelUpCountdown].
  rewrite Hiv.
  rewrite levelUpCountdownTick_resumes
    by (cbn [levelUpCountdown set_levelUpCountdown]; lia).
  cbn [levelUpCountdown levelUpCountdownTimer set_levelUpCountdown].
  rewrite Htm.
  set (q := set_levelUpCountdown (1 - 1) (set_levelUpCountdown 1 p)).
  assert (nextTimer q = S (nextTimer s) ∧ levelTimer q = levelTimer s ∧
          itemSpawnTimer q = itemSpawnTimer s ∧ level q = level s + 1 ∧
          levelTimeRemaining q = levelTimeLimit ∧ items q = items s ∧
          heap q = heap s ∧ out q = out s ∧
          onLevelChange q = onLevelChange s)
    as (Q1 & Q2 & Q3 & Q4 & Q5 & Q6 & Q7 & Q8 & Q9).
  { subst q. cbn. repeat split; congruence. }
  destruct (resumeAfterLevelUp_fields q (nextTimer s))
    as (R1 & R2 & R3 & R4 & R5 & R6 & R7 & R8 & R9 & R10 & R11 & R12).
  { rewrite Q1. lia. }
  { intros a Ha. rewrite Q2 in Ha. rewrite Q1. specialize (F1 _ Ha). lia. }
  { intros b Hb. rewrite Q3 in Hb. rewrite Q1. specialize (F2 _ Hb). lia. }
  rewrite Q1 in *. rewrite Q4, Q9, Q8 in R12.
  repeat split; congruence.
Qed.

(** ** Counters *)

Lemma countersStep_refl s : countersStep s s.
Proof. unfold countersStep. repeat split; (lia || done). Qed.

Lemma countersStep_trans s1 s2 s3 :
  countersStep s1 s2 → countersStep s2 s3 → countersStep s1 s3.
Proof.
  intros (A1 & A2 & A3 & A4 & A5) (B1 & B2 & B3 & B4 & B5).
  repeat split; try lia; auto.
Qed.

Lemma countersStep_view s s' : counters s' = counters s → countersStep s s'.
Proof.
  unfold counters, countersStep. intros [= -> -> -> -> ->].
  repeat split; (lia || done).
Qed.

Lemma counters_stop s : counters (stop s) = counters s.
Proof.
  destruct s as [? ? ? ? ? ? [?|] ? ? ? [?|] ? [?|] [?|] ? ? ? [|] ? ? ? ? ? ?];
    reflexivity.
Qed.

Lemma countersStep_gameOver reason s : countersStep s (gameOver reason s).
Proof.
  apply countersStep_view. unfold gameOver. rewrite <- (counters_stop s).
  reflexivity.
Qed.

Lemma countersStep_nextLevel s : countersStep s (nextLevel s).
Proof.
  destruct s as [? ? ? ? ? ? [?|] ? ? ? ? ? [?|] ? ? ? ? ? ? ? ? ? ? ?];
    unfold countersStep, levelTimeLimit; cbn; repeat split; (lia || done).
Qed.

Lemma countersStep_handleItemReachedBasket item s :
  0 <= points item →
  countersStep s (handleItemReachedBasket item s).
Proof.
  intros Hp. unfold handleItemReachedBasket. case_decide.
  - unfold catchItem. destruct (isBomb item); [apply countersStep_gameOver|].
    unfold showFeedback, countersStep. destruct (onScoreChange _); cbn;
      repeat split; (lia || done).
  - destruct (isBomb item); cbn [negb]; [apply countersStep_refl|].
    unfold missItem, showFeedback.
    set (s2 := if onMissChange _ then _ else _).
    assert (countersStep s s2) as H2.
    { subst s2. unfold countersStep. destruct (onMissChange _); cbn;
        repeat split; (lia || done). }
    repeat case_decide.
    + eapply countersStep_trans; [exact H2|]. by apply countersStep_view.
    + eapply countersStep_trans; [exact H2 | apply countersStep_gameOver].
    + exact H2.
Qed.

Lemma itemOK_points item : itemOK item → 0 <= points item.
Proof.
  intros (Hty & _). destruct (fromItemTypes_inv _ Hty) as [-> _].
  destruct (type item); cbn; lia.
Qed.

Lemma heapOK_updateItem s r : heapOK s → heapOK (updateItem s r).
Proof.
  intros H r' item'. rewrite heap_updateItem. case_decide.
  - destruct (heap s !! r) as [item|] eqn:E; [|done]. cbn.
    intros [= <-]. eapply itemOK_tickItem, H. done.
  - apply H.
Qed.

Lemma countersStep_updateItem s r :
  heapOK s → countersStep s (updateItem s r).
Proof.
  intros HOK. unfold updateItem.
  destruct (heap s !! r) as [item|] eqn:E; [|apply countersStep_refl].
  destruct (caught item); [apply countersStep_refl|].
  destruct (Qle_bool _ _); [|by apply countersStep_view].
  match goal with
  | |- context [handleItemReachedBasket ?i ?t] =>
      pose proof (countersStep_handleItemReachedBasket i t) as Hh;
      set (s2 := handleItemReachedBasket i t) in *
  end.
  eapply countersStep_trans; [by apply countersStep_view|].
  eapply countersStep_trans; [apply Hh|by apply countersStep_view].
  cbn. eapply itemOK_points, HOK. done.
Qed.

Lemma countersStep_itemUpdateTick s :
  heapOK s → countersStep s (itemUpdateTick s).
Proof.
  unfold itemUpdateTick. destruct (_ || _); [intros; apply countersStep_refl|].
  generalize (items s). intros l. revert s.
  induction l as [|r l IH]; intros s HOK; [apply countersStep_refl|].
  cbn [foldl]. eapply countersStep_trans; [by apply countersStep_updateItem|].
  apply IH. by apply heapOK_updateItem.
Qed.

Lemma countersStep_levelTimerTick s : countersStep s (levelTimerTick s).
Proof.
  unfold levelTimerTick. cbn zeta.
  set (s1 := set_levelTimeRemaining _ s).
  assert (countersStep s s1) as H1.
  { subst s1. unfold countersStep. cbn. repeat split; (lia || done). }
  case_decide; [|exact H1].
  unfold startLevelEnding. cbn zeta.
  set (s2 := clearInterval _ (clearInterval _ _)).
  assert (countersStep s1 s2) as H2.
  { apply countersStep_view. subst s2.
    destruct s1 as [? ? ? ? ? ? [?|] ? ? ? ? ? [?|] ? ? ? ? ? ? ? ? ? ? ?];
      reflexivity. }
  case_decide.
  - eapply countersStep_trans; [exact H1|].
    eapply countersStep_trans; [exact H2 | apply countersStep_nextLevel].
  - eapply countersStep_trans; [exact H1 | exact H2].
Qed.

Lemma countersStep_levelUpCountdownTick s :
  countersStep s (levelUpCountdownTick s).
Proof.
  unfold levelUpCountdownTick, resumeAfterLevelUp. cbn zeta.
  case_decide.
  - destruct s as [? ? ? ? ? ? ? ? ? ? [?|] ? [?|] ? ? ? [|] ? ? ? ? ? ? ?];
      unfold countersStep; cbn in *; repeat split; (lia || done).
  - unfold countersStep. cbn. repeat split; (lia || done).
Qed.

Lemma countersStep_timeoutFires h s : countersStep s (timeoutFires h s).
Proof.
  unfold timeoutFires. destruct (timeouts s !! h) as [r|]; [|apply countersStep_refl].
  unfold removeItem. destruct (indexOf _ _); [|by apply countersStep_view].
  cbn zeta. destruct (_ && _); [|by apply countersStep_view].
  eapply countersStep_trans; [|apply countersStep_nextLevel].
  by apply countersStep_view.
Qed.

Lemma countersStep_step s e :
  heapOK s → e ≠ CallStart → countersStep s (step s e).
Proof.
  intros HOK Hne. destruct e as [| |pose|c b|h d|h]; cbn [step]; [done|..].
  - apply countersStep_view, counters_stop.
  - apply countersStep_view. unfold moveBasket. destruct (negb _); [done|].
    destruct (poseToZone pose); [|done]. case_decide; [|done].
    cbn. by destruct (onBasketMove s).
  - apply countersStep_view. by destruct c.
  - unfold intervalFires. destruct (intervals s !! h) as [[| | |]|].
    + apply countersStep_levelTimerTick.
    + unfold itemSpawnTick. destruct (_ && _); [|apply countersStep_refl].
      by apply countersStep_view.
    + by apply countersStep_itemUpdateTick.
    + apply countersStep_levelUpCountdownTick.
    + apply countersStep_refl.
  - apply countersStep_timeoutFires.
Qed.

Lemma countersOK_run es : countersOK (run es).
Proof.
  unfold run. induction es as [|e es IH] using rev_ind.
  - unfold countersOK. cbn. unfold levelTimeLimit. lia.
  - rewrite foldl_app. cbn [foldl].
    assert (e = CallStart ∨ e ≠ CallStart) as [->|Hne]
      by (destruct e; (by left) || (by right)).
    + unfold countersOK. cbn [step].
      destruct IH as (_ & _ & _ & _ & Hc).
      destruct (foldl step init es). cbn in *. unfold levelTimeLimit. lia.
    + destruct (Inv_run es) as (_ & _ & HOK).
      destruct (countersStep_step (foldl step init es) e HOK Hne)
        as (A1 & A2 & A3 & A4 & A5).
      destruct IH as (B1 & B2 & B3 & B4 & B5).
      unfold countersOK. repeat split; try lia; auto.
Qed.

(** X8.  In every reachable state the score and the miss count are not
    negative, the level is at least 1, the level time is at most 20 and the
    level-up countdown at most 3; and no event other than a new [start]
    lowers the score, the miss count or the level. *)
Theorem counters_never_decrease (es : list Event) (e : Event) :
  countersOK (run es) ∧
  (e ≠ CallStart →
   score (run es) <= score (step (run es) e) ∧
   missCount (run es) <= missCount (step (run es) e) ∧
   level (run es) <= level (step (run es) e)).
Proof.
  split; [apply countersOK_run|]. intros Hne.
  destruct (Inv_run es) as (_ & _ & HOK).
  destruct (countersStep_step (run es) e HOK Hne) as (? & ? & ? & _).
  done.
Qed.

(** ** Pending removals *)

Lemma store_view s s' :
  world s' = world s → store s' = store s.
Proof. unfold world, store. intros [= _ _ -> -> -> _ _ _]. done. Qed.

Lemma store_nextLevel s : store (nextLevel s) = store s.
Proof.
  destruct s as [? ? ? ? ? ? [?|] ? ? ? ? ? [?|] ? ? ? ? ? ? ? ? ? ? ?];
    reflexivity.
Qed.

Lemma store_levelTimerTick s : store (levelTimerTick s) = store s.
Proof.
  unfold levelTimerTick. cbn zeta. case_decide; [|done].
  unfold startLevelEnding. cbn zeta.
  set (s1 := clearInterval _ (clearInterval _ _)).
  assert (store s1 = store s) as <-.
  { subst s1.
    destruct s as [? ? ? ? ? ? [?|] ? ? ? ? ? [?|] ? ? ? ? ? ? ? ? ? ? ?];
      reflexivity. }
  case_decide; [apply store_nextLevel | done].
Qed.

Lemma store_levelUpCountdownTick s : store (levelUpCountdownTick s) = store s.
Proof.
  destruct (levelUpCountdownTick_fields s) as (_ & _ & Hi & Hh & Ht & _).
  unfold store. by rewrite Hi, Hh, Ht.
Qed.

Lemma removalsPending_store s s' :
  store s' = store s → removalsPending s → removalsPending s'.
Proof. unfold store, removalsPending. intros [= -> -> ->]. done. Qed.

Lemma timeouts_updateItem s r :
  match heap s !! r with
  | Some item =>
    if caught item then updateItem s r = s
    else if Qle_bool catchLine (fadd (progress item) (fdiv deltaTime (dropTime item)))
         then timeouts (updateItem s r) = <[nextTimer s := r]> (timeouts s)
         else timeouts (updateItem s r) = timeouts s
  | None => updateItem s r = s
  end.
Proof.
  unfold updateItem. destruct (heap s !! r) as [item|]; [|done].
  destruct (caught item); [done|]. cbn [progress set_progress].
  destruct (Qle_bool _ _); [|done].
  unfold setTimeout. cbn [timeouts set_nextTimer set_timeouts].
  match goal with
  | |- context [handleItemReachedBasket ?i ?t] =>
      destruct (world_inv _ _ (world_handleItemReachedBasket i t))
        as (_ & _ & _ & _ & -> & -> & _)
  end.
  done.
Qed.

Lemma caught_tickItem item :
  caught (tickItem item) = true →
  caught item = true ∨
  (caught item = false ∧
   Qle_bool catchLine (fadd (progress item) (fdiv deltaTime (dropTime item))) = true).
Proof.
  unfold tickItem, fall. destruct (caught item) eqn:Hc; [by left|].
  cbn [progress set_progress]. destruct (Qle_bool _ _); [by right|].
  cbn. congruence.
Qed.

Lemma removalsPending_updateItem s r0 :
  handlesFresh s → removalsPending s → removalsPending (updateItem s r0).
Proof.
  intros (_ & Ft & _) (P1 & P2).
  pose proof (timeouts_updateItem s r0) as Ht.
  destruct (rules_inv _ _ (rules_updateItem s r0)) as (_ & _ & Hitems & _).
  assert (∀ h r, timeouts s !! h = Some r →
                 timeouts (updateItem s r0) !! h = Some r) as Hkeep.
  { intros h r H. destruct (heap s !! r0) as [item|]; [|by rewrite Ht].
    destruct (caught item); [by rewrite Ht|].
    destruct (Qle_bool _ _); rewrite Ht; [|done].
    rewrite lookup_insert_ne; [done|]. specialize (Ft _ _ H). lia. }
  split.
  - intros r item' Hr Hh Hc. rewrite Hitems in Hr.
    rewrite heap_updateItem in Hh. case_decide as Heq.
    + subst r. destruct (heap s !! r0) as [item|] eqn:E; [|done].
      cbn in Hh. injection Hh as <-.
      destruct (caught_tickItem _ Hc) as [Hc0|[Hc0 Hq]].
      * destruct (P1 _ _ Hr E Hc0) as [h H]. exists h. by apply Hkeep.
      * rewrite Hc0, Hq in Ht. exists (nextTimer s).
        rewrite Ht. apply lookup_insert_eq.
    + destruct (P1 _ _ Hr Hh Hc) as [h H]. exists h. by apply Hkeep.
  - intros h r H.
    assert (timeouts s !! h = Some r ∨
            (r = r0 ∧ ∃ item, heap s !! r0 = Some item ∧ caught item = false ∧
               Qle_bool catchLine (fadd (progress item) (fdiv deltaTime (dropTime item)))
               = true)) as [Hold|(-> & item & E & Hc0 & Hq)].
    { destruct (heap s !! r0) as [item|] eqn:E; [|rewrite Ht in H; by left].
      destruct (caught item) eqn:Hc0; [rewrite Ht in H; by left|].
      destruct (Qle_bool _ _) eqn:Hq; rewrite Ht in H; [|by left].
      apply lookup_insert_Some in H as [[_ <-]|[_ H]]; [|by left].
      right. split; [done|]. by exists item. }
    + destruct (P2 _ _ Hold) as (item & E & Hc).
      assert (tickItem item = item) as Hsame by (unfold tickItem; by rewrite Hc).
      exists item. split; [|done]. rewrite heap_updateItem.
      case_decide; [subst; rewrite E; cbn; by rewrite Hsame | done].
    + exists (tickItem item). rewrite heap_updateItem, decide_True, E by done.
      split; [done|]. unfold tickItem, fall. rewrite Hc0.
      cbn [progress set_progress]. by rewrite Hq.
Qed.

Lemma removalsPending_itemUpdateTick s :
  handlesFresh s → removalsPending s → removalsPending (itemUpdateTick s).
Proof.
  unfold itemUpdateTick. destruct (_ || _); [done|].
  generalize (items s). intros l. revert s.
  induction l as [|r l IH]; intros s HF HP; [done|].
  cbn [foldl]. apply IH.
  - eapply handlesFresh_grow; [apply timersGrow_updateItem | done].
  - by apply removalsPending_updateItem.
Qed.

Lemma indexOf_Some r l i : indexOf r l = Some i → l !! i = Some r.
Proof.
  unfold indexOf. intros H. apply fmap_Some in H as ([j x] & Hf & ->).
  by apply list_find_Some in Hf as (? & -> & _).
Qed.

Lemma indexOf_None r l : indexOf r l = None → r ∉ l.
Proof.
  unfold indexOf. intros H Hin. apply fmap_None in H.
  apply list_find_None in H. rewrite Forall_forall in H. by apply (H r).
Qed.

Lemma not_elem_of_delete_NoDup (l : list nat) i r :
  NoDup l → l !! i = Some r → r ∉ delete i l.
Proof.
  intros Hnd Hi Hin.
  rewrite <- (take_drop_middle l i r Hi) in Hnd.
  apply NoDup_app in Hnd as (_ & Hdis & Hnd).
  apply NoDup_cons in Hnd as [Hr _].
  rewrite delete_take_drop in Hin. apply elem_of_app in Hin as [Hin|Hin].
  - apply (Hdis _ Hin). apply list_elem_of_here.
  - done.
Qed.

Lemma timeouts_removeItem r s : timeouts (removeItem r s) = timeouts s.
Proof.
  unfold removeItem. destruct (indexOf _ _); [|done]. cbn zeta.
  destruct (_ && _); [|done].
  match goal with
  | |- context [nextLevel ?t] =>
      destruct (nextLevel_fields t) as (_ & _ & _ & _ & Ht & _)
  end.
  rewrite Ht. reflexivity.
Qed.

Lemma removalsPending_timeoutFires h s :
  Inv s → removalsPending s → removalsPending (timeoutFires h s).
Proof.
  intros (Hnd & _ & _) (P1 & P2).
  unfold timeoutFires. destruct (timeouts s !! h) as [r0|] eqn:Eh; [|done].
  set (s1 := set_timeouts _ s).
  destruct (removeItem_fields r0 s1) as (Hheap & Hnot & Hix).
  pose proof (timeouts_removeItem r0 s1) as Ht.
  change (heap s1) with (heap s) in *. change (items s1) with (items s) in *.
  change (timeouts s1) with (delete h (timeouts s)) in *.
  assert ((r0 ∉ items (removeItem r0 s1)) ∧
          (∀ r, r ∈ items (removeItem r0 s1) → r ∈ items s)) as [Hgone Hsub].
  { destruct (indexOf r0 (items s)) as [i|] eqn:E.
    - destruct (Hix i eq_refl) as (-> & _). split.
      + apply not_elem_of_delete_NoDup; [done|]. by apply indexOf_Some.
      + intros r Hr. eapply elem_of_sublist; [exact Hr | apply sublist_delete].
    - apply indexOf_None in E. rewrite (Hnot E). cbn. done. }
  split.
  - intros r item Hr Hh Hc. rewrite Hheap in Hh.
    destruct (P1 _ _ (Hsub _ Hr) Hh Hc) as [h' H'].
    exists h'. rewrite Ht. rewrite lookup_delete_ne; [done|].
    intros <-. rewrite Eh in H'. injection H' as ->. done.
  - intros h' r H. rewrite Ht in H. apply lookup_delete_Some in H as [_ H].
    rewrite Hheap. by eapply P2.
Qed.

Lemma removalsPending_step s e :
  Inv s → handlesFresh s → removalsPending s → removalsPending (step s e).
Proof.
  intros HI HF HP. destruct e as [| |pose|c b|h d|h]; cbn [step].
  - destruct HP as [_ P2]. split.
    + intros r item Hr. cbn in Hr. by apply elem_of_nil in Hr.
    + intros h r H. apply (P2 h r). by destruct s.
  - eapply removalsPending_store; [|done]. apply store_view, world_stop.
  - eapply removalsPending_store; [|done].
    unfold moveBasket. destruct (negb _); [done|].
    destruct (poseToZone pose); [|done]. case_decide; [|done].
    cbn. by destruct (onBasketMove s).
  - eapply removalsPending_store; [|done]. by destruct c.
  - unfold intervalFires. destruct (intervals s !! h) as [[| | |]|]; [| | | |done].
    + eapply removalsPending_store; [apply store_levelTimerTick | done].
    + unfold itemSpawnTick. destruct (_ && _); [|done].
      destruct HI as (_ & Hlt & _). destruct HP as [P1 P2].
      destruct (spawnItem_fields d s) as (_ & _ & Hi & item & Hh & _ & _ & Hc & _).
      assert (timeouts (spawnItem d s) = timeouts s) as Ht by done.
      split.
      * intros r it Hr Hit Hcaught. rewrite Hi in Hr. rewrite Hh in Hit.
        rewrite Ht. apply elem_of_app in Hr as [Hr|Hr].
        -- rewrite lookup_app_l in Hit by (by apply Hlt). by eapply P1.
        -- apply list_elem_of_singleton in Hr. subst r.
           rewrite lookup_app_r, Nat.sub_diag in Hit by done.
           injection Hit as <-. congruence.
      * intros h' r H. rewrite Ht in H. destruct (P2 _ _ H) as (it & E & Hcaught).
        exists it. split; [|done]. rewrite Hh. by apply lookup_app_l_Some.
    + by apply removalsPending_itemUpdateTick.
    + eapply removalsPending_store; [apply store_levelUpCountdownTick | done].
  - by apply removalsPending_timeoutFires.
Qed.

Lemma removalsPending_run es : removalsPending (run es).
Proof.
  induction es as [|e es IH] using rev_ind.
  - split.
    + intros r item Hr. by apply elem_of_nil in Hr.
    + intros h r H. change (timeouts (run [])) with (∅ : gmap nat nat) in H.
      by rewrite lookup_empty in H.
  - unfold run in *. rewrite foldl_app. cbn [foldl].
    apply removalsPending_step; [apply Inv_run | apply handlesFresh_run | done].
Qed.

(** X9.  In every reachable state each caught item that is still in the
    collection has a removal pending, so no caught item stays for good, and
    every pending removal is for an item object that is caught; firing a
    removal takes exactly its own item out of the collection, or nothing
    when the item is no longer there. *)
Theorem caught_items_await_removal (es : list Event) (h r : nat) :
  let s := run es in
  removalsPending s ∧
  (timeouts s !! h = Some r →
   timeouts (step s (TimeoutFires h)) = delete h (timeouts s) ∧
   heap (step s (TimeoutFires h)) = heap s ∧
   (r ∉ items (step s (TimeoutFires h))) ∧
   (∀ r', r' ≠ r → (r' ∈ items (step s (TimeoutFires h)) ↔ r' ∈ items s))).
Proof.
  cbn zeta. split; [apply removalsPending_run|]. intros Hh.
  destruct (Inv_run es) as (Hnd & _ & _).
  cbn [step]. unfold timeoutFires. rewrite Hh.
  set (s1 := set_timeouts _ (run es)).
  destruct (removeItem_fields r s1) as (Hheap & Hnot & Hix).
  pose proof (timeouts_removeItem r s1) as Ht.
  change (heap s1) with (heap (run es)) in *.
  change (items s1) with (items (run es)) in *.
  change (timeouts s1) with (delete h (timeouts (run es))) in *.
  split; [exact Ht|]. split; [exact Hheap|].
  destruct (indexOf r (items (run es))) as [i|] eqn:E.
  - destruct (Hix i eq_refl) as (-> & _).
    pose proof (indexOf_Some _ _ _ E) as Hi.
    split; [by apply not_elem_of_delete_NoDup|].
    intros r' Hne. rewrite delete_take_drop.
    rewrite <- (take_drop_middle _ _ _ Hi) at 3.
    rewrite !elem_of_app, elem_of_cons. split.
    + intros [?|?]; [by left | right; by right].
    + intros [?|[?|?]]; [by left | done | by right].
  - apply indexOf_None in E. rewrite (Hnot E). cbn. done.
Qed.

(** ** The item store *)

Lemma dropTime_bounds_run es r item :
  heap (run es) !! r = Some item →
  (minDropTime <= dropTime item)%Q ∧ (dropTime item <= baseDropTime)%Q.
Proof.
  revert r item. unfold run.
  induction es as [|e es IH] using rev_ind; intros r item.
  - cbn [foldl]. change (heap init) with (@nil Item). by rewrite lookup_nil.
  - rewrite foldl_app. cbn [foldl]. intros Hr.
    destruct (Inv_run es) as (Hnd & _ & _).
    destruct (countersOK_run es) as (_ & Hlevel & _).
    fold (run es) in *.
    destruct (heap (run es) !! r) as [item0|] eqn:E.
    + destruct (heap_step (run es) e r Hnd) as [Hsome _].
      destruct (Hsome _ E) as [H|H]; rewrite H in Hr; injection Hr as <-.
      * by eapply IH.
      * rewrite dropTime_tickItem. by eapply IH.
    + destruct (heap_step_new _ _ _ _ E Hr) as (-> & _).
      destruct (getDropTime_bounds (run es)) as [Hmin Hmax].
      split; [exact Hmin | by apply Hmax].
Qed.

(** X10.  In every reachable state the collection holds distinct item
    objects, all of them allocated; and every item object ever created has
    the kind, points and hazard flag of one entry of [itemTypes], a drop
    time between 0.6 and 2.0 seconds, and a progress between 0 and 0.85
    that equals 0.85 exactly when the item is caught.  Here 0.6 and 0.85
    are the binary64 numbers that the source's literals denote; and the
    drop time is that of one of the levels 1 to 8. *)
Theorem item_store_invariant (es : list Event) :
  NoDup (items (run es)) ∧
  (∀ r, r ∈ items (run es) → is_Some (heap (run es) !! r)) ∧
  (∀ r item, heap (run es) !! r = Some item →
     fromItemTypes item ∧
     (round64 0.6 <= dropTime item)%Q ∧ (dropTime item <= 2.0)%Q ∧
     (0 <= progress item)%Q ∧ (progress item <= round64 0.85)%Q ∧
     (caught item = true ↔ progress item = catchLine) ∧
     (∃ L, 1 <= L <= 8 ∧ dropTime item = getDropTime (set_level L init))).
Proof.
  destruct (Inv_run es) as (Hnd & Hlt & Hok).
  split; [exact Hnd|]. split.
  - intros r Hr. apply lookup_lt_is_Some. by apply Hlt.
  - intros r item Hr.
    destruct (Hok _ _ Hr) as (Hty & _ & H0 & Hless & Heq).
    destruct (dropTime_bounds_run _ _ _ Hr) as [Hmin Hmax].
    destruct (onCurve_run _ _ _ Hr) as [Hd _].
    split; [exact Hty|]. split; [exact Hmin|]. split.
    { eapply Qle_trans; [exact Hmax|]. vm_compute. discriminate. }
    split; [exact H0|].
    change (round64 0.85) with catchLine.
    assert (∃ L, 1 <= L <= 8 ∧ dropTime item = getDropTime (set_level L init))
      as Hlevel.
    { unfold dropTimes in Hd. apply list_elem_of_fmap in Hd as (L & -> & HL).
      exists L. split; [|reflexivity].
      rewrite !elem_of_cons, elem_of_nil in HL. lia. }
    destruct (caught item) eqn:Hc.
    + rewrite (Heq eq_refl). split; [apply Qle_refl|]. split; [done|exact Hlevel].
    + specialize (Hless eq_refl).
      split; [by apply Qlt_le_weak|]. split; [|exact Hlevel]. split; [done|].
      intros E. rewrite E in Hless. by apply Qlt_irrefl in Hless.
Qed.

(** ** The length of a fall *)

Lemma ticks_caught n item : caught item = true → caught (ticks n item) = true.
Proof.
  revert item. induction n as [|n IH]; intros item Hc; [exact Hc|].
  cbn [ticks]. apply IH. unfold tickItem. by rewrite Hc.
Qed.

Lemma progressFrom_at_line fuel d p :
  (catchLine <= p)%Q → progressFrom fuel d p = [].
Proof.
  intros Hp. destruct fuel as [|fuel]; [done|]. cbn [progressFrom].
  apply Qle_bool_iff in Hp. by rewrite Hp.
Qed.

Lemma ticks_progressFrom fuel item n :
  caught item = false → (progress item < catchLine)%Q →
  (length (progressFrom fuel (dropTime item) (progress item)) < fuel)%nat →
  caught (ticks n item) =
    bool_decide (length (progressFrom fuel (dropTime item) (progress item)) ≤ n)%nat.
Proof.
  revert item n. induction fuel as [|fuel IH]; intros item n Hc Hp Hlen.
  { cbn in Hlen. lia. }
  cbn [progressFrom] in *.
  destruct (Qle_bool catchLine (progress item)) eqn:E.
  { apply Qle_bool_iff in E. exfalso. apply (Qlt_irrefl catchLine).
    eapply Qle_lt_trans; [exact E | exact Hp]. }
  cbn [length] in *.
  destruct n as [|n].
  { cbn [ticks]. rewrite Hc. symmetry. apply bool_decide_eq_false_2. lia. }
  cbn [ticks]. unfold tickItem at 1. rewrite Hc.
  destruct (fall_spec item) as [Hge Hless]. cbn zeta in *.
  destruct (Qlt_le_dec (fadd (progress item) (fdiv deltaTime (dropTime item)))
                       catchLine) as [Hl|Hg].
  - rewrite (Hless Hl).
    rewrite (IH (set_progress _ item) n Hc Hl) by (cbn [dropTime progress set_progress]; lia).
    cbn [dropTime progress set_progress].
    apply bool_decide_ext. lia.
  - rewrite (Hge Hg), ticks_caught by done.
    rewrite progressFrom_at_line by exact Hg.
    symmetry. apply bool_decide_eq_true_2. cbn. lia.
Qed.

Lemma ticksToCatchLine_table L :
  1 <= L →
  length (progressValues (getDropTime (set_level L init))) = ticksToCatchLine L.
Proof.
  intros HL.
  assert (L = 1 ∨ L = 2 ∨ L = 3 ∨ L = 4 ∨ L = 5 ∨ L = 6 ∨ L = 7 ∨ L = 8 ∨ 9 <= L)
    as Hcases by lia.
  destruct Hcases as [E|[E|[E|[E|[E|[E|[E|[E|E]]]]]]]];
    try (rewrite E; vm_compute; reflexivity).
  rewrite (getDropTime_floor (set_level L init)) by exact E.
  unfold ticksToCatchLine. repeat (rewrite decide_False by lia).
  vm_compute. reflexivity.
Qed.

(** X17.  A new item is caught on a tick that its level fixes: the
    updater sets [caught] on its 103rd pass over an item of level 1, on the
    92nd, 82nd, 72nd, 62nd, 51st and 41st at the levels 2 to 7, and on the
    31st from level 8 on, and never before; 102 passes at level 1 leave the
    item at 0.8499999999999994.  A pass is what the updater's callback does
    to the item object it is called with. *)
Theorem item_is_caught_on_a_fixed_tick (s : State) (item : Item) (n : nat) :
  1 <= level s →
  dropTime item = getDropTime s → progress item = 0%Q → caught item = false →
  caught (ticks n item) = bool_decide (ticksToCatchLine (level s) ≤ n)%nat ∧
  (∀ t r, heap (updateItem t r) !! r = tickItem <$> heap t !! r).
Proof.
  intros Hl Hd Hp Hc. split.
  - rewrite <- ticksToCatchLine_table by exact Hl.
    rewrite <- getDropTime_level, <- Hd. unfold progressValues. rewrite <- Hp.
    apply ticks_progressFrom; [exact Hc | rewrite Hp; vm_compute; reflexivity |].
    rewrite Hp, Hd, getDropTime_level.
    change (progressFrom 128 (getDropTime (set_level (level s) init)) 0)
      with (progressValues (getDropTime (set_level (level s) init))).
    rewrite ticksToCatchLine_table by exact Hl.
    unfold ticksToCatchLine. repeat case_decide; lia.
  - intros t r. rewrite heap_updateItem. by rewrite decide_True.
Qed.

Lemma item_is_caught_on_a_fixed_tick_witness :
  let s := run [CallStart; spawn pick1 false pick0] in
  let item := mkItem CENTER apple 100 false 0 2 false in
  1 <= level s ∧ heap s !! 0%nat = Some item ∧
  caught (ticks 102 item) = false ∧ caught (ticks 103 item) = true ∧
  progress (ticks 102 item) = (3828059683264919 # 4503599627370496)%Q ∧
  heap (run ([CallStart; spawn pick1 false pick0]
             ++ replicate 103 updaterTick)) !! 0%nat = Some (ticks 103 item).
Proof.
  cbn zeta.
  destruct (item_is_caught_on_a_fixed_tick
              (run [CallStart; spawn pick1 false pick0])
              (mkItem CENTER apple 100 false 0 2 false) 102) as [H102 _];
    [vm_compute; discriminate | vm_compute; reflexivity | reflexivity
    | reflexivity |].
  destruct (item_is_caught_on_a_fixed_tick
              (run [CallStart; spawn pick1 false pick0])
              (mkItem CENTER apple 100 false 0 2 false) 103) as [H103 _];
    [vm_compute; discriminate | vm_compute; reflexivity | reflexivity
    | reflexivity |].
  split; [vm_compute; discriminate|]. split; [vm_compute; reflexivity|].
  split; [exact H102|]. split; [exact H103|].
  split; vm_compute; reflexivity.
Defined.

(** ** Misses, and removals that outlive their run *)

(** X11.  While the engine is active fewer than [maxMisses] misses have
    been counted: the miss that reaches the limit always ends the game. *)
Theorem active_engine_has_missed_less (es : list Event) :
  isGameActive (run es) = true →
  0 <= missCount (run es) ∧ missCount (run es) < maxMisses.
Proof. intros Ha. by apply active_engine_below_miss_limit. Qed.

Lemma active_engine_has_missed_less_witness :
  let es := setupGameCallbacks ++ [CallStart; spawn pick0 false pick0]
            ++ replicate 103 updaterTick in
  isGameActive (run es) = true ∧ missCount (run es) = 1 ∧
  missCount (run es) < maxMisses.
Proof.
  cbn zeta.
  destruct (active_engine_has_missed_less
              (setupGameCallbacks ++ [CallStart; spawn pick0 false pick0]
               ++ replicate 103 updaterTick)) as [_ H];
    [vm_compute; reflexivity|].
  split; [vm_compute; reflexivity|]. split; [vm_compute; reflexivity | exact H].
Defined.

(** X12.  A removal scheduled in one run and fired after a later [start]
    finds its item in no collection of the new run: it is dropped from the
    pending removals and nothing else changes, whatever happened in
    between. *)
Theorem removal_after_restart_is_inert (es1 es2 : list Event) (h r : nat) :
  let old := run es1 in
  let s := foldl step (start old) es2 in
  (r < length (heap old))%nat →
  timeouts s !! h = Some r →
  step s (TimeoutFires h) = set_timeouts (delete h (timeouts s)) s.
Proof.
  cbn zeta. intros Hlt Hh. cbn [step]. unfold timeoutFires. rewrite Hh.
  destruct (removeItem_fields r
              (set_timeouts (delete h (timeouts (foldl step (start (run es1)) es2)))
                 (foldl step (start (run es1)) es2))) as (_ & Hnot & _).
  apply Hnot. cbn [items set_timeouts]. intros Hin.
  apply items_after_restart in Hin. lia.
Qed.

Lemma removal_after_restart_is_inert_witness :
  let s := foldl step (start (run stopDuringGrace))
             [IntervalFires 5 noDraw; IntervalFires 7 noDraw] in
  (0 < length (heap (run stopDuringGrace)))%nat ∧
  timeouts s !! 4%nat = Some 0%nat ∧
  step s (TimeoutFires 4) = set_timeouts (delete 4%nat (timeouts s)) s.
Proof.
  cbn zeta.
  assert (0 < length (heap (run stopDuringGrace)))%nat as Hlt
    by (vm_compute; lia).
  assert (timeouts (foldl step (start (run stopDuringGrace))
                      [IntervalFires 5 noDraw; IntervalFires 7 noDraw])
          !! 4%nat = Some 0%nat) as Hh by (vm_compute; reflexivity).
  split; [exact Hlt|]. split; [exact Hh|].
  exact (removal_after_restart_is_inert stopDuringGrace
           [IntervalFires 5 noDraw; IntervalFires 7 noDraw] 4 0 Hlt Hh).
Defined.

(** * The earlier engine *)

Lemma legacy_stop_store s :
  items (Legacy.stop s) = items s ∧ heap (Legacy.stop s) = heap s.
Proof.
  destruct s as [? ? ? ? ? ? [?|] ? ? ? ? ? [?|] [?|] ? ? ? [|] ? ? ? ? ? ?];
    split; reflexivity.
Qed.

Lemma legacy_gameOver_store reason s :
  items (Legacy.gameOver reason s) = items s ∧
  heap (Legacy.gameOver reason s) = heap s.
Proof. unfold Legacy.gameOver. cbn. apply legacy_stop_store. Qed.

Lemma legacy_handle_store item s :
  items (Legacy.handleItemReachedBottom item s) = items s ∧
  heap (Legacy.handleItemReachedBottom item s) = heap s.
Proof.
  unfold Legacy.handleItemReachedBottom. case_decide.
  - unfold Legacy.catchItem. destruct (isBomb item);
      [apply legacy_gameOver_store|].
    unfold showFeedback. cbn. by destruct (onScoreChange s).
  - destruct (isBomb item); cbn [negb]; [done|].
    unfold Legacy.missItem, showFeedback.
    set (s2 := if onMissChange _ then _ else _).
    assert (items s2 = items s ∧ heap s2 = heap s) as [Hi Hh]
      by (subst s2; by destruct (onMissChange _)).
    repeat case_decide; [done | | done].
    destruct (legacy_gameOver_store missReason s2) as [-> ->]. done.
Qed.

Lemma legacy_updateItem_fields index r s :
  let s1 := Legacy.updateItem index r s in
  heap s1 = match heap s !! r with
            | Some item => <[r := legacyAdvance item]> (heap s)
            | None => heap s
            end ∧
  items s1 = if reachesBottom s r then delete index (items s) else items s.
Proof.
  cbn zeta. unfold Legacy.updateItem, reachesBottom, legacyAdvance.
  destruct (heap s !! r) as [item|]; [|done].
  cbn [progress set_progress]. destruct (Qle_bool _ _); [|done].
  cbn [items heap set_items].
  match goal with
  | |- context [Legacy.handleItemReachedBottom ?i ?t] =>
      destruct (legacy_handle_store i t) as [-> ->]
  end.
  done.
Qed.

Lemma legacy_forEach_past_end len k s :
  (length (items s) ≤ k)%nat → Legacy.forEachFrom len k s = s.
Proof.
  revert k. induction len as [|len IH]; intros k Hk; [done|].
  cbn [Legacy.forEachFrom].
  rewrite (proj2 (lookup_ge_None (items s) k)) by lia. apply IH. lia.
Qed.

(** The loop standing at the end of [pre] leaves [pre] in place, keeps a
    sublist of the rest, and writes to no item object outside the rest. *)
Lemma legacy_forEach_split len pre suf s :
  items s = pre ++ suf →
  ∃ suf', items (Legacy.forEachFrom len (length pre) s) = pre ++ suf' ∧
          suf' `sublist_of` suf ∧
          ∀ x, x ∉ suf →
               heap (Legacy.forEachFrom len (length pre) s) !! x = heap s !! x.
Proof.
  revert pre suf s. induction len as [|len IH]; intros pre suf s Hitems.
  { exists suf. done. }
  cbn [Legacy.forEachFrom]. rewrite Hitems.
  destruct suf as [|r suf0].
  { rewrite lookup_app_r, Nat.sub_diag by done. cbn.
    rewrite legacy_forEach_past_end by (rewrite Hitems, length_app; cbn; lia).
    exists []. by rewrite Hitems. }
  rewrite lookup_app_r, Nat.sub_diag by done. cbn [lookup list_lookup].
  destruct (legacy_updateItem_fields (length pre) r s) as [Hh Hi].
  cbn zeta in *. set (s1 := Legacy.updateItem (length pre) r s) in *.
  assert (∀ x, x ≠ r → heap s1 !! x = heap s !! x) as Hother.
  { intros x Hx. rewrite Hh. destruct (heap s !! r); [|done].
    by rewrite list_lookup_insert_ne. }
  rewrite Hitems in Hi.
  destruct (reachesBottom s r).
  - (* [r] is spliced out: the next element takes its index *)
    rewrite delete_take_drop, take_app_length in Hi.
    rewrite drop_app_ge, Nat.sub_succ_l, Nat.sub_diag in Hi by lia.
    cbn [drop] in Hi.
    destruct suf0 as [|r' suf1].
    + rewrite legacy_forEach_past_end
        by (rewrite Hi, length_app; cbn; lia).
      exists []. rewrite Hi. split; [done|]. split; [apply sublist_nil_l|].
      intros x Hx. apply Hother. rewrite not_elem_of_cons in Hx. tauto.
    + replace (S (length pre)) with (length (pre ++ [r']))
        by (rewrite length_app; cbn; lia).
      destruct (IH (pre ++ [r']) suf1 s1) as (suf' & Hi' & Hsub & Hheap).
      { by rewrite Hi, <- app_assoc. }
      exists (r' :: suf'). split; [by rewrite Hi', <- app_assoc|]. split.
      * apply sublist_cons. by apply sublist_skip.
      * intros x Hx. rewrite !not_elem_of_cons in Hx.
        rewrite Hheap by tauto. apply Hother. tauto.
  - replace (S (length pre)) with (length (pre ++ [r]))
      by (rewrite length_app; cbn; lia).
    destruct (IH (pre ++ [r]) suf0 s1) as (suf' & Hi' & Hsub & Hheap).
    { by rewrite Hi, <- app_assoc. }
    exists (r :: suf'). split; [by rewrite Hi', <- app_assoc|]. split.
    + by apply sublist_skip.
    + intros x Hx. rewrite not_elem_of_cons in Hx.
      rewrite Hheap by tauto. apply Hother. tauto.
Qed.

Lemma legacy_forEach_prefix len k s :
  take k (items (Legacy.forEachFrom len k s)) = take k (items s) ∧
  ∀ x, x ∉ drop k (items s) →
       heap (Legacy.forEachFrom len k s) !! x = heap s !! x.
Proof.
  destruct (decide (k ≤ length (items s))%nat) as [Hk|Hk].
  - destruct (legacy_forEach_split len (take k (items s)) (drop k (items s)) s)
      as (suf' & Hi & _ & Hheap); [by rewrite take_drop|].
    rewrite length_take_le in * by done.
    split; [|exact Hheap].
    rewrite Hi. apply take_app_length'. by rewrite length_take_le.
  - rewrite legacy_forEach_past_end by lia. done.
Qed.

Lemma legacy_forEach_S len k s :
  Legacy.forEachFrom (S len) k s =
    match items s !! k with
    | Some r => Legacy.forEachFrom len (S k) (Legacy.updateItem k r s)
    | None => Legacy.forEachFrom len (S k) s
    end.
Proof. reflexivity. Qed.

(** X13.  The earlier updater removes an item from the array inside its
    [forEach].  When the first item of the collection reaches the bottom on
    a tick, it is removed and the item behind it, which takes its index, is
    passed over: that item is not advanced on this tick.  When the first
    item does not reach the bottom, the item behind it is advanced as
    usual. *)
Theorem legacy_updater_skips_after_removal (s : State) (r1 r2 : nat)
    (rest : list nat) :
  isGameActive s = true →
  items s = r1 :: r2 :: rest →
  NoDup (items s) →
  let s' := Legacy.itemUpdateTick s in
  (reachesBottom s r1 = true →
     heap s' !! r2 = heap s !! r2 ∧ items s' !! 0%nat = Some r2 ∧
     r1 ∉ items s') ∧
  (reachesBottom s r1 = false →
     heap s' !! r2 = legacyAdvance <$> heap s !! r2 ∧
     items s' !! 0%nat = Some r1).
Proof.
  intros Ha Hitems Hnd. cbn zeta. unfold Legacy.itemUpdateTick.
  rewrite Ha, Hitems. cbn [negb length].
  rewrite legacy_forEach_S.
  rewrite Hitems in Hnd.
  apply NoDup_cons in Hnd as [Hr1 Hnd]. apply NoDup_cons in Hnd as [Hr2 Hnd].
  rewrite not_elem_of_cons in Hr1. destruct Hr1 as [Hne Hr1].
  rewrite Hitems. cbn [lookup list_lookup].
  destruct (legacy_updateItem_fields 0 r1 s) as [Hh Hi]. cbn zeta in *.
  set (s1 := Legacy.updateItem 0 r1 s) in *.
  assert (heap s1 !! r2 = heap s !! r2) as H12.
  { rewrite Hh. destruct (heap s !! r1); [|done].
    by rewrite list_lookup_insert_ne. }
  rewrite Hitems in Hi. split; intros Hreach; rewrite Hreach in Hi.
  - cbn [delete list_delete] in Hi.
    destruct (legacy_forEach_split (S (length rest)) [r2] rest s1)
      as (suf' & Hi' & Hsub & Hheap); [exact Hi|].
    cbn [length] in *. rewrite Hi', Hheap, H12 by done.
    split; [done|]. split; [done|].
    cbn. rewrite not_elem_of_cons. split; [done|].
    intros Hin. apply Hr1. by eapply elem_of_sublist.
  - rewrite legacy_forEach_S, Hi. cbn [lookup list_lookup].
    destruct (legacy_updateItem_fields 1 r2 s1) as [Hh2 Hi2]. cbn zeta in *.
    set (s2 := Legacy.updateItem 1 r2 s1) in *.
    destruct (legacy_forEach_prefix (length rest) 2 s2) as [Htake Hheap].
    assert (r2 ∉ drop 2 (items s2)) as Hnot.
    { rewrite Hi2, Hi. destruct (reachesBottom s1 r2); cbn; [|done].
      intros Hin. apply Hr2. by eapply elem_of_sublist, sublist_drop. }
    rewrite (Hheap _ Hnot). split.
    + rewrite <- H12. revert Hh2.
      destruct (heap s1 !! r2) as [it2|] eqn:E1; intros ->; [|by rewrite E1].
      cbn. apply list_lookup_insert_eq. by apply lookup_lt_Some in E1.
    + assert (take 1 (take 2 (items (Legacy.forEachFrom (length rest) 2 s2)))
              = [r1]) as H1.
      { rewrite Htake, Hi2, Hi. by destruct (reachesBottom s1 r2). }
      rewrite take_take in H1. cbn [Nat.min] in H1.
      destruct (items (Legacy.forEachFrom (length rest) 2 s2)); [done|].
      cbn in H1. by injection H1 as ->.
Qed.

Lemma legacy_updater_skips_after_removal_witness :
  let s := Legacy.run (legacyTwoApples 40) in
  isGameActive s = true ∧ items s = [0%nat; 1%nat] ∧
  reachesBottom s 0 = true ∧
  heap (Legacy.itemUpdateTick s) !! 1%nat = heap s !! 1%nat ∧
  items (Legacy.itemUpdateTick s) = [1%nat] ∧
  score (Legacy.itemUpdateTick s) = 100.
Proof.
  cbn zeta.
  assert (items (Legacy.run (legacyTwoApples 40)) = [0%nat; 1%nat]) as Hi
    by (vm_compute; reflexivity).
  destruct (legacy_updater_skips_after_removal
              (Legacy.run (legacyTwoApples 40)) 0 1 [])
    as [Hskip _];
    [vm_compute; reflexivity | exact Hi
    | rewrite Hi; apply NoDup_cons; split;
      [by rewrite list_elem_of_singleton | apply NoDup_singleton] |].
  destruct Hskip as (Hh & _); [vm_compute; reflexivity|].
  split; [vm_compute; reflexivity|]. split; [exact Hi|].
  split; [vm_compute; reflexivity|]. split; [exact Hh|].
  split; vm_compute; reflexivity.
Defined.



(** * More on the timers and the level ending *)

(** X15.  [stop] cancels exactly the intervals whose handles the engine
    holds in its four timer fields, and empties the fields: an interval is
    live after [stop] if and only if it was live before and its handle was
    not held. *)
Theorem stop_cancels_held_timers (s : State) (h : nat) (k : Interval) :
  (intervals (stop s) !! h = Some k ↔
   intervals s !! h = Some k ∧ ¬ held s h) ∧
  (∀ h', ¬ held (stop s) h').
Proof.
  unfold held.
  destruct s as [? ? ? ? ? ? [a|] ? ? ? [b|] ? [c|] [d|] ? ? ? [|] ? ? ? ? ? ?];
    cbn; (split; [|intros h' H; destruct_or!; done]);
    rewrite ?lookup_delete_Some;
    (split;
     [ intros H; destruct_and?; split; [done|];
       intros H'; destruct_or!; simplify_eq
     | intros [H Hn]; repeat split; try done;
       intros <-; apply Hn; eauto ]).
Qed.

Lemma isLevelEnding_levelUpCountdownTick s :
  isLevelEnding (levelUpCountdownTick s) = isLevelEnding s.
Proof.
  unfold levelUpCountdownTick, resumeAfterLevelUp. cbn zeta.
  case_decide; [|done].
  destruct s as [? ? ? ? ? ? ? ? ? ? [?|] ? [?|] ? ? ? [|] ? ? ? ? ? ? ?];
    reflexivity.
Qed.

(** X16.  While the level ending is under way nothing enters the
    collection: every event leaves a sublist of it, and the level ending
    is still under way afterwards unless the collection has become
    empty. *)
Theorem level_ending_only_drains (s : State) (e : Event) :
  isLevelEnding s = true →
  items (step s e) `sublist_of` items s ∧
  (isLevelEnding (step s e) = true ∨ items (step s e) = []).
Proof.
  intros He.
  assert (∀ s', items s' = items s → isLevelEnding s' = isLevelEnding s →
    items s' `sublist_of` items s ∧
    (isLevelEnding s' = true ∨ items s' = [])) as Hsame.
  { intros s' -> ->. split; [done | by left]. }
  destruct e as [| |pose|c b|h d|h]; cbn [step].
  - split; [|by right]. change (items (start s)) with (@nil nat).
    apply sublist_nil_l.
  - destruct (world_inv _ _ (world_stop s)) as (_ & _ & Hi & _ & _ & _ & Hl & _).
    by apply Hsame.
  - destruct (rules_inv _ _ (rules_moveBasket pose s)) as (_ & _ & Hi & Hl & _).
    by apply Hsame.
  - destruct (rules_inv _ _ (rules_setCallback c b s)) as (_ & _ & Hi & Hl & _).
    by apply Hsame.
  - unfold intervalFires. destruct (intervals s !! h) as [[| | |]|].
    + unfold levelTimerTick. cbn zeta.
      set (s1 := set_levelTimeRemaining _ s).
      case_decide; [|by apply Hsame].
      destruct (startLevelEnding_fields s1) as (_ & Hi & Hne & Hnil).
      change (items s1) with (items s) in *.
      rewrite Hi. split; [done|].
      destruct (items s) as [|x l] eqn:E; [by right|].
      left. by destruct Hne as (? & _).
    + unfold itemSpawnTick. rewrite He, andb_false_r. by apply Hsame.
    + destruct (rules_inv _ _ (rules_itemUpdateTick s)) as (_ & _ & Hi & Hl & _).
      by apply Hsame.
    + apply Hsame; [|apply isLevelEnding_levelUpCountdownTick].
      by destruct (levelUpCountdownTick_fields s) as (_ & _ & ? & _).
    + by apply Hsame.
  - destruct (timeoutFires_store h s) as [_ Hsub]. split; [exact Hsub|].
    unfold timeoutFires in *. destruct (timeouts s !! h) as [r|]; [|by left].
    set (s1 := set_timeouts _ s) in *.
    destruct (removeItem_fields r s1) as (_ & Hnot & Hix).
    change (items s1) with (items s) in *.
    change (isLevelEnding s1) with (isLevelEnding s) in *.
    destruct (indexOf r (items s)) as [i|] eqn:E.
    + destruct (Hix i eq_refl) as (Hit & _ & Hkeep). rewrite Hit.
      destruct (delete i (items s)) as [|x l] eqn:Hd; [by right|].
      left. destruct Hkeep as (_ & _ & -> & _); [by right | done].
    + apply indexOf_None in E. rewrite (Hnot E). by left.
Qed.

Lemma level_ending_only_drains_witness :
  let ending := run (appleBeforeLevelEnd ++ [levelTick]
                     ++ replicate 102 updaterTick) in
  isLevelEnding ending = true ∧
  items (step ending (spawn pick0 false pick1)) `sublist_of` items ending ∧
  items (step ending (spawn pick0 false pick1)) = [0%nat].
Proof.
  cbn zeta.
  destruct (level_ending_only_drains
              (run (appleBeforeLevelEnd ++ [levelTick]
                    ++ replicate 102 updaterTick))
              (spawn pick0 false pick1)) as [Hsub _];
    [vm_compute; reflexivity|].
  split; [vm_compute; reflexivity|]. split; [exact Hsub|].
  vm_compute. reflexivity.
Defined.
